(** * ext_session_lock_v1 client binding: proxies, requests, event dispatch

    A shallow embedding of the Go package [ext_session_lock] (the file
    that declares the three protocol objects, and ext_session_lock.go) and
    of the narrow part of [github.com/neurlang/wayland/wl] it calls into.

    Every method body that touches the listeners of a proxy is written as
    a program over atomic operations on that proxy: mutex operations, reads
    and writes of the listener slices, and calls of listener methods.  The
    same program is given two semantics: a sequential run (one caller,
    nothing else touches the proxy), and an interleaving of several callers
    on one proxy.  Requests are functions on the wire context. *)

From stdpp Require Import gmap list strings.
From Stdlib Require Import ZArith Lia.

Open Scope Z_scope.

(** ** Scalars and protocol constants *)

(** Go's [uint32]; the binding only stores, compares and forwards such
    values, it never computes with them. *)
Definition uint32 := Z.

(** [wl.ProxyId]: the identifier a context assigns to a proxy. *)
Definition ProxyId := nat.

Definition LockErrorInvalidDestroy : uint32 := 0.
Definition LockErrorInvalidUnlock : uint32 := 1.
Definition LockErrorRole : uint32 := 2.
Definition LockErrorDuplicateOutput : uint32 := 3.
Definition LockErrorAlreadyConstructed : uint32 := 4.

Definition SurfaceErrorCommitBeforeFirstAck : uint32 := 0.
Definition SurfaceErrorNullBuffer : uint32 := 1.
Definition SurfaceErrorDimensionsMismatch : uint32 := 2.
Definition SurfaceErrorInvalidSerial : uint32 := 3.

Definition ManagerRequestDestroy : uint32 := 0.
Definition ManagerRequestLock : uint32 := 1.

Definition LockRequestDestroy : uint32 := 0.
Definition LockRequestGetLockSurface : uint32 := 1.
Definition LockRequestUnlockAndDestroy : uint32 := 2.

Definition LockEventLocked : uint32 := 0.
Definition LockEventFinished : uint32 := 1.

Definition SurfaceRequestDestroy : uint32 := 0.
Definition SurfaceRequestAckConfigure : uint32 := 1.

Definition SurfaceEventConfigure : uint32 := 0.

(** ** Go interface values

    A value of interface type is either nil or a pair of a dynamic type
    and a value of that type.  The dynamic type fixes which of the three
    handler interfaces of the package the value satisfies (its method
    set).  [==] on two interface values compares dynamic type and value;
    the dynamic values are taken to be comparable (pointers, as in the
    example client), so [==] is plain equality of the pairs. *)

Record GoType := {
  type_name : nat;
  hasHandleSessionLockLocked : bool;
  hasHandleSessionLockFinished : bool;
  hasHandleSessionLockSurfaceConfigure : bool
}.

Record Dyn := { dyn_type : GoType; dyn_value : nat }.

#[global] Instance GoType_eq_dec : EqDecision GoType.
Proof. solve_decision. Defined.

#[global] Instance Dyn_eq_dec : EqDecision Dyn.
Proof. solve_decision. Defined.

(** [interface{}], and the three handler interface types: [None] is nil. *)
Definition iface := option Dyn.

(** An element of a listener slice.  The slices are private and only
    [Add*Handler] appends to them, after its [h != nil] test, so their
    elements are non-nil interface values. *)
Definition Handler := Dyn.

(** [e == h] for a slice element [e] and an interface value [h]. *)
Definition iface_eq (e : Handler) (h : iface) : bool := bool_decide (Some e = h).

(** ** Event values *)

Record SessionLockLockedEvent := {}.
Record SessionLockFinishedEvent := {}.
Record SessionLockSurfaceConfigureEvent := {
  Serial : uint32;
  Width : uint32;
  Height : uint32
}.

#[global] Instance SessionLockLockedEvent_eq_dec : EqDecision SessionLockLockedEvent.
Proof. solve_decision. Defined.

#[global] Instance SessionLockFinishedEvent_eq_dec : EqDecision SessionLockFinishedEvent.
Proof. solve_decision. Defined.

#[global] Instance SessionLockSurfaceConfigureEvent_eq_dec :
  EqDecision SessionLockSurfaceConfigureEvent.
Proof. solve_decision. Defined.

(** Modelled from the spec: [wl.Event], the inbound message handed to
    [Dispatch] (the type is declared in the [wl] package, outside this
    repository).  It names the target object and the opcode and carries a
    payload cursor; the payload of the events of this protocol consists of
    32-bit unsigned fields, so [Data] is the list of fields not yet
    consumed. *)
Record Event := { Pid : ProxyId; Opcode : uint32; Data : list uint32 }.

(** Modelled from the spec: [Event.Uint32], which consumes the next
    32-bit unsigned field of the payload.  Reading past the end of the
    payload is outside the contract of the binding; it is reported as
    [None]. *)
Definition Uint32 (event : Event) : option (uint32 * Event) :=
  match Data event with
  | [] => None
  | w :: rest => Some (w, {| Pid := Pid event; Opcode := Opcode event; Data := rest |})
  end.

(** ** sync.RWMutex

    The state of a read-write mutex: how many readers hold it and whether a
    writer does.  An acquire that cannot proceed blocks; a release of a
    mutex that is not held that way is a fatal runtime error. *)

Record RWMutex := { readers : nat; writer : bool }.

#[global] Instance RWMutex_eq_dec : EqDecision RWMutex.
Proof. solve_decision. Defined.

Definition mu_zero : RWMutex := {| readers := 0; writer := false |}.

Inductive MuStep :=
| MuOk (m : RWMutex)
| MuBlocks
| MuFatal.

Definition RWMutex_RLock (m : RWMutex) : MuStep :=
  if writer m then MuBlocks
  else MuOk {| readers := S (readers m); writer := false |}.

Definition RWMutex_RUnlock (m : RWMutex) : MuStep :=
  match readers m with
  | O => MuFatal
  | S n => MuOk {| readers := n; writer := writer m |}
  end.

Definition RWMutex_Lock (m : RWMutex) : MuStep :=
  if writer m then MuBlocks
  else match readers m with
       | O => MuOk {| readers := 0; writer := true |}
       | S _ => MuBlocks
       end.

Definition RWMutex_Unlock (m : RWMutex) : MuStep :=
  if writer m then MuOk {| readers := readers m; writer := false |}
  else MuFatal.

(** ** Atomic operations of a method body *)

Inductive EventKind := KLocked | KFinished | KConfigure.

#[global] Instance EventKind_eq_dec : EqDecision EventKind.
Proof. solve_decision. Defined.

(** A call of a listener method, with the receiver and the event value
    passed to it. *)
Inductive HandlerCall :=
| HandleSessionLockLocked (h : Handler) (ev : SessionLockLockedEvent)
| HandleSessionLockFinished (h : Handler) (ev : SessionLockFinishedEvent)
| HandleSessionLockSurfaceConfigure (h : Handler) (ev : SessionLockSurfaceConfigureEvent).

#[global] Instance HandlerCall_eq_dec : EqDecision HandlerCall.
Proof. solve_decision. Defined.

Section Programs.
(** [Slot] names the listener slices of the proxy type at hand. *)
Context {Slot : Type}.

(** The operations a method performs on its receiver, indexed by the type
    of what they yield.  [Len s] is [len(x.s)], [Index s i] is the read
    of [x.s[i]] a [range] loop makes, [Load s] reads the slice [x.s] and
    [Store s v] assigns it; [New k] is the declaration [ev := T{}] of an
    event value; [Invoke c] calls a listener. *)
Inductive Action : Type -> Type :=
| MuRLock : Action unit
| MuRUnlock : Action unit
| MuLock : Action unit
| MuUnlock : Action unit
| Len (s : Slot) : Action nat
| Index (s : Slot) (i : nat) : Action Handler
| Load (s : Slot) : Action (list Handler)
| Store (s : Slot) (v : list Handler) : Action unit
| New (k : EventKind) : Action unit
| Invoke (c : HandlerCall) : Action unit.

(** What an execution leaves behind: each operation with what it
    yielded. *)
Inductive Effect :=
| ERLock
| ERUnlock
| ELock
| EUnlock
| ELen (s : Slot) (n : nat)
| EIndex (s : Slot) (i : nat) (h : Handler)
| ELoad (s : Slot) (v : list Handler)
| EStore (s : Slot) (v : list Handler)
| ENew (k : EventKind)
| ECall (c : HandlerCall).

Definition effect_of {R} (a : Action R) : R -> Effect :=
  match a in Action R return R -> Effect with
  | MuRLock => fun _ => ERLock
  | MuRUnlock => fun _ => ERUnlock
  | MuLock => fun _ => ELock
  | MuUnlock => fun _ => EUnlock
  | Len s => fun n => ELen s n
  | Index s i => fun h => EIndex s i h
  | Load s => fun v => ELoad s v
  | Store s v => fun _ => EStore s v
  | New k => fun _ => ENew k
  | Invoke c => fun _ => ECall c
  end.

(** A method body: it returns, panics, or performs an operation and goes
    on with what the operation yielded. *)
Inductive Prog (A : Type) : Type :=
| Ret (a : A)
| Panic
| Do {R : Type} (a : Action R) (k : R -> Prog A).

#[global] Arguments Ret {A} a.
#[global] Arguments Panic {A}.
#[global] Arguments Do {A R} a k.

Fixpoint Prog_bind {A B} (f : A -> Prog B) (p : Prog A) : Prog B :=
  match p with
  | Ret a => f a
  | Panic => Panic
  | Do a k => Do a (fun r => Prog_bind f (k r))
  end.

Definition act {R} (a : Action R) : Prog R := Do a Ret.
End Programs.

#[global] Arguments Action : clear implicits.
#[global] Arguments Effect : clear implicits.
#[global] Arguments Prog : clear implicits.

#[global] Instance Prog_mret Slot : MRet (Prog Slot) := fun A a => Ret a.
#[global] Instance Prog_mbind Slot : MBind (Prog Slot) := fun A B f p => Prog_bind f p.

(** ** Proxies as receivers

    A proxy type with a mutex and listener slices named by [Slot]. *)
Class Object (T Slot : Type) := {
  obj_mu : T -> RWMutex;
  obj_set_mu : RWMutex -> T -> T;
  obj_slot : Slot -> T -> list Handler;
  obj_set_slot : Slot -> list Handler -> T -> T
}.

(** The field updates behave as updates of independent fields. *)
Class ObjectLaws (T Slot : Type) `{Object T Slot} `{EqDecision Slot} := {
  obj_mu_set_mu m t : obj_mu (obj_set_mu m t) = m;
  obj_slot_set_mu s m t : obj_slot s (obj_set_mu m t) = obj_slot s t;
  obj_mu_set_slot s v t : obj_mu (obj_set_slot s v t) = obj_mu t;
  obj_slot_set_slot s s' v t :
    obj_slot s' (obj_set_slot s v t) = if decide (s = s') then v else obj_slot s' t;
  obj_set_mu_id t : obj_set_mu (obj_mu t) t = t;
  obj_set_mu_set_mu m m' t : obj_set_mu m' (obj_set_mu m t) = obj_set_mu m' t;
  obj_set_slot_id s t : obj_set_slot s (obj_slot s t) t = t;
  obj_set_slot_set_mu s v m t :
    obj_set_slot s v (obj_set_mu m t) = obj_set_mu m (obj_set_slot s v t)
}.

Section Semantics.
Context {T Slot : Type} `{Object T Slot}.

(** One operation on the receiver [t]: it yields a value and the updated
    receiver, cannot proceed yet, or is a fatal runtime error.  A listener
    call returns to the loop that made it with the receiver as it was: a
    listener that called [Add*Handler] or [Remove*Handler] of the proxy
    being dispatched would wait for the write lock while its own caller
    holds the read lock, and would not return. *)
Inductive Performed (R : Type) :=
| Yields (r : R) (t : T)
| WouldBlock
| Fatal.
#[global] Arguments Yields {R} r t.
#[global] Arguments WouldBlock {R}.
#[global] Arguments Fatal {R}.

Definition on_mutex (st : MuStep) (t : T) : Performed unit :=
  match st with
  | MuOk m => Yields tt (obj_set_mu m t)
  | MuBlocks => WouldBlock
  | MuFatal => Fatal
  end.

Definition perform {R} (a : Action Slot R) (t : T) : Performed R :=
  match a in Action _ R return Performed R with
  | MuRLock => on_mutex (RWMutex_RLock (obj_mu t)) t
  | MuRUnlock => on_mutex (RWMutex_RUnlock (obj_mu t)) t
  | MuLock => on_mutex (RWMutex_Lock (obj_mu t)) t
  | MuUnlock => on_mutex (RWMutex_Unlock (obj_mu t)) t
  | Len s => Yields (length (obj_slot s t)) t
  | Index s i =>
      match obj_slot s t !! i with
      | Some h => Yields h t
      | None => Fatal
      end
  | Load s => Yields (obj_slot s t) t
  | Store s v => Yields tt (obj_set_slot s v t)
  | New _ => Yields tt t
  | Invoke _ => Yields tt t
  end.

(** How a call ends when nothing else touches the receiver. *)
Inductive Result (A : Type) :=
| Returned (a : A) (t : T)
| Panicked
| Deadlocked.
#[global] Arguments Returned {A} a t.
#[global] Arguments Panicked {A}.
#[global] Arguments Deadlocked {A}.

Definition after {A} (e : Effect Slot) (o : list (Effect Slot) * Result A) :
  list (Effect Slot) * Result A := (e :: o.1, o.2).

(** The sequential run of a method body on the receiver [t]: the
    operations performed, in order, and how the call ends. *)
Fixpoint run {A} (p : Prog Slot A) (t : T) : list (Effect Slot) * Result A :=
  match p with
  | Ret a => ([], Returned a t)
  | Panic => ([], Panicked)
  | Do a k =>
      match perform a t with
      | Yields r t' => after (effect_of a r) (run (k r) t')
      | WouldBlock => ([], Deadlocked)
      | Fatal => ([], Panicked)
      end
  end.
End Semantics.

(** The listener calls among the operations of a run. *)
Definition calls {Slot} (tr : list (Effect Slot)) : list HandlerCall :=
  omap (fun e => match e with ECall c => Some c | _ => None end) tr.

(** ** Listener registration and fan-out

    The three [Add*Handler] methods, the three [Remove*Handler] methods
    and the three fan-out loops of [Dispatch] have one body each, up to the
    slice they work on. *)
Section Listeners.
Context {Slot : Type}.

(** [if h != nil { mu.Lock(); x.s = append(x.s, h); mu.Unlock() }] *)
Definition AddHandler (s : Slot) (h : iface) : Prog Slot unit :=
  match h with
  | Some h' =>
      act MuLock;;
      old ← act (Load s);
      act (Store s (old ++ [h']));;
      act MuUnlock
  | None => mret tt
  end.

(** The loop [for i, e := range x.s { if e == h { x.s = append(x.s[:i],
    x.s[i+1:]...); break } }], with [n] iterations left. *)
Fixpoint remove_loop (s : Slot) (h : iface) (n i : nat) : Prog Slot unit :=
  match n with
  | O => mret tt
  | S n' =>
      e ← act (Index s i);
      if iface_eq e h then
        front ← act (Load s);
        back ← act (Load s);
        act (Store s (take i front ++ drop (S i) back))
      else remove_loop s h n' (S i)
  end.

(** [mu.Lock(); defer mu.Unlock(); for ... range x.s ...]: the range
    expression is evaluated once, the deferred unlock runs on return. *)
Definition RemoveHandler (s : Slot) (h : iface) : Prog Slot unit :=
  act MuLock;;
  n ← act (Len s);
  remove_loop s h n 0;;
  act MuUnlock.

(** The loop [for _, h := range x.s { h.Handle...(ev) }], with [n]
    iterations left. *)
Fixpoint range_call (s : Slot) (call : Handler -> HandlerCall) (n i : nat) :
  Prog Slot unit :=
  match n with
  | O => mret tt
  | S n' =>
      h ← act (Index s i);
      act (Invoke (call h));;
      range_call s call n' (S i)
  end.

(** [mu.RLock(); for _, h := range x.s { ... }; mu.RUnlock()] *)
Definition fan_out (s : Slot) (call : Handler -> HandlerCall) : Prog Slot unit :=
  act MuRLock;;
  n ← act (Len s);
  range_call s call n 0;;
  act MuRUnlock.
End Listeners.

(** ** The three proxy types *)

(** Modelled from the spec: [wl.BaseProxy], the part every proxy embeds; of
    it the binding uses the identifier the context assigned. *)
Record BaseProxy := { Id : ProxyId }.

Record SessionLockManager := { manager_BaseProxy : BaseProxy }.

Record SessionLock := {
  lock_BaseProxy : BaseProxy;
  lock_mu : RWMutex;
  privateSessionLockLocked : list Handler;
  privateSessionLockFinished : list Handler
}.

Record SessionLockSurface := {
  surface_BaseProxy : BaseProxy;
  surface_mu : RWMutex;
  privateSessionLockSurfaceConfigure : list Handler
}.

(** [new(T)]: the zero value of each struct. *)
Definition new_BaseProxy : BaseProxy := {| Id := O |}.
Definition new_SessionLockManager : SessionLockManager :=
  {| manager_BaseProxy := new_BaseProxy |}.
Definition new_SessionLock : SessionLock :=
  {| lock_BaseProxy := new_BaseProxy; lock_mu := mu_zero;
     privateSessionLockLocked := []; privateSessionLockFinished := [] |}.
Definition new_SessionLockSurface : SessionLockSurface :=
  {| surface_BaseProxy := new_BaseProxy; surface_mu := mu_zero;
     privateSessionLockSurfaceConfigure := [] |}.

(** The listener slices of each type.  The manager has none, and no mutex:
    its methods perform no operation on it. *)
Inductive ManagerSlot := .
Inductive LockSlot := Locked | Finished.
Inductive SurfaceSlot := Configure.

#[global] Instance ManagerSlot_eq_dec : EqDecision ManagerSlot.
Proof. solve_decision. Defined.
#[global] Instance LockSlot_eq_dec : EqDecision LockSlot.
Proof. solve_decision. Defined.
#[global] Instance SurfaceSlot_eq_dec : EqDecision SurfaceSlot.
Proof. solve_decision. Defined.

#[global] Instance SessionLockManager_Object : Object SessionLockManager ManagerSlot := {
  obj_mu _ := mu_zero;
  obj_set_mu _ m := m;
  obj_slot s _ := match s with end;
  obj_set_slot s _ m := m
}.

#[global] Instance SessionLock_Object : Object SessionLock LockSlot := {
  obj_mu := lock_mu;
  obj_set_mu m l :=
    {| lock_BaseProxy := lock_BaseProxy l; lock_mu := m;
       privateSessionLockLocked := privateSessionLockLocked l;
       privateSessionLockFinished := privateSessionLockFinished l |};
  obj_slot s :=
    match s with
    | Locked => privateSessionLockLocked
    | Finished => privateSessionLockFinished
    end;
  obj_set_slot s v l :=
    match s with
    | Locked =>
        {| lock_BaseProxy := lock_BaseProxy l; lock_mu := lock_mu l;
           privateSessionLockLocked := v;
           privateSessionLockFinished := privateSessionLockFinished l |}
    | Finished =>
        {| lock_BaseProxy := lock_BaseProxy l; lock_mu := lock_mu l;
           privateSessionLockLocked := privateSessionLockLocked l;
           privateSessionLockFinished := v |}
    end
}.

#[global] Instance SessionLockSurface_Object : Object SessionLockSurface SurfaceSlot := {
  obj_mu := surface_mu;
  obj_set_mu m s :=
    {| surface_BaseProxy := surface_BaseProxy s; surface_mu := m;
       privateSessionLockSurfaceConfigure := privateSessionLockSurfaceConfigure s |};
  obj_slot _ := privateSessionLockSurfaceConfigure;
  obj_set_slot _ v s :=
    {| surface_BaseProxy := surface_BaseProxy s; surface_mu := surface_mu s;
       privateSessionLockSurfaceConfigure := v |}
}.

(** ** Event dispatch *)

(** [SessionLockManager.Dispatch]: the body is empty. *)
Definition SessionLockManager_Dispatch (event : Event) : Prog ManagerSlot Event :=
  mret event.

(** [SessionLock.Dispatch].  The result is the event as the call leaves it
    (the payload cursor is part of the event). *)
Definition SessionLock_Dispatch (event : Event) : Prog LockSlot Event :=
  if decide (Opcode event = LockEventLocked) then
    n ← act (Len Locked);
    if decide (0 < n)%nat then
      act (New KLocked);;
      let ev := Build_SessionLockLockedEvent in
      fan_out Locked (fun h => HandleSessionLockLocked h ev);;
      mret event
    else mret event
  else if decide (Opcode event = LockEventFinished) then
    n ← act (Len Finished);
    if decide (0 < n)%nat then
      act (New KFinished);;
      let ev := Build_SessionLockFinishedEvent in
      fan_out Finished (fun h => HandleSessionLockFinished h ev);;
      mret event
    else mret event
  else mret event.

(** [SessionLockSurface.Dispatch]: the three fields are read from the
    payload after the length test and before the read lock is taken. *)
Definition SessionLockSurface_Dispatch (event : Event) : Prog SurfaceSlot Event :=
  if decide (Opcode event = SurfaceEventConfigure) then
    n ← act (Len Configure);
    if decide (0 < n)%nat then
      act (New KConfigure);;
      match Uint32 event with
      | None => Panic
      | Some (serial, event1) =>
          match Uint32 event1 with
          | None => Panic
          | Some (width, event2) =>
              match Uint32 event2 with
              | None => Panic
              | Some (height, event3) =>
                  let ev := {| Serial := serial; Width := width; Height := height |} in
                  fan_out Configure (fun h => HandleSessionLockSurfaceConfigure h ev);;
                  mret event3
              end
          end
      end
    else mret event
  else mret event.

(** ** Typed listener registration *)

Definition SessionLock_AddLockedHandler (h : iface) : Prog LockSlot unit :=
  AddHandler Locked h.
Definition SessionLock_RemoveLockedHandler (h : iface) : Prog LockSlot unit :=
  RemoveHandler Locked h.
Definition SessionLock_AddFinishedHandler (h : iface) : Prog LockSlot unit :=
  AddHandler Finished h.
Definition SessionLock_RemoveFinishedHandler (h : iface) : Prog LockSlot unit :=
  RemoveHandler Finished h.
Definition SessionLockSurface_AddConfigureHandler (h : iface) : Prog SurfaceSlot unit :=
  AddHandler Configure h.
Definition SessionLockSurface_RemoveConfigureHandler (h : iface) : Prog SurfaceSlot unit :=
  RemoveHandler Configure h.

(** ** Untyped listener registration (ext_session_lock.go) *)

(** The type assertion [h.(I)] in its two-result form: the asserted value
    and whether the dynamic type of [h] has the method of [I]. *)
Definition type_assert (has : GoType -> bool) (h : iface) : iface * bool :=
  match h with
  | Some d => if has (dyn_type d) then (Some d, true) else (None, false)
  | None => (None, false)
  end.

Definition SessionLockManagerAddListener (h : iface) : Prog ManagerSlot unit :=
  mret tt.

Definition SessionLockAddListener (h : iface) : Prog LockSlot unit :=
  (let '(handler, ok) := type_assert hasHandleSessionLockLocked h in
   if ok then SessionLock_AddLockedHandler handler else mret tt);;
  (let '(handler, ok) := type_assert hasHandleSessionLockFinished h in
   if ok then SessionLock_AddFinishedHandler handler else mret tt).

Definition SessionLockSurfaceAddListener (h : iface) : Prog SurfaceSlot unit :=
  let '(handler, ok) := type_assert hasHandleSessionLockSurfaceConfigure h in
  if ok then SessionLockSurface_AddConfigureHandler handler else mret tt.

(** ** The wire context

    [wl.Context] belongs to the [wl] package, outside this repository; the
    binding uses its [Register] and [SendRequest], and the context delivers
    inbound events to the [Dispatch] of the registered proxy. *)

(** A proxy as the registry of a context holds it. *)
Inductive Proxy :=
| ProxyManager (m : SessionLockManager)
| ProxyLock (l : SessionLock)
| ProxySurface (s : SessionLockSurface)
| ProxyOther (b : BaseProxy).

(** An argument of a request: another proxy (sent as its identifier, a
    pointer being the identifier under which the object is registered), or
    a [uint32]. *)
Inductive Arg :=
| ArgProxy (p : ProxyId)
| ArgUint32 (v : uint32).

Record Request := { sender : ProxyId; opcode : uint32; args : list Arg }.

(** The error value a failed send returns. *)
Definition TransportError := nat.

(** Modelled from the spec: [wl.Context], which "assigns object IDs, holds
    a registry mapping ID to proxy object" and writes requests to the
    outbound connection.  [submitted] lists every request handed to the
    transport, oldest first, with the outcome of the send; [faults] is what
    the transport will answer to the next sends (success once it is
    exhausted). *)
Record Context := {
  objects : gmap ProxyId Proxy;
  submitted : list (Request * option TransportError);
  faults : list (option TransportError)
}.

Definition Proxy_SetId (id : ProxyId) (p : Proxy) : Proxy :=
  match p with
  | ProxyManager m => ProxyManager {| manager_BaseProxy := {| Id := id |} |}
  | ProxyLock l =>
      ProxyLock {| lock_BaseProxy := {| Id := id |}; lock_mu := lock_mu l;
                   privateSessionLockLocked := privateSessionLockLocked l;
                   privateSessionLockFinished := privateSessionLockFinished l |}
  | ProxySurface s =>
      ProxySurface {| surface_BaseProxy := {| Id := id |}; surface_mu := surface_mu s;
                      privateSessionLockSurfaceConfigure :=
                        privateSessionLockSurfaceConfigure s |}
  | ProxyOther _ => ProxyOther {| Id := id |}
  end.

Definition Proxy_Id (p : Proxy) : ProxyId :=
  match p with
  | ProxyManager m => Id (manager_BaseProxy m)
  | ProxyLock l => Id (lock_BaseProxy l)
  | ProxySurface s => Id (surface_BaseProxy s)
  | ProxyOther b => Id b
  end.

(** Modelled from the spec: [Context.Register], "registration assigns an ID
    and stores the object in the context's registry, keyed by that ID"; the
    ID is one no registered object has.  The result is the pointer to the
    registered object. *)
Definition Register (ctx : Context) (p : Proxy) : Context * ProxyId :=
  let id := fresh (dom (objects ctx)) in
  ({| objects := <[id := Proxy_SetId id p]> (objects ctx);
      submitted := submitted ctx;
      faults := faults ctx |}, id).

(** Modelled from the spec: [Context.SendRequest], which hands one request
    (sender, opcode, ordered arguments) to the transport and returns the
    error of the send, if any. *)
Definition SendRequest (ctx : Context) (p : ProxyId) (op : uint32) (a : list Arg) :
  Context * option TransportError :=
  let err := default None (head (faults ctx)) in
  ({| objects := objects ctx;
      submitted := submitted ctx ++ [({| sender := p; opcode := op; args := a |}, err)];
      faults := tail (faults ctx) |}, err).

(** Where an inbound event ends up. *)
Inductive Routed :=
| ToManager (m : SessionLockManager)
    (o : list (Effect ManagerSlot) * Result (T:=SessionLockManager) Event)
| ToLock (l : SessionLock)
    (o : list (Effect LockSlot) * Result (T:=SessionLock) Event)
| ToSurface (s : SessionLockSurface)
    (o : list (Effect SurfaceSlot) * Result (T:=SessionLockSurface) Event)
| ToOther
| Unrouted.

(** Modelled from the spec: inbound delivery, "dispatch(objectId, opcode,
    payloadCursor) routed to the matching registered object": the context
    looks the target up and calls the [Dispatch] of what it finds. *)
Definition deliver (ctx : Context) (event : Event) : Routed :=
  match objects ctx !! Pid event with
  | Some (ProxyManager m) => ToManager m (run (SessionLockManager_Dispatch event) m)
  | Some (ProxyLock l) => ToLock l (run (SessionLock_Dispatch event) l)
  | Some (ProxySurface s) => ToSurface s (run (SessionLockSurface_Dispatch event) s)
  | Some (ProxyOther _) => ToOther
  | None => Unrouted
  end.

(** ** Constructors and requests

    A receiver is the pointer to a registered proxy. *)

Definition NewSessionLockManager (ctx : Context) : Context * ProxyId :=
  Register ctx (ProxyManager new_SessionLockManager).

Definition NewSessionLock (ctx : Context) : Context * ProxyId :=
  Register ctx (ProxyLock new_SessionLock).

Definition NewSessionLockSurface (ctx : Context) : Context * ProxyId :=
  Register ctx (ProxySurface new_SessionLockSurface).

Definition SessionLockManager_Destroy (ctx : Context) (m : ProxyId) :
  Context * option TransportError :=
  SendRequest ctx m ManagerRequestDestroy [].

Definition SessionLockManager_Lock (ctx : Context) (m : ProxyId) :
  Context * (ProxyId * option TransportError) :=
  let '(ctx1, retId) := NewSessionLock ctx in
  let '(ctx2, err) := SendRequest ctx1 m ManagerRequestLock [ArgProxy retId] in
  (ctx2, (retId, err)).

Definition SessionLock_Destroy (ctx : Context) (l : ProxyId) :
  Context * option TransportError :=
  SendRequest ctx l LockRequestDestroy [].

Definition SessionLock_GetLockSurface (ctx : Context) (l : ProxyId)
    (surface output : ProxyId) : Context * (ProxyId * option TransportError) :=
  let '(ctx1, retId) := NewSessionLockSurface ctx in
  let '(ctx2, err) :=
    SendRequest ctx1 l LockRequestGetLockSurface
      [ArgProxy retId; ArgProxy surface; ArgProxy output] in
  (ctx2, (retId, err)).

Definition SessionLock_UnlockAndDestroy (ctx : Context) (l : ProxyId) :
  Context * option TransportError :=
  SendRequest ctx l LockRequestUnlockAndDestroy [].

Definition SessionLockSurface_Destroy (ctx : Context) (s : ProxyId) :
  Context * option TransportError :=
  SendRequest ctx s SurfaceRequestDestroy [].

Definition SessionLockSurface_AckConfigure (ctx : Context) (s : ProxyId)
    (serial : uint32) : Context * option TransportError :=
  SendRequest ctx s SurfaceRequestAckConfigure [ArgUint32 serial].

(** ** Calls through a pointer

    The pointer a constructor returns and the entry of the registry are the
    same object: a method called through the pointer runs on the registered
    proxy and leaves its effect there. *)
Definition SessionLock_call {A} (ctx : Context) (l : ProxyId) (p : Prog LockSlot A) :
  Context * option (list (Effect LockSlot) * Result (T:=SessionLock) A) :=
  match objects ctx !! l with
  | Some (ProxyLock o) =>
      let r := run p o in
      (match r.2 with
       | Returned _ o' =>
           {| objects := <[l := ProxyLock o']> (objects ctx);
              submitted := submitted ctx;
              faults := faults ctx |}
       | _ => ctx
       end, Some r)
  | _ => (ctx, None)
  end.

Definition SessionLockSurface_call {A} (ctx : Context) (s : ProxyId)
    (p : Prog SurfaceSlot A) :
  Context * option (list (Effect SurfaceSlot) * Result (T:=SessionLockSurface) A) :=
  match objects ctx !! s with
  | Some (ProxySurface o) =>
      let r := run p o in
      (match r.2 with
       | Returned _ o' =>
           {| objects := <[s := ProxySurface o']> (objects ctx);
              submitted := submitted ctx;
              faults := faults ctx |}
       | _ => ctx
       end, Some r)
  | _ => (ctx, None)
  end.

(** ** Several callers on one proxy

    Goroutines that call methods of one proxy, interleaved operation by
    operation.  Each goroutine is the rest of the method body it runs; the
    tag [holds] records whether it has taken the mutex and not yet released
    it (it follows the lock operations of the goroutine and decides
    nothing). *)

Inductive Hold := HoldsNone | HoldsRead | HoldsWrite.

#[global] Instance Hold_eq_dec : EqDecision Hold.
Proof. solve_decision. Defined.

Record Thread (Slot : Type) := { code : Prog Slot unit; holds : Hold }.
#[global] Arguments code {Slot} _.
#[global] Arguments holds {Slot} _.
#[global] Arguments Build_Thread {Slot} _ _.

Definition hold_after {Slot R} (a : Action Slot R) (h : Hold) : Hold :=
  match a with
  | MuRLock => HoldsRead
  | MuLock => HoldsWrite
  | MuRUnlock => HoldsNone
  | MuUnlock => HoldsNone
  | _ => h
  end.

(** A goroutine that is about to call [p]. *)
Definition start {Slot} (p : Prog Slot unit) : Thread Slot :=
  {| code := p; holds := HoldsNone |}.

Section Interleaving.
Context {T Slot : Type} `{Object T Slot}.

(** What the next operation of a goroutine does on the proxy as it is now:
    it is performed, it has to wait (a lock that is not free), it is a
    runtime fault, or the goroutine has returned. *)
Inductive ThreadStep :=
| Steps (th' : Thread Slot) (t' : T)
| Waits
| Faults
| Exited.

Definition thread_step (th : Thread Slot) (t : T) : ThreadStep :=
  match code th with
  | Ret _ => Exited
  | Panic => Faults
  | Do a k =>
      match perform a t with
      | Yields r t' => Steps {| code := k r; holds := hold_after a (holds th) |} t'
      | WouldBlock => Waits
      | Fatal => Faults
      end
  end.

Record Pool := { shared : T; threads : list (Thread Slot) }.

(** One step of the pool: some goroutine performs its next operation. *)
Inductive pool_step : Pool -> Pool -> Prop :=
| pool_step_thread (P : Pool) (i : nat) (th th' : Thread Slot) (t' : T) :
    threads P !! i = Some th ->
    thread_step th (shared P) = Steps th' t' ->
    pool_step P {| shared := t'; threads := <[i := th']> (threads P) |}.

(** The pool after goroutine [i] was given the chance to perform its next
    operation (nothing happens when it waits, has returned, or does not
    exist), and after a whole schedule of such chances. *)
Definition pool_sched (P : Pool) (i : nat) : Pool :=
  match threads P !! i with
  | Some th =>
      match thread_step th (shared P) with
      | Steps th' t' => {| shared := t'; threads := <[i := th']> (threads P) |}
      | _ => P
      end
  | None => P
  end.

Definition pool_run (P : Pool) (schedule : list nat) : Pool :=
  foldl pool_sched P schedule.
End Interleaving.

#[global] Arguments ThreadStep : clear implicits.
#[global] Arguments Pool : clear implicits.

(** * Vocabulary of the statements *)

(** The list [l] without its first element equal to [h]. *)
Fixpoint remove_first (h : iface) (l : list Handler) : list Handler :=
  match l with
  | [] => []
  | e :: l' => if iface_eq e h then l' else e :: remove_first h l'
  end.

(** The mutex held by one writer. *)
Definition mu_writer : RWMutex := {| readers := 0; writer := true |}.

(** The operations of a [range] loop that calls every element of [l],
    starting at index [i]. *)
Fixpoint range_trace {Slot} (s : Slot) (call : Handler -> HandlerCall)
    (l : list Handler) (i : nat) : list (Effect Slot) :=
  match l with
  | [] => []
  | h :: l' => EIndex s i h :: ECall (call h) :: range_trace s call l' (S i)
  end.

Section Sequencing.
Context {T Slot : Type} `{Object T Slot}.

(** Sequencing: the second part runs on what the first part left, if the
    first part returned. *)
Definition then_run {A B} (o : list (Effect Slot) * Result (T:=T) A)
    (f : A -> T -> list (Effect Slot) * Result (T:=T) B) :
  list (Effect Slot) * Result (T:=T) B :=
  match o.2 with
  | Returned a t' => (o.1 ++ (f a t').1, (f a t').2)
  | Panicked => (o.1, Panicked)
  | Deadlocked => (o.1, Deadlocked)
  end.

(** A receiver nobody holds the mutex of. *)
Definition quiescent (t : T) : Prop := obj_mu t = mu_zero.
End Sequencing.

(** [after] is [before] with the first element identical to [h] taken out,
    everything else staying in place; it is [before] itself when no element
    is identical to [h]. *)
Definition first_match_removed (h : iface) (before after : list Handler) : Prop :=
  (forall pre e post,
      before = pre ++ e :: post -> h = Some e -> (forall e', e' ∈ pre -> h <> Some e') ->
      after = pre ++ post)
  /\ ((forall e, e ∈ before -> h <> Some e) -> after = before).

(** ** Sample values, after the example client

    [LockClient] has the methods [HandleSessionLockLocked] and
    [HandleSessionLockFinished]; [LockSurfaceHandler] has
    [HandleSessionLockSurfaceConfigure]. *)
Definition LockClient : GoType :=
  {| type_name := 1; hasHandleSessionLockLocked := true;
     hasHandleSessionLockFinished := true;
     hasHandleSessionLockSurfaceConfigure := false |}.

Definition LockSurfaceHandler : GoType :=
  {| type_name := 2; hasHandleSessionLockLocked := false;
     hasHandleSessionLockFinished := false;
     hasHandleSessionLockSurfaceConfigure := true |}.

(** A type with none of the three methods. *)
Definition Stranger : GoType :=
  {| type_name := 3; hasHandleSessionLockLocked := false;
     hasHandleSessionLockFinished := false;
     hasHandleSessionLockSurfaceConfigure := false |}.

Definition client_a : Handler := {| dyn_type := LockClient; dyn_value := 1 |}.
Definition client_b : Handler := {| dyn_type := LockClient; dyn_value := 2 |}.
Definition client_c : Handler := {| dyn_type := LockClient; dyn_value := 3 |}.
Definition surface_handler_a : Handler := {| dyn_type := LockSurfaceHandler; dyn_value := 4 |}.
Definition surface_handler_b : Handler := {| dyn_type := LockSurfaceHandler; dyn_value := 5 |}.
Definition stranger : Handler := {| dyn_type := Stranger; dyn_value := 6 |}.

(** A lock with listeners a, b, a for "locked" and c for "finished", and a
    lock surface with listeners a, b for "configure". *)
Definition sample_lock : SessionLock :=
  {| lock_BaseProxy := {| Id := 3%nat |}; lock_mu := mu_zero;
     privateSessionLockLocked := [client_a; client_b; client_a];
     privateSessionLockFinished := [client_c] |}.

Definition sample_surface : SessionLockSurface :=
  {| surface_BaseProxy := {| Id := 4%nat |}; surface_mu := mu_zero;
     privateSessionLockSurfaceConfigure := [surface_handler_a; surface_handler_b] |}.

(** The operations of a [Dispatch] that reaches the length test of slice
    [s] holding [l]: the test alone when [l] is empty; otherwise the test,
    the event value, and the fan-out under the read lock. *)
Definition dispatch_trace {Slot} (s : Slot) (k : EventKind)
    (call : Handler -> HandlerCall) (l : list Handler) : list (Effect Slot) :=
  match l with
  | [] => [ELen s 0%nat]
  | _ :: _ =>
      [ELen s (length l); ENew k; ERLock; ELen s (length l)]
        ++ range_trace s call l 0 ++ [ERUnlock]
  end.

(** The listener slice a [Dispatch] of the given opcode looks at, if the
    opcode is one the type handles. *)
Definition SessionLock_event_slot (op : uint32) : option LockSlot :=
  if decide (op = LockEventLocked) then Some Locked
  else if decide (op = LockEventFinished) then Some Finished
  else None.

Definition SessionLockSurface_event_slot (op : uint32) : option SurfaceSlot :=
  if decide (op = SurfaceEventConfigure) then Some Configure else None.

(** The event with its first [n] payload fields consumed. *)
Definition consumed (n : nat) (event : Event) : Event :=
  {| Pid := Pid event; Opcode := Opcode event; Data := drop n (Data event) |}.

Definition locked_call (h : Handler) : HandlerCall :=
  HandleSessionLockLocked h Build_SessionLockLockedEvent.
Definition finished_call (h : Handler) : HandlerCall :=
  HandleSessionLockFinished h Build_SessionLockFinishedEvent.
Definition configure_call (serial width height : uint32) (h : Handler) : HandlerCall :=
  HandleSessionLockSurfaceConfigure h
    {| Serial := serial; Width := width; Height := height |}.

Definition sample_locked_event : Event :=
  {| Pid := 3%nat; Opcode := LockEventLocked; Data := [] |}.
Definition sample_finished_event : Event :=
  {| Pid := 3%nat; Opcode := LockEventFinished; Data := [] |}.
Definition sample_configure_event : Event :=
  {| Pid := 4%nat; Opcode := SurfaceEventConfigure; Data := [7; 1920; 1080] |}.
(** An event of an opcode none of the three types handles. *)
Definition sample_unknown_event : Event :=
  {| Pid := 3%nat; Opcode := 5; Data := [11; 12] |}.

(** What a type assertion to a handler interface lets through: the value
    itself when it is not nil and its dynamic type has the method. *)
Definition as_listener (has : GoType -> bool) (h : iface) : list Handler :=
  match h with
  | Some d => if has (dyn_type d) then [d] else []
  | None => []
  end.

(** A context nothing is registered with, whose transport accepts every
    request, and one whose transport refuses the next request with error 5. *)
Definition empty_context : Context :=
  {| objects := ∅; submitted := []; faults := [] |}.

Definition failing_context : Context :=
  {| objects := ∅; submitted := []; faults := [Some 5%nat] |}.

(** A context with a manager, registered under the identifier 0, and events
    addressed to the identifier 1, the next one the context assigns. *)
Definition sample_context : Context := (NewSessionLockManager empty_context).1.

Definition sample_lock_event_1 : Event :=
  {| Pid := 1%nat; Opcode := LockEventLocked; Data := [] |}.
Definition sample_configure_event_1 : Event :=
  {| Pid := 1%nat; Opcode := SurfaceEventConfigure; Data := [7; 1920; 1080] |}.

(** The lock and the lock surface as their constructors register them under
    the identifier [id]. *)
Definition registered_lock (id : ProxyId) : SessionLock :=
  {| lock_BaseProxy := {| Id := id |}; lock_mu := mu_zero;
     privateSessionLockLocked := []; privateSessionLockFinished := [] |}.

Definition registered_surface (id : ProxyId) : SessionLockSurface :=
  {| surface_BaseProxy := {| Id := id |}; surface_mu := mu_zero;
     privateSessionLockSurfaceConfigure := [] |}.

(** ** Sequences of calls on one proxy *)

(** A call of [Add*Handler], [Remove*Handler] (the slice says which) or
    [Dispatch]. *)
Inductive Call (Slot : Type) :=
| CallAdd (s : Slot) (h : iface)
| CallRemove (s : Slot) (h : iface)
| CallDispatch (event : Event).
#[global] Arguments CallAdd {Slot} s h.
#[global] Arguments CallRemove {Slot} s h.
#[global] Arguments CallDispatch {Slot} event.

Definition call_prog {Slot} (dispatch : Event -> Prog Slot Event) (c : Call Slot) :
  Prog Slot unit :=
  match c with
  | CallAdd s h => AddHandler s h
  | CallRemove s h => RemoveHandler s h
  | CallDispatch event => dispatch event;; mret tt
  end.

(** The calls one after the other, each returning before the next starts. *)
Fixpoint sequence {Slot} (dispatch : Event -> Prog Slot Event) (cs : list (Call Slot)) :
  Prog Slot unit :=
  match cs with
  | [] => mret tt
  | c :: cs' => call_prog dispatch c;; sequence dispatch cs'
  end.

Definition SessionLock_calls : list (Call LockSlot) -> Prog LockSlot unit :=
  sequence SessionLock_Dispatch.
Definition SessionLockSurface_calls : list (Call SurfaceSlot) -> Prog SurfaceSlot unit :=
  sequence SessionLockSurface_Dispatch.

Definition receiver (c : HandlerCall) : Handler :=
  match c with
  | HandleSessionLockLocked h _ => h
  | HandleSessionLockFinished h _ => h
  | HandleSessionLockSurfaceConfigure h _ => h
  end.

Definition call_kind (c : HandlerCall) : EventKind :=
  match c with
  | HandleSessionLockLocked _ _ => KLocked
  | HandleSessionLockFinished _ _ => KFinished
  | HandleSessionLockSurfaceConfigure _ _ => KConfigure
  end.

Definition LockSlot_kind (s : LockSlot) : EventKind :=
  match s with Locked => KLocked | Finished => KFinished end.
Definition SurfaceSlot_kind (s : SurfaceSlot) : EventKind := KConfigure.

(** How often listener [h] is called for an event of kind [k] in a run. *)
Definition invocations {Slot} (k : EventKind) (h : Handler) (tr : list (Effect Slot)) : nat :=
  length (filter (fun c => call_kind c = k /\ receiver c = h) (calls tr)).

(** How often [h] occurs in a listener slice. *)
Definition registrations (h : Handler) (l : list Handler) : nat :=
  length (filter (fun e => e = h) l).

(** The number of calls of [h] for events of slice [s] that a sequence of
    calls makes when [h] is registered [reg] times at its start: an add of
    [h] registers it once more, a remove of [h] takes one registration away
    if there is one, and a dispatch of an event of the slice calls it once
    per registration. *)
Fixpoint expected_invocations {Slot} `{EqDecision Slot}
    (event_slot : uint32 -> option Slot) (s : Slot) (h : Handler) (reg : nat)
    (cs : list (Call Slot)) : nat :=
  match cs with
  | [] => 0
  | CallAdd s' h' :: cs' =>
      expected_invocations event_slot s h
        (if decide (s' = s /\ h' = Some h) then S reg else reg) cs'
  | CallRemove s' h' :: cs' =>
      expected_invocations event_slot s h
        (if decide (s' = s /\ h' = Some h) then pred reg else reg) cs'
  | CallDispatch event :: cs' =>
      ((if decide (event_slot (Opcode event) = Some s) then reg else 0)
       + expected_invocations event_slot s h reg cs')%nat
  end.

(** The number of dispatches of events of slice [s] in a sequence. *)
Fixpoint dispatches {Slot} `{EqDecision Slot}
    (event_slot : uint32 -> option Slot) (s : Slot) (cs : list (Call Slot)) : nat :=
  match cs with
  | [] => 0
  | CallDispatch event :: cs' =>
      ((if decide (event_slot (Opcode event) = Some s) then 1 else 0)
       + dispatches event_slot s cs')%nat
  | _ :: cs' => dispatches event_slot s cs'
  end.

(** No call of the sequence adds [h] to slice [s]; none removes it. *)
Definition no_add {Slot} (s : Slot) (h : Handler) (cs : list (Call Slot)) : Prop :=
  Forall (fun c => c <> CallAdd s (Some h)) cs.
Definition no_remove {Slot} (s : Slot) (h : Handler) (cs : list (Call Slot)) : Prop :=
  Forall (fun c => c <> CallRemove s (Some h)) cs.

(** Every event dispatched in the sequence has an acceptable payload. *)
Definition payloads_ok {Slot} (payload_ok : Event -> Prop) (cs : list (Call Slot)) : Prop :=
  Forall (fun c => match c with CallDispatch event => payload_ok event | _ => True end) cs.

(** A "configure" event carries its three fields. *)
Definition configure_payload (event : Event) : Prop :=
  Opcode event = SurfaceEventConfigure -> (3 <= length (Data event))%nat.

(** Every "configure" event of the sequence carries its three fields. *)
Definition configure_payloads (cs : list (Call SurfaceSlot)) : Prop :=
  payloads_ok configure_payload cs.

(** The call a listener gets from the dispatch of [event]. *)
Definition SessionLock_listener_call (event : Event) (h : Handler) : HandlerCall :=
  if decide (Opcode event = LockEventLocked) then locked_call h else finished_call h.

Definition SessionLockSurface_listener_call (event : Event) (h : Handler) : HandlerCall :=
  match Data event with
  | serial :: width :: height :: _ => configure_call serial width height h
  | _ => configure_call 0 0 0 h
  end.

(** Between the add and the remove of listener a: two "locked" events, an
    add of listener b, and a "finished" event; after the remove: one more
    "locked" event. *)
Definition sample_between : list (Call LockSlot) :=
  [CallDispatch sample_locked_event; CallAdd Locked (Some client_b);
   CallDispatch sample_finished_event; CallDispatch sample_locked_event].
Definition sample_afterwards : list (Call LockSlot) :=
  [CallDispatch sample_locked_event].

(** ** Vocabulary for interleaved callers *)

(** The number of goroutines of the pool with the given tag. *)
Definition holders {Slot} (h : Hold) (ths : list (Thread Slot)) : nat :=
  length (filter (fun th => holds th = h) ths).

(** The slices of a proxy, by name. *)
Definition slots_of {T Slot} `{Object T Slot} (t : T) : Slot -> list Handler :=
  fun s => obj_slot s t.

Definition set_slot {Slot} `{EqDecision Slot} (s : Slot) (v : list Handler)
    (σ : Slot -> list Handler) : Slot -> list Handler :=
  fun s' => if decide (s = s') then v else σ s'.

(** A slice goes from [old] to [new] by one complete add or one complete
    remove. *)
Definition atomic_update (old new : list Handler) : Prop :=
  (exists h, new = old ++ [h]) \/ (exists h, new = remove_first h old).

(** The locking discipline of a piece of a method body, from the point
    where the goroutine has the tag [h] and the slices are [σ], to its end,
    which it reaches with the tag [final]: elements of a slice are read and
    listeners are called only while the mutex is held, a slice is assigned
    only under the write lock and only by a complete add or remove, an index
    read is in range, and locks are taken by a goroutine that holds none and
    released by one that holds them.  While the goroutine holds no lock the
    slices may be anything when it goes on. *)
Inductive disciplined {Slot} `{EqDecision Slot} {A : Type} (final : Hold) :
  (Slot -> list Handler) -> Hold -> Prog Slot A -> Prop :=
| disc_Ret σ a : disciplined final σ final (Ret a)
| disc_RLock σ k :
    (forall σ', disciplined final σ' HoldsRead (k tt)) ->
    disciplined final σ HoldsNone (Do MuRLock k)
| disc_RUnlock σ k :
    (forall σ', disciplined final σ' HoldsNone (k tt)) ->
    disciplined final σ HoldsRead (Do MuRUnlock k)
| disc_Lock σ k :
    (forall σ', disciplined final σ' HoldsWrite (k tt)) ->
    disciplined final σ HoldsNone (Do MuLock k)
| disc_Unlock σ k :
    (forall σ', disciplined final σ' HoldsNone (k tt)) ->
    disciplined final σ HoldsWrite (Do MuUnlock k)
| disc_Len_free σ s k :
    (forall n σ', disciplined final σ' HoldsNone (k n)) ->
    disciplined final σ HoldsNone (Do (Len s) k)
| disc_Len_held σ h s k :
    h <> HoldsNone -> disciplined final σ h (k (length (σ s))) ->
    disciplined final σ h (Do (Len s) k)
| disc_Index σ h s i e k :
    h <> HoldsNone -> σ s !! i = Some e -> disciplined final σ h (k e) ->
    disciplined final σ h (Do (Index s i) k)
| disc_Load σ h s k :
    h <> HoldsNone -> disciplined final σ h (k (σ s)) ->
    disciplined final σ h (Do (Load s) k)
| disc_Store σ s v k :
    atomic_update (σ s) v -> disciplined final (set_slot s v σ) HoldsWrite (k tt) ->
    disciplined final σ HoldsWrite (Do (Store s v) k)
| disc_New σ kd k :
    (forall σ', disciplined final σ' HoldsNone (k tt)) ->
    disciplined final σ HoldsNone (Do (New kd) k)
| disc_Invoke σ c k :
    disciplined final σ HoldsRead (k tt) ->
    disciplined final σ HoldsRead (Do (Invoke c) k).

(** The next operation of a goroutine reads an element of a slice or the
    slice itself, assigns a slice, or calls a listener. *)
Definition reads_slice {Slot} (th : Thread Slot) : Prop :=
  match code th with
  | Do (Index _ _) _ => True
  | Do (Load _) _ => True
  | _ => False
  end.

Definition assigns_slice {Slot} (th : Thread Slot) : Prop :=
  match code th with
  | Do (Store _ _) _ => True
  | _ => False
  end.

Definition calls_listener {Slot} (th : Thread Slot) : Prop :=
  match code th with
  | Do (Invoke _) _ => True
  | _ => False
  end.

(** The invariant of a pool: the mutex counts the goroutines that hold it,
    a writer is alone, and every goroutine is at a point of a disciplined
    body. *)
Record pool_inv {T Slot} `{Object T Slot} `{EqDecision Slot} (P : Pool T Slot) : Prop := {
  inv_readers : readers (obj_mu (shared P)) = holders HoldsRead (threads P);
  inv_writer :
    (writer (obj_mu (shared P)) = false /\ holders HoldsWrite (threads P) = 0%nat)
    \/ (writer (obj_mu (shared P)) = true /\ holders HoldsWrite (threads P) = 1%nat
        /\ holders HoldsRead (threads P) = 0%nat);
  inv_threads :
    Forall (fun th => disciplined HoldsNone (slots_of (shared P)) (holds th) (code th))
      (threads P)
}.

(** What the mutex gives in a state [P] of a pool of callers: a goroutine
    that is about to call a listener holds the read lock, one that is about
    to read a slice or an element of it holds the mutex, one that is about to
    assign a slice holds the write lock, and the next operation of a
    goroutine is never a fault (no index out of range, no release of a mutex
    that is not held); a goroutine that holds the write lock is the only
    holder; the mutex counts its holders; and a step changes a slice only by
    one complete add or remove, made under the write lock, and changes none
    while another goroutine holds the mutex. *)
Definition guarded {T Slot} `{Object T Slot} (P : Pool T Slot) : Prop :=
  (forall i th, threads P !! i = Some th ->
     (calls_listener th -> holds th = HoldsRead)
     /\ (reads_slice th -> holds th <> HoldsNone)
     /\ (assigns_slice th -> holds th = HoldsWrite)
     /\ thread_step th (shared P) <> Faults)
  /\ (forall i j thi thj,
        threads P !! i = Some thi -> threads P !! j = Some thj -> i <> j ->
        holds thi = HoldsWrite -> holds thj = HoldsNone)
  /\ readers (obj_mu (shared P)) = holders HoldsRead (threads P)
  /\ (if writer (obj_mu (shared P)) then holders HoldsWrite (threads P) = 1%nat
      else holders HoldsWrite (threads P) = 0%nat)
  /\ (forall i th th' t',
        threads P !! i = Some th -> thread_step th (shared P) = Steps th' t' ->
        (forall s, obj_slot s t' = obj_slot s (shared P)
                   \/ (holds th = HoldsWrite
                       /\ atomic_update (obj_slot s (shared P)) (obj_slot s t')))
        /\ (forall j thj, j <> i -> threads P !! j = Some thj -> holds thj <> HoldsNone ->
                          forall s, obj_slot s t' = obj_slot s (shared P))).


(** An operation that reads or assigns a slice (none on the mutex, no
    listener call). *)
Definition slice_access {Slot} (e : Effect Slot) : Prop :=
  match e with
  | ELen _ _ | EIndex _ _ _ | ELoad _ _ | EStore _ _ => True
  | _ => False
  end.

(** Two goroutines on the sample lock, one dispatching a "locked" event and
    one removing listener b; and the state in which the first has taken the
    read lock and read the first listener, after which the second was given
    a chance. *)
Definition sample_pool : Pool SessionLock LockSlot :=
  {| shared := sample_lock;
     threads := map (fun cs => start (SessionLock_calls cs))
                  [[CallDispatch sample_locked_event];
                   [CallRemove Locked (Some client_b)]] |}.

Definition sample_pool_in_fan_out : Pool SessionLock LockSlot :=
  pool_run sample_pool [0; 0; 0; 0; 0; 1]%nat.

Definition sample_surface_pool : Pool SessionLockSurface SurfaceSlot :=
  {| shared := sample_surface;
     threads := map (fun cs => start (SessionLockSurface_calls cs))
                  [[CallDispatch sample_configure_event];
                   [CallAdd Configure (Some surface_handler_a)]] |}.

(** * The rest of the binding and the example client *)

(** ** BindSessionLockManager (ext_session_lock.go)

    [Registry.Bind] belongs to the [wl] package; it is a parameter here: it
    gets the context, the registry, the name, the interface string, the
    version and the proxy to bind, and answers with the context it leaves
    and the error of the request, if any; the registry is a pointer, [None]
    when nil.  [wl.GetUserData] is taken to give the context the registry
    was created on, which is the context of the process. *)
Section Bind.
Variable Registry_Bind :
  Context -> option ProxyId -> uint32 -> string -> uint32 -> ProxyId ->
  Context * option TransportError.

Definition BindSessionLockManager (ctx : Context) (r : option ProxyId)
    (name version : uint32) :
  Context * ProxyId :=
  let '(ctx1, manager) := NewSessionLockManager ctx in
  let '(ctx2, _) :=
    Registry_Bind ctx1 r name "ext_session_lock_manager_v1"%string version manager in
  (ctx2, manager).
End Bind.

(** ** example/simple_locker/main.go *)

Module simple_locker.

(** The dynamic types of the two structs of the program that are registered
    as listeners. *)
Definition LockClient_type : GoType := LockClient.
Definition LockSurfaceHandler_type : GoType := LockSurfaceHandler.

(** The values [fmt.Errorf] builds in [LockSession] and
    [createLockSurface]. *)
Inductive Error :=
| LockManagerNotInitialized
| RoundtripFailedBeforeLock (err : TransportError)
| FailedToCreateSessionLock (err : TransportError)
| FailedToCreateSurface (err : TransportError)
| FailedToGetLockSurface (err : TransportError).

(** What the program writes to standard output, by format and arguments. *)
Inductive Printed :=
| Printed_FoundCompositor (name : uint32)
| Printed_BoundCompositor (id : ProxyId)
| Printed_FoundLockManager (name : uint32)
| Printed_BoundLockManager (id : ProxyId)
| Printed_FoundOutput (name : uint32)
| Printed_BoundOutput (id : ProxyId)
| Printed_OutputRemoved (name : uint32)
| Printed_AttemptingToLock
| Printed_LockManagerId (id : ProxyId)
| Printed_CreatedLock (id : ProxyId)
| Printed_Warning (err : Error)
| Printed_LockSurfacesCreated
| Printed_SessionLocked
| Printed_LockFinished
| Printed_Configure (serial width height : uint32)
| Printed_WouldCreate (width height : uint32) (r g b : Z).

(** [wl.RegistryGlobalEvent], of which the handler reads three fields. *)
Record RegistryGlobalEvent := {
  Global_Name : uint32;
  Global_Interface : string;
  Global_Version : uint32
}.

(** [wl.RegistryGlobalRemoveEvent], of which the handler reads [Name]. *)
Record RegistryGlobalRemoveEvent := { Name : uint32 }.

(** The struct [LockClient]; a pointer field is [None] when nil, [done] says
    whether the channel has been closed. *)
Record LockClient := {
  display : option ProxyId;
  registry : option ProxyId;
  compositor : option ProxyId;
  lockManager : option ProxyId;
  lock : option ProxyId;
  surfaces : gmap ProxyId ProxyId;
  outputs : gmap Z ProxyId;
  lockedReceived : bool;
  done : bool
}.

(** [NewLockClient]: two empty maps and an open channel. *)
Definition NewLockClient : LockClient :=
  {| display := None; registry := None; compositor := None; lockManager := None;
     lock := None; surfaces := ∅; outputs := ∅; lockedReceived := false; done := false |}.

(** The struct [LockSurfaceHandler]; [client] is the address of the
    client. *)
Record LockSurfaceHandler := {
  client : nat;
  surface : option ProxyId;
  wlSurface : option ProxyId;
  serial : uint32;
  width : uint32;
  height : uint32
}.

(** The process: the wire context, the one [LockClient] that [main]
    allocates, the [LockSurfaceHandler] objects by address, and what has
    been printed. *)
Record Process := {
  wire : Context;
  the_client : LockClient;
  surfaceHandlers : gmap nat LockSurfaceHandler;
  stdout : list Printed
}.

(** The address of the client, and the client and a surface handler as
    interface values. *)
Definition client_address : nat := 0%nat.
Definition client_handler : Handler :=
  {| dyn_type := LockClient_type; dyn_value := client_address |}.
Definition surface_handler (addr : nat) : Handler :=
  {| dyn_type := LockSurfaceHandler_type; dyn_value := addr |}.

(** How a function of the program ends: it returns, or a runtime panic
    stops it in the state reached. *)
Inductive GoResult (A : Type) :=
| Return (a : A) (p : Process)
| GoPanic (p : Process).
#[global] Arguments Return {A} a p.
#[global] Arguments GoPanic {A} p.

Definition print (m : Printed) (p : Process) : Process :=
  {| wire := wire p; the_client := the_client p;
     surfaceHandlers := surfaceHandlers p; stdout := stdout p ++ [m] |}.

Definition with_wire (ctx : Context) (p : Process) : Process :=
  {| wire := ctx; the_client := the_client p;
     surfaceHandlers := surfaceHandlers p; stdout := stdout p |}.

Definition with_client (c : LockClient) (p : Process) : Process :=
  {| wire := wire p; the_client := c;
     surfaceHandlers := surfaceHandlers p; stdout := stdout p |}.

Definition with_surfaceHandlers (hs : gmap nat LockSurfaceHandler) (p : Process) : Process :=
  {| wire := wire p; the_client := the_client p; surfaceHandlers := hs; stdout := stdout p |}.

(** [HandleRegistryGlobalRemove]. *)
Definition LockClient_HandleRegistryGlobalRemove (p : Process) (ev : RegistryGlobalRemoveEvent) :
  GoResult unit :=
  let c := the_client p in
  match outputs c !! Name ev with
  | Some output =>
      let p1 := print (Printed_OutputRemoved (Name ev)) p in
      let '(ctx, surfaces') :=
        match surfaces c !! output with
        | Some lockSurface =>
            ((SessionLockSurface_Destroy (wire p1) lockSurface).1,
             delete output (surfaces c))
        | None => (wire p1, surfaces c)
        end in
      Return tt
        (with_client
           {| display := display c; registry := registry c; compositor := compositor c;
              lockManager := lockManager c; lock := lock c;
              surfaces := surfaces';
              outputs := delete (Name ev) (outputs c);
              lockedReceived := lockedReceived c; done := done c |}
           (with_wire ctx p1))
  | None => Return tt p
  end.

(** [HandleSessionLockLocked]. *)
Definition LockClient_HandleSessionLockLocked (p : Process) (ev : SessionLockLockedEvent) :
  GoResult unit :=
  let p1 := print Printed_SessionLocked p in
  let c := the_client p1 in
  Return tt
    (with_client
       {| display := display c; registry := registry c; compositor := compositor c;
          lockManager := lockManager c; lock := lock c; surfaces := surfaces c;
          outputs := outputs c; lockedReceived := true; done := done c |} p1).

(** [HandleSessionLockFinished]: [c.lock] nil is a nil dereference, and
    closing a closed channel panics. *)
Definition LockClient_HandleSessionLockFinished (p : Process) (ev : SessionLockFinishedEvent) :
  GoResult unit :=
  let p1 := print Printed_LockFinished p in
  let c := the_client p1 in
  match lock c with
  | None => GoPanic p1
  | Some l =>
      let ctx :=
        if lockedReceived c then (SessionLock_UnlockAndDestroy (wire p1) l).1
        else (SessionLock_Destroy (wire p1) l).1 in
      let p2 := with_wire ctx p1 in
      if done c then GoPanic p2
      else
        Return tt
          (with_client
             {| display := display c; registry := registry c; compositor := compositor c;
                lockManager := lockManager c; lock := lock c; surfaces := surfaces c;
                outputs := outputs c; lockedReceived := lockedReceived c; done := true |}
             p2)
  end.

(** [createSolidColorBuffer]. *)
Definition createSolidColorBuffer (p : Process) (surface : option ProxyId)
    (width height : uint32) (r g b : Z) : Process :=
  print (Printed_WouldCreate width height r g b) p.

(** [LockSurfaceHandler.HandleSessionLockSurfaceConfigure], on the handler at
    address [h]. *)
Definition LockSurfaceHandler_HandleSessionLockSurfaceConfigure (p : Process) (h : nat)
    (ev : SessionLockSurfaceConfigureEvent) : GoResult unit :=
  match surfaceHandlers p !! h with
  | None => GoPanic p
  | Some old =>
      let p1 := print (Printed_Configure (Serial ev) (Width ev) (Height ev)) p in
      let new :=
        {| client := client old; surface := surface old; wlSurface := wlSurface old;
           serial := Serial ev; width := Width ev; height := Height ev |} in
      let p2 := with_surfaceHandlers (<[h := new]> (surfaceHandlers p1)) p1 in
      match surface new with
      | None => GoPanic p2
      | Some s =>
          let p3 :=
            with_wire (SessionLockSurface_AckConfigure (wire p2) s (Serial ev)).1 p2 in
          Return tt (createSolidColorBuffer p3 (wlSurface new) (width new) (height new) 64 0 0)
      end
  end.

(** [createLockSurface].  [Compositor.CreateSurface] belongs to the [wl]
    package and is a parameter: from the context and the compositor it gives
    the context it leaves, the new surface and the error, if any.  A method
    called through a nil [c.compositor] or [c.lock] is a nil dereference. *)
Section WithCompositor.
Variable Compositor_CreateSurface :
  Context -> ProxyId -> Context * (ProxyId * option TransportError).

Definition LockClient_createLockSurface (p : Process) (output : ProxyId) : GoResult (option Error) :=
  let c := the_client p in
  match compositor c with
  | None => GoPanic p
  | Some comp =>
      let '(ctx1, (surface, err)) := Compositor_CreateSurface (wire p) comp in
      let p1 := with_wire ctx1 p in
      match err with
      | Some e => Return (Some (FailedToCreateSurface e)) p1
      | None =>
          match lock c with
          | None => GoPanic p1
          | Some l =>
              let '(ctx2, (lockSurface, err)) :=
                SessionLock_GetLockSurface ctx1 l surface output in
              let p2 := with_wire ctx2 p1 in
              match err with
              | Some e => Return (Some (FailedToGetLockSurface e)) p2
              | None =>
                  let addr := fresh (dom (surfaceHandlers p2)) in
                  let handler :=
                    {| client := client_address; surface := Some lockSurface;
                       wlSurface := Some surface; serial := 0; width := 0; height := 0 |} in
                  let p3 := with_surfaceHandlers (<[addr := handler]> (surfaceHandlers p2)) p2 in
                  match SessionLockSurface_call (wire p3) lockSurface
                          (SessionLockSurfaceAddListener (Some (surface_handler addr))) with
                  | (ctx3, Some (_, Returned _ _)) =>
                      let p4 := with_wire ctx3 p3 in
                      let c4 := the_client p4 in
                      Return None
                        (with_client
                           {| display := display c4; registry := registry c4;
                              compositor := compositor c4; lockManager := lockManager c4;
                              lock := lock c4;
                              surfaces := <[output := lockSurface]> (surfaces c4);
                              outputs := outputs c4;
                              lockedReceived := lockedReceived c4; done := done c4 |} p4)
                  | _ => GoPanic p3
                  end
              end
          end
      end
  end.

(** The loop of [LockSession] over the outputs, in the order [os]: a failure
    is printed as a warning and the loop goes on. *)
Fixpoint createLockSurfaces (os : list ProxyId) (p : Process) : GoResult unit :=
  match os with
  | [] => Return tt p
  | output :: os' =>
      match LockClient_createLockSurface p output with
      | Return None p' => createLockSurfaces os' p'
      | Return (Some err) p' => createLockSurfaces os' (print (Printed_Warning err) p')
      | GoPanic p' => GoPanic p'
      end
  end.

(** [LockSession].  [wlclient.DisplayRoundtrip] is a parameter: it runs the
    event loop, in which any handler of the process may be called, and
    answers with the process it leaves and its error, if any.  The order in
    which [range] visits the values of the map [c.outputs] is a parameter as
    well.  [Lock] returns a pointer that is not nil, so the branch that
    prints that no lock was created is never taken. *)
Variable DisplayRoundtrip : Process -> GoResult (option TransportError).
Variable range_outputs : gmap Z ProxyId -> list ProxyId.

Definition LockClient_LockSession (p : Process) : GoResult (option Error) :=
  let p0 := print Printed_AttemptingToLock p in
  match lockManager (the_client p0) with
  | None => Return (Some LockManagerNotInitialized) p0
  | Some m =>
      match DisplayRoundtrip (print (Printed_LockManagerId m) p0) with
      | GoPanic p' => GoPanic p'
      | Return (Some e) p1 => Return (Some (RoundtripFailedBeforeLock e)) p1
      | Return None p1 =>
          match lockManager (the_client p1) with
          | None => GoPanic p1
          | Some m1 =>
              let '(ctx, (l, err)) := SessionLockManager_Lock (wire p1) m1 in
              let c := the_client p1 in
              let p2 :=
                with_client
                  {| display := display c; registry := registry c;
                     compositor := compositor c; lockManager := lockManager c;
                     lock := Some l; surfaces := surfaces c; outputs := outputs c;
                     lockedReceived := lockedReceived c; done := done c |}
                  (with_wire ctx p1) in
              match err with
              | Some e => Return (Some (FailedToCreateSessionLock e)) p2
              | None =>
                  let p3 := print (Printed_CreatedLock l) p2 in
                  match SessionLock_call (wire p3) l
                          (SessionLockAddListener (Some client_handler)) with
                  | (ctx', Some (_, Returned _ _)) =>
                      let p4 := with_wire ctx' p3 in
                      match createLockSurfaces (range_outputs (outputs (the_client p4))) p4 with
                      | Return _ p5 => Return None (print Printed_LockSurfacesCreated p5)
                      | GoPanic p' => GoPanic p'
                      end
                  | _ => GoPanic p3
                  end
              end
          end
      end
  end.
End WithCompositor.

(** [HandleRegistryGlobal].  The two binders of [wlclient] are parameters:
    from the context, the registry, the name and the version they give the
    context they leave and the proxy they bound.  The [Id] of a nil proxy is
    a nil dereference. *)
Section WithRegistry.
Variable RegistryBindCompositorInterface :
  Context -> option ProxyId -> uint32 -> uint32 -> Context * option ProxyId.
Variable RegistryBindOutputInterface :
  Context -> option ProxyId -> uint32 -> uint32 -> Context * option ProxyId.
Variable Registry_Bind :
  Context -> option ProxyId -> uint32 -> string -> uint32 -> ProxyId ->
  Context * option TransportError.

Definition LockClient_HandleRegistryGlobal (p : Process) (ev : RegistryGlobalEvent) :
  GoResult unit :=
  let c := the_client p in
  if decide (Global_Interface ev = "wl_compositor"%string) then
    let p1 := print (Printed_FoundCompositor (Global_Name ev)) p in
    let '(ctx, comp) :=
      RegistryBindCompositorInterface (wire p1) (registry c) (Global_Name ev) 4 in
    let p2 :=
      with_client
        {| display := display c; registry := registry c; compositor := comp;
           lockManager := lockManager c; lock := lock c; surfaces := surfaces c;
           outputs := outputs c; lockedReceived := lockedReceived c; done := done c |}
        (with_wire ctx p1) in
    match comp with
    | Some id => Return tt (print (Printed_BoundCompositor id) p2)
    | None => GoPanic p2
    end
  else if decide (Global_Interface ev = "ext_session_lock_manager_v1"%string
                  /\ 1 <= Global_Version ev) then
    let p1 := print (Printed_FoundLockManager (Global_Name ev)) p in
    let '(ctx, manager) :=
      BindSessionLockManager Registry_Bind (wire p1) (registry c) (Global_Name ev) 1 in
    Return tt
      (print (Printed_BoundLockManager manager)
         (with_client
            {| display := display c; registry := registry c; compositor := compositor c;
               lockManager := Some manager; lock := lock c; surfaces := surfaces c;
               outputs := outputs c; lockedReceived := lockedReceived c; done := done c |}
            (with_wire ctx p1)))
  else if decide (Global_Interface ev = "wl_output"%string) then
    let p1 := print (Printed_FoundOutput (Global_Name ev)) p in
    let '(ctx, output) :=
      RegistryBindOutputInterface (wire p1) (registry c) (Global_Name ev) 3 in
    match output with
    | Some o =>
        Return tt
          (with_client
             {| display := display c; registry := registry c; compositor := compositor c;
                lockManager := lockManager c; lock := lock c; surfaces := surfaces c;
                outputs := <[Global_Name ev := o]> (outputs c);
                lockedReceived := lockedReceived c; done := done c |}
             (print (Printed_BoundOutput o) (with_wire ctx p1)))
    | None => GoPanic (with_wire ctx p1)
    end
  else Return tt p.
End WithRegistry.

(** A call of a listener method of the program, by the dynamic type and the
    address of its receiver.  A receiver that is no object of the process is
    outside the program; it ends the call as a panic does. *)
Definition invoke (call : HandlerCall) (p : Process) : GoResult unit :=
  match call with
  | HandleSessionLockLocked h ev =>
      if decide (h = client_handler) then LockClient_HandleSessionLockLocked p ev
      else GoPanic p
  | HandleSessionLockFinished h ev =>
      if decide (h = client_handler) then LockClient_HandleSessionLockFinished p ev
      else GoPanic p
  | HandleSessionLockSurfaceConfigure h ev =>
      if decide (dyn_type h = LockSurfaceHandler_type)
      then LockSurfaceHandler_HandleSessionLockSurfaceConfigure p (dyn_value h) ev
      else GoPanic p
  end.

(** The calls of one fan-out, in order; a panic ends them. *)
Fixpoint invoke_all (cs : list HandlerCall) (p : Process) : GoResult unit :=
  match cs with
  | [] => Return tt p
  | c :: cs' =>
      match invoke c p with
      | Return _ p' => invoke_all cs' p'
      | GoPanic p' => GoPanic p'
      end
  end.

(** Modelled from the spec: what the event loop ([wlclient.DisplayDispatch],
    outside this repository) does with one inbound event: the context routes
    it to the [Dispatch] of its target, and the listener calls of that
    [Dispatch] run in its order.  No listener method of this program adds or
    removes a listener, so the calls are run on the process after the
    fan-out has been laid out.  A [Dispatch] that does not return (a payload
    that is too short, a mutex that is held) ends the loop as a panic
    does. *)
Definition dispatch_event (p : Process) (event : Event) : GoResult unit :=
  match deliver (wire p) event with
  | ToManager _ (tr, Returned _ _) => invoke_all (calls tr) p
  | ToLock _ (tr, Returned _ _) => invoke_all (calls tr) p
  | ToSurface _ (tr, Returned _ _) => invoke_all (calls tr) p
  | ToOther | Unrouted => Return tt p
  | _ => GoPanic p
  end.
End simple_locker.

(** ** Vocabulary for the further properties *)

(** The goroutines that make the given sequences of calls on one lock, or on
    one lock surface, before any of them has started. *)
Definition SessionLock_pool (l : SessionLock) (callers : list (list (Call LockSlot))) :
  Pool SessionLock LockSlot :=
  {| shared := l; threads := map (fun cs => start (SessionLock_calls cs)) callers |}.

Definition SessionLockSurface_pool (sf : SessionLockSurface)
    (callers : list (list (Call SurfaceSlot))) : Pool SessionLockSurface SurfaceSlot :=
  {| shared := sf; threads := map (fun cs => start (SessionLockSurface_calls cs)) callers |}.

(** The next operation of a goroutine is [mu.Lock], or [mu.RLock]. *)
Definition wants_write_lock {Slot} (th : Thread Slot) : Prop :=
  match code th with
  | Do MuLock _ => True
  | _ => False
  end.

Definition wants_read_lock {Slot} (th : Thread Slot) : Prop :=
  match code th with
  | Do MuRLock _ => True
  | _ => False
  end.

(** The goroutine is inside a critical section of a method body: its next
    operation reads or assigns a slice, calls a listener, or releases the
    mutex. *)
Definition in_critical_section {Slot} (th : Thread Slot) : Prop :=
  match code th with
  | Do (Index _ _) _ | Do (Load _) _ | Do (Store _ _) _ | Do (Invoke _) _
  | Do MuRUnlock _ | Do MuUnlock _ => True
  | _ => False
  end.

(** Every goroutine of the pool has returned from its last call. *)
Definition all_returned {T Slot} `{Object T Slot} (P : Pool T Slot) : Prop :=
  Forall (fun th => thread_step th (shared P) = Exited) (threads P).

(** A registry whose [Bind] hands the bind request (opcode 0 of
    [wl_registry]) with the name, the version and the new proxy to the
    transport. *)
Definition sample_Registry_Bind (ctx : Context) (r : option ProxyId) (name : uint32)
    (iface_name : string) (version : uint32) (p : ProxyId) :
  Context * option TransportError :=
  SendRequest ctx (default 0%nat r) 0 [ArgUint32 name; ArgUint32 version; ArgProxy p].

(** The requests handed to the transport so far, oldest first. *)
Definition requests (ctx : Context) : list Request := (submitted ctx).*1.

(** The lock [l] of the process has the client, and nobody else, as listener
    for both of its events, as [SessionLockAddListener(c.lock, c)] leaves
    it. *)
Definition client_listens (p : simple_locker.Process) (l : ProxyId) : Prop :=
  exists lk,
    objects (simple_locker.wire p) !! l = Some (ProxyLock lk)
    /\ quiescent lk
    /\ privateSessionLockLocked lk = [simple_locker.client_handler]
    /\ privateSessionLockFinished lk = [simple_locker.client_handler].

(** The lock surface [ls] of the process has the handler object at [addr],
    and nobody else, as "configure" listener, and the handler object refers
    to [ls], as [createLockSurface] leaves them. *)
Definition handler_listens (p : simple_locker.Process) (ls : ProxyId) (addr : nat) : Prop :=
  exists s hd,
    objects (simple_locker.wire p) !! ls = Some (ProxySurface s)
    /\ quiescent s
    /\ privateSessionLockSurfaceConfigure s = [simple_locker.surface_handler addr]
    /\ simple_locker.surfaceHandlers p !! addr = Some hd
    /\ simple_locker.surface hd = Some ls.

(** A process that has taken the lock 1 from the manager 0 of the sample
    context and has registered its client with it. *)
Definition sample_client : simple_locker.LockClient :=
  {| simple_locker.display := None; simple_locker.registry := None;
     simple_locker.compositor := Some 20%nat; simple_locker.lockManager := Some 0%nat;
     simple_locker.lock := Some 1%nat;
     simple_locker.surfaces := ∅; simple_locker.outputs := {[ 30 := 31%nat ]};
     simple_locker.lockedReceived := false; simple_locker.done := false |}.

Definition sample_process : simple_locker.Process :=
  {| simple_locker.wire :=
       (SessionLock_call (SessionLockManager_Lock sample_context 0%nat).1 1%nat
          (SessionLockAddListener (Some simple_locker.client_handler))).1;
     simple_locker.the_client := sample_client;
     simple_locker.surfaceHandlers := ∅;
     simple_locker.stdout := [] |}.

Definition sample_finished_event_1 : Event :=
  {| Pid := 1%nat; Opcode := LockEventFinished; Data := [] |}.

(** A compositor whose [CreateSurface] registers a proxy for the new surface
    and hands the request (opcode 0 of [wl_compositor]) to the transport. *)
Definition sample_CreateSurface (ctx : Context) (comp : ProxyId) :
  Context * (ProxyId * option TransportError) :=
  let '(ctx1, surface) := Register ctx (ProxyOther new_BaseProxy) in
  let '(ctx2, err) := SendRequest ctx1 comp 0 [ArgProxy surface] in
  (ctx2, (surface, err)).

(** The client has a lock surface for the output [o], and the handler of
    that lock surface listens to it. *)
Definition surface_ready (p : simple_locker.Process) (o : ProxyId) : Prop :=
  exists ls addr,
    simple_locker.surfaces (simple_locker.the_client p) !! o = Some ls
    /\ handler_listens p ls addr.

(** [CreateSurface] on the compositor [comp], as long as the transport
    accepts every request: it reports no error, leaves the transport that
    way, and leaves every registered proxy as it is. *)
Definition CreateSurface_succeeds
    (CreateSurface : Context -> ProxyId -> Context * (ProxyId * option TransportError))
    (comp : ProxyId) : Prop :=
  forall ctx, faults ctx = [] ->
    (CreateSurface ctx comp).2.2 = None
    /\ faults (CreateSurface ctx comp).1 = []
    /\ objects ctx ⊆ objects (CreateSurface ctx comp).1.

(** A round trip in which no event arrives, and a [range] that visits the
    values of the map by ascending key. *)
Definition sample_DisplayRoundtrip (p : simple_locker.Process) :
  simple_locker.GoResult (option TransportError) := simple_locker.Return None p.

Definition sample_range_outputs (m : gmap Z ProxyId) : list ProxyId := (map_to_list m).*2.

(** The process after [Connect]: the manager 0 of the sample context, a
    compositor and one output. *)
Definition sample_connected : simple_locker.Process :=
  {| simple_locker.wire := sample_context;
     simple_locker.the_client :=
       {| simple_locker.display := None; simple_locker.registry := None;
          simple_locker.compositor := Some 20%nat; simple_locker.lockManager := Some 0%nat;
          simple_locker.lock := None;
          simple_locker.surfaces := ∅; simple_locker.outputs := {[ 30 := 31%nat ]};
          simple_locker.lockedReceived := false; simple_locker.done := false |};
     simple_locker.surfaceHandlers := ∅;
     simple_locker.stdout := [] |}.

(** The sample process after it has created the lock surface 3 for its
    output 31. *)
Definition sample_process_with_surface : simple_locker.Process :=
  match simple_locker.LockClient_createLockSurface sample_CreateSurface
          sample_process 31%nat with
  | simple_locker.Return _ p' => p'
  | simple_locker.GoPanic p' => p'
  end.

(** What the loop of [LockSession] keeps true: the client has its
    compositor [comp] and its lock [l], to which it listens, and the
    transport accepts every request. *)
Definition session_inv (comp l : ProxyId) (q : simple_locker.Process) : Prop :=
  simple_locker.compositor (simple_locker.the_client q) = Some comp
  /\ simple_locker.lock (simple_locker.the_client q) = Some l
  /\ faults (simple_locker.wire q) = []
  /\ client_listens q l.

(** ** Vocabulary for the order in which concurrent calls take effect *)

(** [xs] is an interleaving of the sequences [ls]: it consists of the
    elements of all of them, those of each sequence in their order. *)
Inductive interleaving {A : Type} : list (list A) -> list A -> Prop :=
| interleaving_nil ls : Forall (fun l => l = []) ls -> interleaving ls []
| interleaving_cons ls i x rest xs :
    ls !! i = Some (x :: rest) ->
    interleaving (<[i := rest]> ls) xs ->
    interleaving ls (x :: xs).

(** A piece of a call that assigns no slice, from the point where the
    goroutine holds the lock [h] to its end, which it reaches holding
    [final]: length tests, event values, the read lock, reads of elements
    and listener calls under it. *)
Inductive reader_only {Slot A : Type} (final : Hold) : Hold -> Prog Slot A -> Prop :=
| ro_Ret a : reader_only final final (Ret a)
| ro_Len_free s k :
    (forall n, reader_only final HoldsNone (k n)) ->
    reader_only final HoldsNone (Do (Len s) k)
| ro_New kd k :
    reader_only final HoldsNone (k tt) -> reader_only final HoldsNone (Do (New kd) k)
| ro_RLock k :
    reader_only final HoldsRead (k tt) -> reader_only final HoldsNone (Do MuRLock k)
| ro_Len_held s k :
    (forall n, reader_only final HoldsRead (k n)) ->
    reader_only final HoldsRead (Do (Len s) k)
| ro_Index s i k :
    (forall e, reader_only final HoldsRead (k e)) ->
    reader_only final HoldsRead (Do (Index s i) k)
| ro_Invoke c k :
    reader_only final HoldsRead (k tt) -> reader_only final HoldsRead (Do (Invoke c) k)
| ro_RUnlock k :
    reader_only final HoldsNone (k tt) -> reader_only final HoldsRead (Do MuRUnlock k).

(** What is left of an add or a remove after it has taken the write lock:
    reads and assignments of slices, then the release of the lock, with
    which the call returns. *)
Inductive write_section {Slot : Type} : Prog Slot unit -> Prop :=
| ws_Unlock k : k tt = Ret tt -> write_section (Do MuUnlock k)
| ws_Len s k : (forall n, write_section (k n)) -> write_section (Do (Len s) k)
| ws_Index s i k : (forall e, write_section (k e)) -> write_section (Do (Index s i) k)
| ws_Load s k : (forall v, write_section (k v)) -> write_section (Do (Load s) k)
| ws_Store s v k : write_section (k tt) -> write_section (Do (Store s v) k).

Section Linearization.
Context {T Slot : Type} `{Object T Slot}.

(** A call that assigns no slice: called alone on a receiver nobody holds
    the mutex of, it returns and leaves the receiver as it was. *)
Definition reading_call (p : Prog Slot unit) : Prop :=
  reader_only HoldsNone HoldsNone p
  /\ forall t : T, quiescent t -> (run p t).2 = Returned tt t.

(** A call that works under the write lock: called alone on a receiver
    nobody holds the mutex of, it returns and leaves the mutex free. *)
Definition writing_call (p : Prog Slot unit) : Prop :=
  (exists k, p = Do MuLock k /\ write_section (k tt))
  /\ forall t : T, quiescent t -> exists t', (run p t).2 = Returned tt t' /\ quiescent t'.

(** The calls of a caller are of these two kinds. *)
Definition good_call (dispatch : Event -> Prog Slot Event) (c : Call Slot) : Prop :=
  reading_call (call_prog dispatch c) \/ writing_call (call_prog dispatch c).

(** Where a goroutine is with the calls [todo] it has not started: in a call
    that assigns no slice (or between two calls), or under the write lock in
    a call whose effect, run to its end from the receiver as it is now, is
    the receiver [t_log]. *)
Definition tracked (dispatch : Event -> Prog Slot Event) (t t_log : T)
    (th : Thread Slot) (todo : list (Call Slot)) : Prop :=
  exists cur,
    code th = cur ≫= (fun _ => sequence dispatch todo)
    /\ match holds th with
       | HoldsWrite => write_section cur /\ (run cur t).2 = Returned tt t_log
       | h => reader_only HoldsNone h cur
       end.

(** What one operation of a goroutine does to the receiver, from [t] to
    [t'], to the receiver [t_log] the calls that have taken effect give, and
    to the lock the goroutine holds: an operation outside the write lock
    that leaves the receiver alone; the taking or the release of the read
    lock; the taking of the write lock, with which an add or a remove takes
    effect; an operation under the write lock; the release of the write
    lock, which leaves the receiver as the calls that have taken effect
    give it. *)
Definition step_kind (t t' t_log t_log' : T) (h h' : Hold) : Prop :=
  (t' = t /\ t_log' = t_log /\ h' = h /\ h <> HoldsWrite)
  \/ (writer (obj_mu t) = false /\ t_log' = t_log /\ h <> HoldsWrite /\ h' <> HoldsWrite
      /\ obj_set_mu mu_zero t' = obj_set_mu mu_zero t)
  \/ (writer (obj_mu t) = false /\ h = HoldsNone /\ h' = HoldsWrite)
  \/ (h = HoldsWrite /\ h' = HoldsWrite /\ t_log' = t_log)
  \/ (h = HoldsWrite /\ h' = HoldsNone /\ t_log' = t_log /\ t' = t_log).

(** The calls that have taken effect so far, in the order [log] in which
    they did, account for the slices of the receiver: [log] followed by any
    interleaving of the calls not started is an interleaving of the calls
    of the callers, the calls of [log] made one after the other from the
    first receiver [t0] give [t_log], and the receiver of the pool is
    [t_log], up to the mutex, whenever nobody holds the write lock. *)
Definition linearized (dispatch : Event -> Prog Slot Event) (t0 : T)
    (callers : list (list (Call Slot))) (P : Pool T Slot) : Prop :=
  exists (log : list (Call Slot)) (todos : list (list (Call Slot))) (t_log : T),
    (forall rest, interleaving todos rest -> interleaving callers (log ++ rest))
    /\ (run (sequence dispatch log) t0).2 = Returned tt t_log
    /\ quiescent t_log
    /\ Forall2 (tracked dispatch (shared P) t_log) (threads P) todos
    /\ Forall (Forall (good_call dispatch)) todos
    /\ (holders HoldsWrite (threads P) = 0%nat -> obj_set_mu mu_zero (shared P) = t_log).
End Linearization.

(** The sample pools run to the end: the dispatching goroutine is stopped
    in its fan-out while the other one asks for the write lock, then both
    run on until they have returned. *)
Definition sample_pool_finished : Pool SessionLock LockSlot :=
  pool_run sample_pool_in_fan_out (replicate 20 0%nat ++ replicate 20 1%nat).

Definition sample_surface_pool_finished : Pool SessionLockSurface SurfaceSlot :=
  pool_run sample_surface_pool (replicate 20 1%nat ++ replicate 20 0%nat).
(** * Properties *)

(** ** Field-update laws of the two proxy types with listeners *)

#[global] Instance SessionLock_ObjectLaws : ObjectLaws SessionLock LockSlot.
Proof.
  split; intros; by repeat match goal with
                     | x : SessionLock |- _ => destruct x
                     | x : LockSlot |- _ => destruct x
                     end.
Qed.

#[global] Instance SessionLockSurface_ObjectLaws : ObjectLaws SessionLockSurface SurfaceSlot.
Proof.
  split; intros; by repeat match goal with
                     | x : SessionLockSurface |- _ => destruct x
                     | x : SurfaceSlot |- _ => destruct x
                     end.
Qed.

(** ** Lists *)

Lemma remove_first_no_match h l :
  (forall e, e ∈ l -> iface_eq e h = false) -> remove_first h l = l.
Proof.
  induction l as [|e l IH]; intros Hno; [done|]. cbn.
  rewrite (Hno e) by left. f_equal. apply IH. intros e' He'. apply Hno. by right.
Qed.

Lemma remove_first_first_match h pre e post :
  (forall e', e' ∈ pre -> iface_eq e' h = false) -> iface_eq e h = true ->
  remove_first h (pre ++ e :: post) = pre ++ post.
Proof.
  intros Hpre He. induction pre as [|p pre IH]; cbn.
  - by rewrite He.
  - rewrite (Hpre p) by left. f_equal. apply IH. intros e' He'. apply Hpre. by right.
Qed.

Lemma calls_app {Slot} (tr1 tr2 : list (Effect Slot)) :
  calls (tr1 ++ tr2) = calls tr1 ++ calls tr2.
Proof. apply omap_app. Qed.

Lemma calls_range_trace {Slot} (s : Slot) call l i :
  calls (range_trace s call l i) = map call l.
Proof.
  unfold calls. revert i. induction l as [|h l IH]; intros i; [done|].
  cbn. by rewrite IH.
Qed.

(** ** Sequential runs *)

Section RunLemmas.
Context {T Slot : Type} `{ObjectLaws T Slot}.

Lemma run_bind {A B} (p : Prog Slot A) (f : A -> Prog Slot B) (t : T) :
  run (p ≫= f) t = then_run (run p t) (fun a t' => run (f a) t').
Proof.
  revert t. induction p as [a| |R a k IH]; intros t.
  - cbn. unfold then_run. cbn. by destruct (run (f a) t).
  - done.
  - change (run (Do a k ≫= f) t)
      with (match perform a t with
            | Yields r t' => after (effect_of a r) (run (k r ≫= f) t')
            | WouldBlock => ([], Deadlocked)
            | Fatal => ([], Panicked)
            end).
    cbn [run]. destruct (perform a t) as [r t'| |]; try done.
    rewrite IH. unfold then_run, after. cbn.
    by destruct (run (k r) t').2.
Qed.

Lemma quiescent_set_slot s v (t : T) : quiescent t -> quiescent (obj_set_slot s v t).
Proof. unfold quiescent. by rewrite obj_mu_set_slot. Qed.

Lemma perform_Lock (t : T) :
  quiescent t -> perform MuLock t = Yields tt (obj_set_mu mu_writer t).
Proof. intros Hq. cbn. by rewrite Hq. Qed.

Lemma perform_Unlock (t : T) :
  obj_mu t = mu_writer -> perform MuUnlock t = Yields tt (obj_set_mu mu_zero t).
Proof. intros Hq. cbn. by rewrite Hq. Qed.

Lemma locked_round_trip (t' : T) :
  quiescent t' -> obj_set_mu mu_zero (obj_set_mu mu_writer t') = t'.
Proof. intros Hq. by rewrite obj_set_mu_set_mu, <- Hq, obj_set_mu_id. Qed.

Lemma perform_Len s (t : T) : perform (Len s) t = Yields (length (obj_slot s t)) t.
Proof. done. Qed.

Lemma perform_Load s (t : T) : perform (Load s) t = Yields (obj_slot s t) t.
Proof. done. Qed.

Lemma perform_Store s v (t : T) : perform (Store s v) t = Yields tt (obj_set_slot s v t).
Proof. done. Qed.

Lemma perform_Index s i h (t : T) :
  obj_slot s t !! i = Some h -> perform (Index s i) t = Yields h t.
Proof. intros Hi. cbn. by rewrite Hi. Qed.

Lemma run_range_call s call l n i (t : T) :
  obj_slot s t = l -> (i + n = length l)%nat ->
  run (range_call s call n i) t = (range_trace s call (drop i l) i, Returned tt t).
Proof.
  intros Hl. revert i. induction n as [|n IH]; intros i Hn.
  - rewrite drop_ge; [done|lia].
  - destruct (lookup_lt_is_Some_2 l i) as [h Hh]; [lia|].
    rewrite (drop_S _ _ _ Hh). cbn. rewrite Hl, Hh. cbn.
    rewrite IH by lia. done.
Qed.

(** A fan-out on a receiver no writer holds: it takes the read lock, calls
    every listener of the slice in order, and releases the read lock. *)
Lemma run_fan_out s call (t : T) :
  writer (obj_mu t) = false ->
  run (fan_out s call) t =
    ([ERLock; ELen s (length (obj_slot s t))]
       ++ range_trace s call (obj_slot s t) 0 ++ [ERUnlock],
     Returned tt t).
Proof.
  intros Hw. unfold fan_out.
  cbn. unfold RWMutex_RLock. rewrite Hw. cbn.
  rewrite run_bind, !obj_slot_set_mu.
  rewrite (run_range_call s call (obj_slot s t)); [|by rewrite obj_slot_set_mu|lia].
  unfold then_run, after. cbn. rewrite obj_mu_set_mu. cbn.
  rewrite obj_set_mu_set_mu.
  replace {| readers := readers (obj_mu t); writer := false |} with (obj_mu t)
    by (destruct (obj_mu t); cbn in *; congruence).
  by rewrite obj_set_mu_id.
Qed.

#[local] Arguments perform : simpl never.

Lemma run_AddHandler_Some s h (t : T) :
  quiescent t ->
  run (AddHandler s (Some h)) t =
    ([ELock; ELoad s (obj_slot s t); EStore s (obj_slot s t ++ [h]); EUnlock],
     Returned tt (obj_set_slot s (obj_slot s t ++ [h]) t)).
Proof.
  intros Hq. unfold AddHandler. cbn.
  rewrite (perform_Lock t Hq), perform_Load. cbn.
  rewrite perform_Store, !obj_slot_set_mu, perform_Unlock
    by (by rewrite obj_mu_set_slot, obj_mu_set_mu).
  cbn. rewrite obj_set_slot_set_mu, locked_round_trip; [done|].
  by apply quiescent_set_slot.
Qed.

Lemma run_AddHandler_None s (t : T) :
  run (AddHandler s None) t = ([], Returned tt t).
Proof. done. Qed.

Lemma run_remove_loop s h l n i (t : T) :
  obj_slot s t = l -> (i + n = length l)%nat ->
  (run (remove_loop s h n i) t).2
    = Returned tt (obj_set_slot s (take i l ++ remove_first h (drop i l)) t)
  /\ calls (run (remove_loop s h n i) t).1 = [].
Proof.
  intros Hl. revert i. induction n as [|n IH]; intros i Hn.
  - rewrite drop_ge, take_ge, app_nil_r by lia. cbn.
    by rewrite <- Hl, obj_set_slot_id.
  - destruct (lookup_lt_is_Some_2 l i) as [e He]; [lia|].
    rewrite (drop_S _ _ _ He). cbn.
    rewrite (perform_Index s i e) by (by rewrite Hl). cbn.
    destruct (iface_eq e h) eqn:Heq.
    + cbn. rewrite perform_Load. cbn. rewrite perform_Load. cbn.
      rewrite perform_Store. cbn. by rewrite Hl.
    + destruct (IH (S i)) as [IH1 IH2]; [lia|].
      unfold after. cbn. rewrite IH1. split; [|done].
      rewrite (take_S_r _ _ _ He), <- app_assoc. done.
Qed.

(** [Remove*Handler] on a quiescent receiver returns, and leaves the slice
    without the first element equal to its argument. *)
Lemma run_RemoveHandler s h (t : T) :
  quiescent t ->
  (run (RemoveHandler s h) t).2
    = Returned tt (obj_set_slot s (remove_first h (obj_slot s t)) t)
  /\ calls (run (RemoveHandler s h) t).1 = [].
Proof.
  intros Hq. unfold RemoveHandler. cbn.
  rewrite (perform_Lock t Hq), perform_Len. cbn.
  rewrite run_bind, !obj_slot_set_mu.
  set (t1 := obj_set_mu _ t).
  destruct (run_remove_loop s h (obj_slot s t) (length (obj_slot s t)) 0 t1)
    as [R1 R2]; [by unfold t1; rewrite obj_slot_set_mu|lia|].
  unfold then_run, after. cbn. rewrite R1. cbn.
  rewrite perform_Unlock by (by unfold t1; rewrite obj_mu_set_slot, obj_mu_set_mu).
  cbn. unfold t1. rewrite obj_set_slot_set_mu, locked_round_trip
    by (by apply quiescent_set_slot).
  split; [done|].
  unfold calls, t1 in *. by rewrite omap_app, R2.
Qed.
End RunLemmas.

(** ** Removal *)

Lemma remove_first_spec h l : first_match_removed h l (remove_first h l).
Proof.
  split.
  - intros pre e post -> -> Hpre. apply remove_first_first_match.
    + intros e' He'. apply bool_decide_eq_false. intros Heq. by eapply Hpre.
    + by apply bool_decide_eq_true.
  - intros Hno. apply remove_first_no_match.
    intros e He. apply bool_decide_eq_false. intros Heq. by eapply Hno.
Qed.

(** C8 (removal takes out the first identical entry only).  On a proxy
    nobody holds the mutex of, each of [RemoveLockedHandler],
    [RemoveFinishedHandler] and [RemoveConfigureHandler] returns, calls no
    listener, and leaves its slice as it was with the first element identical
    to the argument taken out (all other elements in their order), or
    untouched when no element is identical to the argument; the other fields
    of the proxy are as before, and with no identical element the proxy as a
    whole is as before. *)
Theorem RemoveHandler_removes_first_match_only
    (l : SessionLock) (s : SessionLockSurface) (h : iface) :
  quiescent l -> quiescent s ->
  (exists l',
      (run (SessionLock_RemoveLockedHandler h) l).2 = Returned tt l'
      /\ calls (run (SessionLock_RemoveLockedHandler h) l).1 = []
      /\ first_match_removed h (privateSessionLockLocked l) (privateSessionLockLocked l')
      /\ privateSessionLockFinished l' = privateSessionLockFinished l
      /\ lock_BaseProxy l' = lock_BaseProxy l /\ lock_mu l' = lock_mu l
      /\ ((forall e, e ∈ privateSessionLockLocked l -> h <> Some e) -> l' = l))
  /\ (exists l',
      (run (SessionLock_RemoveFinishedHandler h) l).2 = Returned tt l'
      /\ calls (run (SessionLock_RemoveFinishedHandler h) l).1 = []
      /\ first_match_removed h (privateSessionLockFinished l) (privateSessionLockFinished l')
      /\ privateSessionLockLocked l' = privateSessionLockLocked l
      /\ lock_BaseProxy l' = lock_BaseProxy l /\ lock_mu l' = lock_mu l
      /\ ((forall e, e ∈ privateSessionLockFinished l -> h <> Some e) -> l' = l))
  /\ (exists s',
      (run (SessionLockSurface_RemoveConfigureHandler h) s).2 = Returned tt s'
      /\ calls (run (SessionLockSurface_RemoveConfigureHandler h) s).1 = []
      /\ first_match_removed h (privateSessionLockSurfaceConfigure s)
           (privateSessionLockSurfaceConfigure s')
      /\ surface_BaseProxy s' = surface_BaseProxy s /\ surface_mu s' = surface_mu s
      /\ ((forall e, e ∈ privateSessionLockSurfaceConfigure s -> h <> Some e) -> s' = s)).
Proof.
  intros Hl Hs.
  destruct (run_RemoveHandler Locked h l Hl) as [L1 L2].
  destruct (run_RemoveHandler Finished h l Hl) as [F1 F2].
  destruct (run_RemoveHandler Configure h s Hs) as [C1 C2].
  pose proof (remove_first_spec h (privateSessionLockLocked l)) as SL.
  pose proof (remove_first_spec h (privateSessionLockFinished l)) as SF.
  pose proof (remove_first_spec h (privateSessionLockSurfaceConfigure s)) as SC.
  split; [|split].
  - eexists. split; [exact L1|]. split; [exact L2|]. cbn.
    repeat split; try done; try apply SL.
    intros Hno. destruct SL as [_ ->]; [|done]. by destruct l.
  - eexists. split; [exact F1|]. split; [exact F2|]. cbn.
    repeat split; try done; try apply SF.
    intros Hno. destruct SF as [_ ->]; [|done]. by destruct l.
  - eexists. split; [exact C1|]. split; [exact C2|]. cbn.
    repeat split; try done; try apply SC.
    intros Hno. destruct SC as [_ ->]; [|done]. by destruct s.
Qed.

(** Removing listener a from the "locked" listeners a, b, a of the sample
    lock leaves b, a. *)
Lemma RemoveHandler_removes_first_match_only_witness :
  quiescent sample_lock /\ quiescent sample_surface
  /\ exists l',
      (run (SessionLock_RemoveLockedHandler (Some client_a)) sample_lock).2 = Returned tt l'
      /\ privateSessionLockLocked l' = [client_b; client_a].
Proof.
  split; [reflexivity|]. split; [reflexivity|].
  destruct (RemoveHandler_removes_first_match_only sample_lock sample_surface
              (Some client_a) eq_refl eq_refl) as [(l' & Hrun & _ & [Hfirst _] & _) _].
  exists l'. split; [exact Hrun|].
  apply (Hfirst [] client_a [client_b; client_a]); [reflexivity|reflexivity|].
  intros e' He'. inversion He'.
Defined.

(** ** Dispatch *)

Section DispatchLemmas.
Context {T Slot : Type} `{ObjectLaws T Slot}.

Lemma run_len_guard {A} s (p q : Prog Slot A) (t : T) :
  run (n ← act (Len s); if decide (0 < n)%nat then p else q) t
  = after (ELen s (length (obj_slot s t)))
      (match obj_slot s t with [] => run q t | _ :: _ => run p t end).
Proof. cbn. by destruct (obj_slot s t). Qed.

Lemma run_seq_ret {A} (p : Prog Slot unit) (a : A) (t : T) tr :
  run p t = (tr, Returned tt t) -> run (p;; mret a) t = (tr, Returned a t).
Proof.
  intros Hp. rewrite run_bind, Hp. unfold then_run. cbn. by rewrite app_nil_r.
Qed.

Lemma run_new_fan_out {A} k s call (a : A) (t : T) :
  writer (obj_mu t) = false ->
  run (act (New k);; fan_out s call;; mret a) t =
    ([ENew k; ERLock; ELen s (length (obj_slot s t))]
       ++ range_trace s call (obj_slot s t) 0 ++ [ERUnlock],
     Returned a t).
Proof.
  intros Hw.
  change (run (act (New k);; fan_out s call;; mret a) t)
    with (after (ENew k) (run (fan_out s call;; mret a) t)).
  by rewrite (run_seq_ret _ _ _ _ (run_fan_out s call t Hw)).
Qed.

(** While a writer holds the mutex the fan-out waits at the read lock. *)
Lemma run_new_fan_out_writer {A} k s call (a : A) (t : T) :
  writer (obj_mu t) = true ->
  run (act (New k);; fan_out s call;; mret a) t = ([ENew k], Deadlocked).
Proof.
  intros Hw.
  change (run (act (New k);; fan_out s call;; mret a) t)
    with (after (ENew k) (run (fan_out s call;; mret a) t)).
  rewrite run_bind. unfold fan_out. cbn. unfold RWMutex_RLock. by rewrite Hw.
Qed.
End DispatchLemmas.

Lemma calls_dispatch_trace {Slot} (s : Slot) k call l :
  calls (dispatch_trace s k call l) = map call l.
Proof.
  destruct l as [|h l]; [done|]. unfold dispatch_trace.
  rewrite !calls_app, calls_range_trace. cbn. by rewrite app_nil_r.
Qed.

Lemma run_SessionLock_Dispatch_locked (l : SessionLock) (event : Event) :
  Opcode event = LockEventLocked -> writer (lock_mu l) = false ->
  run (SessionLock_Dispatch event) l
  = (dispatch_trace Locked KLocked locked_call (privateSessionLockLocked l),
     Returned event l).
Proof.
  intros Hop Hw. unfold SessionLock_Dispatch. rewrite decide_True by done.
  rewrite run_len_guard.
  change (obj_slot Locked l) with (privateSessionLockLocked l).
  destruct (privateSessionLockLocked l) as [|h hs] eqn:Hl; [done|].
  rewrite run_new_fan_out by done.
  change (obj_slot Locked l) with (privateSessionLockLocked l). by rewrite Hl.
Qed.

Lemma run_SessionLock_Dispatch_finished (l : SessionLock) (event : Event) :
  Opcode event = LockEventFinished -> writer (lock_mu l) = false ->
  run (SessionLock_Dispatch event) l
  = (dispatch_trace Finished KFinished finished_call (privateSessionLockFinished l),
     Returned event l).
Proof.
  intros Hop Hw. unfold SessionLock_Dispatch.
  rewrite decide_False by (rewrite Hop; done). rewrite decide_True by done.
  rewrite run_len_guard.
  change (obj_slot Finished l) with (privateSessionLockFinished l).
  destruct (privateSessionLockFinished l) as [|h hs] eqn:Hl; [done|].
  rewrite run_new_fan_out by done.
  change (obj_slot Finished l) with (privateSessionLockFinished l). by rewrite Hl.
Qed.

Lemma run_SessionLock_Dispatch_unknown (l : SessionLock) (event : Event) :
  SessionLock_event_slot (Opcode event) = None ->
  run (SessionLock_Dispatch event) l = ([], Returned event l).
Proof.
  unfold SessionLock_event_slot, SessionLock_Dispatch.
  by repeat case_decide.
Qed.

Lemma run_SessionLockSurface_Dispatch_configure (s : SessionLockSurface) (event : Event)
    serial width height rest :
  Opcode event = SurfaceEventConfigure -> writer (surface_mu s) = false ->
  Data event = serial :: width :: height :: rest ->
  run (SessionLockSurface_Dispatch event) s
  = (dispatch_trace Configure KConfigure (configure_call serial width height)
       (privateSessionLockSurfaceConfigure s),
     Returned (match privateSessionLockSurfaceConfigure s with
               | [] => event
               | _ :: _ => consumed 3 event
               end) s).
Proof.
  intros Hop Hw Hdata. unfold SessionLockSurface_Dispatch. rewrite decide_True by done.
  rewrite run_len_guard.
  change (obj_slot Configure s) with (privateSessionLockSurfaceConfigure s).
  destruct (privateSessionLockSurfaceConfigure s) as [|h hs] eqn:Hl; [done|].
  unfold Uint32 at 1. rewrite Hdata. unfold Uint32. cbn [Data Pid Opcode].
  rewrite run_new_fan_out by done.
  change (obj_slot Configure s) with (privateSessionLockSurfaceConfigure s). rewrite Hl.
  unfold consumed. by rewrite Hdata.
Qed.

Lemma run_SessionLockSurface_Dispatch_unknown (s : SessionLockSurface) (event : Event) :
  SessionLockSurface_event_slot (Opcode event) = None ->
  run (SessionLockSurface_Dispatch event) s = ([], Returned event s).
Proof.
  unfold SessionLockSurface_event_slot, SessionLockSurface_Dispatch.
  by repeat case_decide.
Qed.

(** C5 (unknown opcodes are ignored).  A [Dispatch] of the manager, whatever
    the opcode, of a lock with an opcode other than 0 and 1, and of a lock
    surface with an opcode other than 0 performs no operation at all: it
    calls no listener, it returns (no panic, no wait), and the proxy and
    the event are as they were, whatever state the mutex is in. *)
Theorem Dispatch_ignores_unknown_opcode
    (m : SessionLockManager) (l : SessionLock) (s : SessionLockSurface)
    (ev_m ev_l ev_s : Event) :
  Opcode ev_l <> 0 -> Opcode ev_l <> 1 -> Opcode ev_s <> 0 ->
  run (SessionLockManager_Dispatch ev_m) m = ([], Returned ev_m m)
  /\ run (SessionLock_Dispatch ev_l) l = ([], Returned ev_l l)
  /\ run (SessionLockSurface_Dispatch ev_s) s = ([], Returned ev_s s).
Proof.
  intros H0 H1 Hs. split; [done|]. split.
  - apply run_SessionLock_Dispatch_unknown. unfold SessionLock_event_slot.
    by rewrite !decide_False.
  - apply run_SessionLockSurface_Dispatch_unknown.
    unfold SessionLockSurface_event_slot. by rewrite decide_False.
Qed.

(** Opcode 5 on the sample lock and the sample lock surface. *)
Lemma Dispatch_ignores_unknown_opcode_witness :
  Opcode sample_unknown_event <> 0 /\ Opcode sample_unknown_event <> 1
  /\ run (SessionLockManager_Dispatch sample_unknown_event) new_SessionLockManager
     = ([], Returned sample_unknown_event new_SessionLockManager)
  /\ run (SessionLock_Dispatch sample_unknown_event) sample_lock
     = ([], Returned sample_unknown_event sample_lock)
  /\ run (SessionLockSurface_Dispatch sample_unknown_event) sample_surface
     = ([], Returned sample_unknown_event sample_surface).
Proof.
  split; [discriminate|]. split; [discriminate|].
  apply (Dispatch_ignores_unknown_opcode new_SessionLockManager sample_lock
           sample_surface sample_unknown_event sample_unknown_event
           sample_unknown_event); discriminate.
Defined.

(** C9 (no listener, no work).  When the slice of listeners of the event is
    empty, [Dispatch] performs the length test and nothing else: it reads no
    payload field (the event is returned as it came), makes no event value,
    takes no lock (whatever state the mutex is in), and returns with the
    proxy as it was.  In every dispatch of an opcode the type handles the
    length test is the first operation, so it precedes the read lock and is
    made without holding it. *)
Theorem Dispatch_without_listeners_only_tests_length
    (l : SessionLock) (s : SessionLockSurface) (ev_l ev_s : Event) (sl : LockSlot) :
  SessionLock_event_slot (Opcode ev_l) = Some sl -> obj_slot sl l = [] ->
  Opcode ev_s = SurfaceEventConfigure -> privateSessionLockSurfaceConfigure s = [] ->
  run (SessionLock_Dispatch ev_l) l = ([ELen sl 0%nat], Returned ev_l l)
  /\ run (SessionLockSurface_Dispatch ev_s) s = ([ELen Configure 0%nat], Returned ev_s s)
  /\ (forall (l' : SessionLock) (ev' : Event) (sl' : LockSlot),
        SessionLock_event_slot (Opcode ev') = Some sl' ->
        exists tr', (run (SessionLock_Dispatch ev') l').1
                    = ELen sl' (length (obj_slot sl' l')) :: tr')
  /\ (forall (s' : SessionLockSurface) (ev' : Event),
        Opcode ev' = SurfaceEventConfigure ->
        exists tr', (run (SessionLockSurface_Dispatch ev') s').1
                    = ELen Configure (length (privateSessionLockSurfaceConfigure s')) :: tr').
Proof.
  intros Hsl Hempty Hop Hsempty. split; [|split; [|split]].
  - unfold SessionLock_event_slot in Hsl. unfold SessionLock_Dispatch.
    repeat case_decide; simplify_eq; rewrite run_len_guard, Hempty; done.
  - unfold SessionLockSurface_Dispatch. rewrite decide_True by done.
    rewrite run_len_guard.
    change (obj_slot Configure s) with (privateSessionLockSurfaceConfigure s).
    by rewrite Hsempty.
  - intros l' ev' sl' Hsl'. unfold SessionLock_event_slot in Hsl'.
    unfold SessionLock_Dispatch.
    repeat case_decide; simplify_eq; rewrite run_len_guard; eexists; reflexivity.
  - intros s' ev' Hop'. unfold SessionLockSurface_Dispatch.
    rewrite decide_True by done. rewrite run_len_guard. eexists; reflexivity.
Qed.

(** A "locked" event on a fresh lock and a "configure" event with payload
    (7, 1920, 1080) on a fresh lock surface. *)
Lemma Dispatch_without_listeners_only_tests_length_witness :
  SessionLock_event_slot (Opcode sample_locked_event) = Some Locked
  /\ obj_slot Locked new_SessionLock = []
  /\ Opcode sample_configure_event = SurfaceEventConfigure
  /\ privateSessionLockSurfaceConfigure new_SessionLockSurface = []
  /\ run (SessionLock_Dispatch sample_locked_event) new_SessionLock
     = ([ELen Locked 0%nat], Returned sample_locked_event new_SessionLock)
  /\ run (SessionLockSurface_Dispatch sample_configure_event) new_SessionLockSurface
     = ([ELen Configure 0%nat], Returned sample_configure_event new_SessionLockSurface).
Proof.
  do 4 (split; [reflexivity|]).
  destruct (Dispatch_without_listeners_only_tests_length new_SessionLock
              new_SessionLockSurface sample_locked_event sample_configure_event Locked
              eq_refl eq_refl eq_refl eq_refl) as (Hl & Hs & _).
  split; [exact Hl|exact Hs].
Defined.

(** C3, as stated, fails when no listener is registered: a "configure"
    event with payload (7, 1920, 1080) dispatched to a lock surface without
    listeners leaves all three fields unread and makes no event value, and a
    "locked" event dispatched to a lock without listeners makes no event
    value either. *)
Lemma Dispatch_without_listeners_decodes_nothing :
  run (SessionLockSurface_Dispatch sample_configure_event) new_SessionLockSurface
    = ([ELen Configure 0%nat], Returned sample_configure_event new_SessionLockSurface)
  /\ Data sample_configure_event = [7; 1920; 1080]
  /\ (run (SessionLockSurface_Dispatch sample_configure_event) new_SessionLockSurface).2
     <> Returned (consumed 3 sample_configure_event) new_SessionLockSurface
  /\ (ENew KConfigure ∉
       (run (SessionLockSurface_Dispatch sample_configure_event) new_SessionLockSurface).1)
  /\ (ENew KLocked ∉ (run (SessionLock_Dispatch sample_locked_event) new_SessionLock).1)
  /\ (ENew KFinished ∉ (run (SessionLock_Dispatch sample_finished_event) new_SessionLock).1).
Proof.
  split; [reflexivity|]. split; [reflexivity|]. split; [discriminate|].
  repeat split; cbn; intros Hin; apply list_elem_of_singleton in Hin; discriminate.
Qed.

(** C3, amended (event decoding per object type and opcode).  On a proxy no
    writer holds, a lock dispatch with opcode 0 calls every "locked" listener,
    in order, with the empty locked event value, and one with opcode 1 every
    "finished" listener with the empty finished event value; a lock surface
    dispatch with opcode 0 calls every "configure" listener, in order, with
    the event whose Serial, Width and Height are the first, second and third
    payload field.  The event value is made, and the three fields are
    consumed from the payload (exactly three, in that order), when at least
    one listener of the event is registered; with none, nothing is made or
    consumed.  In each case the dispatch returns and leaves the proxy as it
    was. *)
Theorem Dispatch_decodes_by_type_and_opcode
    (l : SessionLock) (s : SessionLockSurface)
    (ev_locked ev_finished ev_configure : Event)
    (serial width height : uint32) (rest : list uint32) :
  writer (lock_mu l) = false -> writer (surface_mu s) = false ->
  Opcode ev_locked = 0 -> Opcode ev_finished = 1 -> Opcode ev_configure = 0 ->
  Data ev_configure = serial :: width :: height :: rest ->
  (exists tr,
      run (SessionLock_Dispatch ev_locked) l = (tr, Returned ev_locked l)
      /\ calls tr = map locked_call (privateSessionLockLocked l)
      /\ (ENew KLocked ∈ tr <-> privateSessionLockLocked l <> []))
  /\ (exists tr,
      run (SessionLock_Dispatch ev_finished) l = (tr, Returned ev_finished l)
      /\ calls tr = map finished_call (privateSessionLockFinished l)
      /\ (ENew KFinished ∈ tr <-> privateSessionLockFinished l <> []))
  /\ (exists tr ev',
      run (SessionLockSurface_Dispatch ev_configure) s = (tr, Returned ev' s)
      /\ calls tr
         = map (configure_call serial width height) (privateSessionLockSurfaceConfigure s)
      /\ (ENew KConfigure ∈ tr <-> privateSessionLockSurfaceConfigure s <> [])
      /\ (privateSessionLockSurfaceConfigure s <> [] ->
          Data ev' = rest /\ Pid ev' = Pid ev_configure /\ Opcode ev' = Opcode ev_configure)
      /\ (privateSessionLockSurfaceConfigure s = [] -> ev' = ev_configure)).
Proof.
  intros Hwl Hws Hop0 Hop1 Hopc Hdata.
  assert (Hnew : forall Slot (sl : Slot) k call hs,
             ENew k ∈ dispatch_trace sl k call hs <-> hs <> []).
  { intros Slot sl k call [|h hs]; cbn.
    - split; [|done]. intros Hin. apply list_elem_of_singleton in Hin. discriminate.
    - split; [done|]. intros _. right. left. }
  split; [|split].
  - eexists. split; [by apply run_SessionLock_Dispatch_locked|].
    split; [apply calls_dispatch_trace|apply Hnew].
  - eexists. split; [by apply run_SessionLock_Dispatch_finished|].
    split; [apply calls_dispatch_trace|apply Hnew].
  - eexists _, _.
    split; [by eapply run_SessionLockSurface_Dispatch_configure|].
    split; [apply calls_dispatch_trace|]. split; [apply Hnew|].
    destruct (privateSessionLockSurfaceConfigure s); split; try done.
    intros _. cbn. by rewrite Hdata.
Qed.

(** The scenario of the spec: payload (7, 1920, 1080) delivered to a lock
    surface with two listeners reaches both, in order, as Serial 7, Width
    1920, Height 1080. *)
Lemma Dispatch_decodes_by_type_and_opcode_witness :
  writer (lock_mu sample_lock) = false /\ writer (surface_mu sample_surface) = false
  /\ Opcode sample_locked_event = 0 /\ Opcode sample_finished_event = 1
  /\ Opcode sample_configure_event = 0
  /\ Data sample_configure_event = 7 :: 1920 :: 1080 :: []
  /\ exists tr ev',
      run (SessionLockSurface_Dispatch sample_configure_event) sample_surface
        = (tr, Returned ev' sample_surface)
      /\ calls tr =
           [HandleSessionLockSurfaceConfigure surface_handler_a
              {| Serial := 7; Width := 1920; Height := 1080 |};
            HandleSessionLockSurfaceConfigure surface_handler_b
              {| Serial := 7; Width := 1920; Height := 1080 |}].
Proof.
  do 6 (split; [reflexivity|]).
  destruct (Dispatch_decodes_by_type_and_opcode sample_lock sample_surface
              sample_locked_event sample_finished_event sample_configure_event
              7 1920 1080 [] eq_refl eq_refl eq_refl eq_refl eq_refl eq_refl)
    as (_ & _ & tr & ev' & Hrun & Hcalls & _).
  exists tr, ev'. split; [exact Hrun|exact Hcalls].
Defined.

(** ** Untyped registration *)

(** C10 (untyped listener helpers).  On a proxy nobody holds the mutex of,
    [SessionLockAddListener] returns and appends [h] to the "locked"
    listeners exactly when [h] is not nil and its dynamic type has
    [HandleSessionLockLocked], and, independently, to the "finished"
    listeners exactly when it has [HandleSessionLockFinished] (both in one
    call for a value with both methods); nothing else changes, and a value
    with neither method leaves the lock as it was, without an error.
    [SessionLockSurfaceAddListener] does the same for "configure" and
    [HandleSessionLockSurfaceConfigure]; [SessionLockManagerAddListener]
    performs no operation. *)
Theorem AddListener_registers_by_method_set
    (m : SessionLockManager) (l : SessionLock) (s : SessionLockSurface) (h : iface) :
  quiescent l -> quiescent s ->
  run (SessionLockManagerAddListener h) m = ([], Returned tt m)
  /\ (exists l',
      (run (SessionLockAddListener h) l).2 = Returned tt l'
      /\ privateSessionLockLocked l'
         = privateSessionLockLocked l ++ as_listener hasHandleSessionLockLocked h
      /\ privateSessionLockFinished l'
         = privateSessionLockFinished l ++ as_listener hasHandleSessionLockFinished h
      /\ lock_BaseProxy l' = lock_BaseProxy l /\ lock_mu l' = lock_mu l
      /\ (as_listener hasHandleSessionLockLocked h = [] ->
          as_listener hasHandleSessionLockFinished h = [] ->
          run (SessionLockAddListener h) l = ([], Returned tt l)))
  /\ (exists s',
      (run (SessionLockSurfaceAddListener h) s).2 = Returned tt s'
      /\ privateSessionLockSurfaceConfigure s'
         = privateSessionLockSurfaceConfigure s
             ++ as_listener hasHandleSessionLockSurfaceConfigure h
      /\ surface_BaseProxy s' = surface_BaseProxy s /\ surface_mu s' = surface_mu s
      /\ (as_listener hasHandleSessionLockSurfaceConfigure h = [] ->
          run (SessionLockSurfaceAddListener h) s = ([], Returned tt s))).
Proof.
  intros Hl Hs. split; [done|]. split.
  - unfold SessionLockAddListener, SessionLock_AddLockedHandler,
      SessionLock_AddFinishedHandler, type_assert, as_listener.
    destruct h as [d|]; [|exists l; rewrite !app_nil_r; by repeat split].
    destruct (hasHandleSessionLockLocked (dyn_type d)),
      (hasHandleSessionLockFinished (dyn_type d)).
    + rewrite run_bind, run_AddHandler_Some by done. unfold then_run.
      cbn [fst snd]. rewrite run_AddHandler_Some by by apply quiescent_set_slot.
      eexists. split; [reflexivity|]. by repeat split.
    + rewrite run_bind, run_AddHandler_Some by done. unfold then_run. cbn.
      eexists. split; [reflexivity|]. cbn. rewrite !app_nil_r. by repeat split.
    + change (run (mret tt;; AddHandler Finished (Some d)) l)
        with (run (AddHandler Finished (Some d)) l).
      rewrite run_AddHandler_Some by done.
      eexists. split; [reflexivity|]. cbn. rewrite !app_nil_r. by repeat split.
    + exists l. rewrite !app_nil_r. by repeat split.
  - unfold SessionLockSurfaceAddListener, SessionLockSurface_AddConfigureHandler,
      type_assert, as_listener.
    destruct h as [d|]; [|exists s; rewrite !app_nil_r; by repeat split].
    destruct (hasHandleSessionLockSurfaceConfigure (dyn_type d)).
    + rewrite run_AddHandler_Some by done.
      eexists. split; [reflexivity|]. by repeat split.
    + exists s. rewrite !app_nil_r. by repeat split.
Qed.

(** The client of the example program has both lock methods: one call
    registers it for "locked" and for "finished".  A value of a type with
    none of the methods is ignored. *)
Lemma AddListener_registers_by_method_set_witness :
  quiescent new_SessionLock /\ quiescent new_SessionLockSurface
  /\ (exists l',
      (run (SessionLockAddListener (Some client_a)) new_SessionLock).2 = Returned tt l'
      /\ privateSessionLockLocked l' = [client_a]
      /\ privateSessionLockFinished l' = [client_a])
  /\ run (SessionLockAddListener (Some stranger)) new_SessionLock
     = ([], Returned tt new_SessionLock).
Proof.
  split; [reflexivity|]. split; [reflexivity|]. split.
  - destruct (AddListener_registers_by_method_set new_SessionLockManager new_SessionLock
                new_SessionLockSurface (Some client_a) eq_refl eq_refl)
      as (_ & (l' & Hrun & Hlocked & Hfinished & _) & _).
    exists l'. split; [exact Hrun|]. split; [exact Hlocked|exact Hfinished].
  - destruct (AddListener_registers_by_method_set new_SessionLockManager new_SessionLock
                new_SessionLockSurface (Some stranger) eq_refl eq_refl)
      as (_ & (l' & _ & _ & _ & _ & _ & Hignored) & _).
    exact (Hignored eq_refl eq_refl).
Defined.

(** ** Requests *)

Lemma Register_fresh (ctx : Context) (p : Proxy) :
  (Register ctx p).2 ∉ dom (objects ctx).
Proof. apply is_fresh. Qed.

Lemma Register_objects (ctx : Context) (p : Proxy) :
  objects (Register ctx p).1 = <[(Register ctx p).2 := Proxy_SetId (Register ctx p).2 p]> (objects ctx).
Proof. done. Qed.

Lemma SendRequest_submitted (ctx : Context) p op a :
  submitted (SendRequest ctx p op a).1
  = submitted ctx ++ [({| sender := p; opcode := op; args := a |}, (SendRequest ctx p op a).2)].
Proof. done. Qed.

(** C1 (opcode and argument order of every request).  Each request method
    hands exactly one request to the transport, with its receiver as sender
    and the opcode and ordered arguments of the protocol: [Destroy] of all
    three types opcode 0 without arguments, [Manager.Lock] opcode 1 with the
    new lock as only argument, [Lock.GetLockSurface] opcode 1 with the new
    lock surface, the surface and the output in that order,
    [Lock.UnlockAndDestroy] opcode 2 without arguments, and
    [LockSurface.AckConfigure] opcode 1 with the serial.  The new lock and
    the new lock surface are the proxies the call returns, registered under
    an identifier unused before. *)
Theorem requests_follow_protocol_table
    (ctx : Context) (m l s surface output : ProxyId) (serial : uint32) :
  submitted (SessionLockManager_Destroy ctx m).1
    = submitted ctx ++ [({| sender := m; opcode := 0; args := [] |},
                         (SessionLockManager_Destroy ctx m).2)]
  /\ submitted (SessionLock_Destroy ctx l).1
    = submitted ctx ++ [({| sender := l; opcode := 0; args := [] |},
                         (SessionLock_Destroy ctx l).2)]
  /\ submitted (SessionLockSurface_Destroy ctx s).1
    = submitted ctx ++ [({| sender := s; opcode := 0; args := [] |},
                         (SessionLockSurface_Destroy ctx s).2)]
  /\ (let r := SessionLockManager_Lock ctx m in
      submitted r.1
        = submitted ctx ++ [({| sender := m; opcode := 1; args := [ArgProxy r.2.1] |}, r.2.2)]
      /\ (r.2.1 ∉ dom (objects ctx))
      /\ objects r.1 !! r.2.1 = Some (ProxyLock (registered_lock r.2.1)))
  /\ (let r := SessionLock_GetLockSurface ctx l surface output in
      submitted r.1
        = submitted ctx
            ++ [({| sender := l; opcode := 1;
                    args := [ArgProxy r.2.1; ArgProxy surface; ArgProxy output] |}, r.2.2)]
      /\ (r.2.1 ∉ dom (objects ctx))
      /\ objects r.1 !! r.2.1 = Some (ProxySurface (registered_surface r.2.1)))
  /\ submitted (SessionLock_UnlockAndDestroy ctx l).1
    = submitted ctx ++ [({| sender := l; opcode := 2; args := [] |},
                         (SessionLock_UnlockAndDestroy ctx l).2)]
  /\ submitted (SessionLockSurface_AckConfigure ctx s serial).1
    = submitted ctx ++ [({| sender := s; opcode := 1; args := [ArgUint32 serial] |},
                         (SessionLockSurface_AckConfigure ctx s serial).2)].
Proof.
  repeat split; try done.
  - apply is_fresh.
  - cbn. apply lookup_insert_eq.
  - apply is_fresh.
  - cbn. apply lookup_insert_eq.
Qed.

(** C2 (the child proxy is registered before its request is sent).
    [Manager.Lock] and [Lock.GetLockSurface] first construct and register
    the child, under an identifier no registered proxy has, and only then
    submit the request, on the context that already holds the child; the
    request is the only one the call submits.  The returned pointer is that
    identifier, the child carries it, and in the context the call leaves,
    whether or not the send succeeded, every event addressed to it is routed
    to the [Dispatch] of the child: a listener attached through the returned
    pointer is called, once, by a "locked" (or "configure") event addressed
    to the identifier. *)
Theorem child_registered_before_request
    (ctx : Context) (m l surface output : ProxyId) (h : Handler)
    (ev_locked ev_configure : Event) (serial width height : uint32) (rest : list uint32) :
  Pid ev_locked = (SessionLockManager_Lock ctx m).2.1 ->
  Opcode ev_locked = LockEventLocked ->
  Pid ev_configure = (SessionLock_GetLockSurface ctx l surface output).2.1 ->
  Opcode ev_configure = SurfaceEventConfigure ->
  Data ev_configure = serial :: width :: height :: rest ->
  (let new := NewSessionLock ctx in
   let r := SessionLockManager_Lock ctx m in
   (new.2 ∉ dom (objects ctx))
   /\ objects new.1 !! new.2 = Some (ProxyLock (registered_lock new.2))
   /\ submitted new.1 = submitted ctx
   /\ r = ((SendRequest new.1 m ManagerRequestLock [ArgProxy new.2]).1,
           (new.2, (SendRequest new.1 m ManagerRequestLock [ArgProxy new.2]).2))
   /\ objects r.1 !! r.2.1 = Some (ProxyLock (registered_lock r.2.1))
   /\ Proxy_Id <$> objects r.1 !! r.2.1 = Some r.2.1
   /\ length (submitted r.1) = S (length (submitted ctx))
   /\ (forall event,
         Pid event = r.2.1 ->
         deliver r.1 event
         = ToLock (registered_lock r.2.1)
             (run (SessionLock_Dispatch event) (registered_lock r.2.1)))
   /\ (exists tr l',
         deliver (SessionLock_call r.1 r.2.1 (SessionLock_AddLockedHandler (Some h))).1
           ev_locked
         = ToLock l' (tr, Returned ev_locked l')
         /\ calls tr = [locked_call h]))
  /\ (let new := NewSessionLockSurface ctx in
      let r := SessionLock_GetLockSurface ctx l surface output in
      (new.2 ∉ dom (objects ctx))
      /\ objects new.1 !! new.2 = Some (ProxySurface (registered_surface new.2))
      /\ submitted new.1 = submitted ctx
      /\ r = ((SendRequest new.1 l LockRequestGetLockSurface
                 [ArgProxy new.2; ArgProxy surface; ArgProxy output]).1,
              (new.2, (SendRequest new.1 l LockRequestGetLockSurface
                         [ArgProxy new.2; ArgProxy surface; ArgProxy output]).2))
      /\ objects r.1 !! r.2.1 = Some (ProxySurface (registered_surface r.2.1))
      /\ Proxy_Id <$> objects r.1 !! r.2.1 = Some r.2.1
      /\ length (submitted r.1) = S (length (submitted ctx))
      /\ (forall event,
            Pid event = r.2.1 ->
            deliver r.1 event
            = ToSurface (registered_surface r.2.1)
                (run (SessionLockSurface_Dispatch event) (registered_surface r.2.1)))
      /\ (exists tr s',
            deliver (SessionLockSurface_call r.1 r.2.1
                       (SessionLockSurface_AddConfigureHandler (Some h))).1 ev_configure
            = ToSurface s' (tr, Returned (consumed 3 ev_configure) s')
            /\ calls tr = [configure_call serial width height h])).
Proof.
  intros Hpid Hop Hpid' Hop' Hdata. split.
  - cbn zeta. split; [apply is_fresh|]. split; [cbn; apply lookup_insert_eq|].
    split; [done|]. split; [done|].
    split; [cbn; apply lookup_insert_eq|].
    split; [cbn; by rewrite lookup_insert_eq|].
    split; [cbn; rewrite length_app; cbn; lia|].
    split.
    + intros event Hev. unfold deliver. rewrite Hev.
      cbn [objects SessionLockManager_Lock NewSessionLock Register SendRequest fst snd].
      by rewrite lookup_insert_eq.
    + unfold deliver, SessionLock_call. rewrite Hpid.
      cbn [objects SessionLockManager_Lock NewSessionLock Register SendRequest fst snd].
      rewrite lookup_insert_eq. cbn [Proxy_SetId new_SessionLock lock_mu
        privateSessionLockLocked privateSessionLockFinished].
      unfold SessionLock_AddLockedHandler. rewrite run_AddHandler_Some by done.
      cbn [fst snd objects]. rewrite lookup_insert_eq.
      rewrite run_SessionLock_Dispatch_locked by done.
      eexists _, _. split; [reflexivity|]. by rewrite calls_dispatch_trace.
  - cbn zeta. split; [apply is_fresh|]. split; [cbn; apply lookup_insert_eq|].
    split; [done|]. split; [done|].
    split; [cbn; apply lookup_insert_eq|].
    split; [cbn; by rewrite lookup_insert_eq|].
    split; [cbn; rewrite length_app; cbn; lia|].
    split.
    + intros event Hev. unfold deliver. rewrite Hev.
      cbn [objects SessionLock_GetLockSurface NewSessionLockSurface Register SendRequest
             fst snd].
      by rewrite lookup_insert_eq.
    + unfold deliver, SessionLockSurface_call. rewrite Hpid'.
      cbn [objects SessionLock_GetLockSurface NewSessionLockSurface Register SendRequest
             fst snd].
      rewrite lookup_insert_eq. cbn [Proxy_SetId new_SessionLockSurface surface_mu
        privateSessionLockSurfaceConfigure].
      unfold SessionLockSurface_AddConfigureHandler.
      rewrite run_AddHandler_Some by done.
      cbn [fst snd objects]. rewrite lookup_insert_eq.
      rewrite (run_SessionLockSurface_Dispatch_configure _ _ serial width height rest)
        by done.
      eexists _, _. split; [reflexivity|]. by rewrite calls_dispatch_trace.
Qed.

(** The scenario of the spec: a manager is registered with an empty context
    (identifier 0), [Lock] returns the lock 1, a listener is attached, and a
    "locked" event addressed to 1 calls it once with the empty event value;
    [GetLockSurface] on the same context returns 1 as well, and a "configure"
    event addressed to it with payload (7, 1920, 1080) reaches the listener
    attached to the lock surface. *)
Lemma child_registered_before_request_witness :
  Pid sample_lock_event_1 = (SessionLockManager_Lock sample_context 0%nat).2.1
  /\ Opcode sample_lock_event_1 = LockEventLocked
  /\ Pid sample_configure_event_1
     = (SessionLock_GetLockSurface sample_context 0%nat 7%nat 8%nat).2.1
  /\ Opcode sample_configure_event_1 = SurfaceEventConfigure
  /\ Data sample_configure_event_1 = 7 :: 1920 :: 1080 :: []
  /\ (SessionLockManager_Lock sample_context 0%nat).2 = (1%nat, None)
  /\ exists tr l',
      deliver (SessionLock_call (SessionLockManager_Lock sample_context 0%nat).1 1%nat
                 (SessionLock_AddLockedHandler (Some client_a))).1 sample_lock_event_1
      = ToLock l' (tr, Returned sample_lock_event_1 l')
      /\ calls tr = [HandleSessionLockLocked client_a Build_SessionLockLockedEvent].
Proof.
  do 6 (split; [reflexivity|]).
  destruct (child_registered_before_request sample_context 0%nat 0%nat 7%nat 8%nat
              client_a sample_lock_event_1 sample_configure_event_1 7 1920 1080 []
              eq_refl eq_refl eq_refl eq_refl eq_refl)
    as [(_ & _ & _ & _ & _ & _ & _ & _ & tr & l' & Hdeliver & Hcalls) _].
  exists tr, l'. split; [exact Hdeliver|exact Hcalls].
Defined.

(** C7 (a failed send is reported, the child is returned all the same).
    When the transport refuses the next request with error [e],
    [Manager.Lock] and [Lock.GetLockSurface] return that error together with
    the child they had already constructed and registered; the registry is
    what a successful call leaves (the child as constructed, every other
    proxy as before), and the request was handed to the transport once: one
    entry more in the log, one answer of the transport consumed. *)
Theorem transport_error_is_returned_with_child
    (ctx : Context) (m l surface output : ProxyId)
    (e : TransportError) (rest : list (option TransportError)) :
  faults ctx = Some e :: rest ->
  (let r := SessionLockManager_Lock ctx m in
   r.2.2 = Some e
   /\ r.2.1 = (NewSessionLock ctx).2
   /\ (r.2.1 ∉ dom (objects ctx))
   /\ objects r.1 = <[r.2.1 := ProxyLock (registered_lock r.2.1)]> (objects ctx)
   /\ submitted r.1
      = submitted ctx ++ [({| sender := m; opcode := 1; args := [ArgProxy r.2.1] |}, Some e)]
   /\ faults r.1 = rest
   /\ (forall ok : Context,
         objects ok = objects ctx -> faults ok = [] ->
         (SessionLockManager_Lock ok m).2 = (r.2.1, None)
         /\ objects (SessionLockManager_Lock ok m).1 = objects r.1))
  /\ (let r := SessionLock_GetLockSurface ctx l surface output in
      r.2.2 = Some e
      /\ r.2.1 = (NewSessionLockSurface ctx).2
      /\ (r.2.1 ∉ dom (objects ctx))
      /\ objects r.1 = <[r.2.1 := ProxySurface (registered_surface r.2.1)]> (objects ctx)
      /\ submitted r.1
         = submitted ctx
             ++ [({| sender := l; opcode := 1;
                     args := [ArgProxy r.2.1; ArgProxy surface; ArgProxy output] |}, Some e)]
      /\ faults r.1 = rest
      /\ (forall ok : Context,
            objects ok = objects ctx -> faults ok = [] ->
            (SessionLock_GetLockSurface ok l surface output).2 = (r.2.1, None)
            /\ objects (SessionLock_GetLockSurface ok l surface output).1 = objects r.1)).
Proof.
  intros Hf. split.
  - cbn. rewrite Hf. cbn. do 3 (split; [done || apply is_fresh|]).
    do 3 (split; [done|]). intros ok Hobj Hok. by rewrite Hobj, Hok.
  - cbn. rewrite Hf. cbn. do 3 (split; [done || apply is_fresh|]).
    do 3 (split; [done|]). intros ok Hobj Hok. by rewrite Hobj, Hok.
Qed.

(** On a context without proxies whose transport answers error 5, [Lock]
    returns the child 0 and error 5. *)
Lemma transport_error_is_returned_with_child_witness :
  faults failing_context = Some 5%nat :: []
  /\ (SessionLockManager_Lock failing_context 9%nat).2.2 = Some 5%nat
  /\ objects (SessionLockManager_Lock failing_context 9%nat).1
     = <[(SessionLockManager_Lock failing_context 9%nat).2.1
           := ProxyLock (registered_lock (SessionLockManager_Lock failing_context 9%nat).2.1)]>
         (objects failing_context).
Proof.
  split; [reflexivity|].
  destruct (transport_error_is_returned_with_child failing_context 9%nat 9%nat 7%nat 8%nat
              5%nat [] eq_refl) as [(Herr & _ & _ & Hobj & _) _].
  split; [exact Herr|exact Hobj].
Defined.

(** ** Sequences of calls *)

Lemma registrations_app h l l' :
  registrations h (l ++ l') = (registrations h l + registrations h l')%nat.
Proof. unfold registrations. by rewrite filter_app, length_app. Qed.

Lemma registrations_cons h e l :
  registrations h (e :: l) = ((if decide (e = h) then 1 else 0) + registrations h l)%nat.
Proof. unfold registrations. rewrite filter_cons. by case_decide. Qed.

Lemma registrations_remove_first h h' l :
  registrations h (remove_first h' l)
  = if decide (h' = Some h) then pred (registrations h l) else registrations h l.
Proof.
  induction l as [|e l IH]; [by case_decide|].
  cbn [remove_first]. unfold iface_eq. case_bool_decide as He.
  - rewrite registrations_cons. subst h'. case_decide as Hh.
    + simplify_eq. by rewrite decide_True.
    + rewrite decide_False; [done|]. congruence.
  - rewrite !registrations_cons, IH. case_decide as Hh; [|done].
    subst h'. rewrite decide_False by congruence. done.
Qed.

Lemma invocations_app {Slot} k h (tr tr' : list (Effect Slot)) :
  invocations k h (tr ++ tr') = (invocations k h tr + invocations k h tr')%nat.
Proof. unfold invocations. by rewrite calls_app, filter_app, length_app. Qed.

Lemma invocations_no_calls {Slot} k h (tr : list (Effect Slot)) :
  calls tr = [] -> invocations k h tr = 0%nat.
Proof. unfold invocations. by intros ->. Qed.

Lemma invocations_map {Slot} k h (tr : list (Effect Slot)) (f : Handler -> HandlerCall) l k' :
  calls tr = map f l ->
  (forall e, call_kind (f e) = k' /\ receiver (f e) = e) ->
  invocations k h tr = if decide (k' = k) then registrations h l else 0%nat.
Proof.
  unfold invocations, registrations. intros -> Hf.
  destruct (decide (k' = k)) as [Hkk|Hkk].
  - induction l as [|e l IH]; [done|].
    cbn [map]. rewrite !filter_cons. destruct (Hf e) as [Hk Hr]. rewrite Hk, Hr.
    destruct (decide (e = h)).
    + rewrite decide_True by done. cbn. by rewrite IH.
    + rewrite decide_False by (intros [? ?]; congruence). done.
  - induction l as [|e l IH]; [done|].
    cbn [map]. rewrite !filter_cons. destruct (Hf e) as [Hk Hr]. rewrite Hk, Hr.
    rewrite decide_False by (intros [? ?]; congruence). done.
Qed.

Section CallSequences.
Context {T Slot : Type} `{ObjectLaws T Slot}.
Variable dispatch : Event -> Prog Slot Event.
Variable event_slot : uint32 -> option Slot.
Variable slot_kind : Slot -> EventKind.
Variable payload_ok : Event -> Prop.
Variable call : Event -> Handler -> HandlerCall.

Hypothesis slot_kind_inj : forall s s', slot_kind s = slot_kind s' -> s = s'.
Hypothesis dispatch_returns : forall (t : T) event,
  quiescent t -> payload_ok event ->
  exists event', (run (dispatch event) t).2 = Returned event' t.
Hypothesis dispatch_calls : forall (t : T) event,
  quiescent t -> payload_ok event ->
  calls (run (dispatch event) t).1
  = match event_slot (Opcode event) with
    | Some s => map (call event) (obj_slot s t)
    | None => []
    end.
Hypothesis call_shape : forall event s h,
  event_slot (Opcode event) = Some s ->
  call_kind (call event h) = slot_kind s /\ receiver (call event h) = h.

Lemma sequence_invocations (cs : list (Call Slot)) (t : T) s h :
  quiescent t -> payloads_ok payload_ok cs ->
  exists t',
    (run (sequence dispatch cs) t).2 = Returned tt t'
    /\ quiescent t'
    /\ invocations (slot_kind s) h (run (sequence dispatch cs) t).1
       = expected_invocations event_slot s h (registrations h (obj_slot s t)) cs.
Proof.
  intros Hq Hok. revert t Hq. induction Hok as [|c cs Hc Hcs IH]; intros t Hq.
  - exists t. by repeat split.
  - cbn [sequence]. rewrite run_bind. unfold then_run.
    destruct c as [s' h'|s' h'|event]; cbn [call_prog expected_invocations].
    + destruct h' as [d|].
      * rewrite run_AddHandler_Some by done. cbn [fst snd].
        destruct (IH (obj_set_slot s' (obj_slot s' t ++ [d]) t)) as (t' & R & Q & I);
          [by apply quiescent_set_slot|].
        exists t'. split; [done|]. split; [done|].
        rewrite (invocations_app _ _ [_;_;_;_]), I.
        rewrite (invocations_no_calls _ _ [_;_;_;_]) by done. cbn [Nat.add].
        f_equal. rewrite obj_slot_set_slot.
        destruct (decide (s' = s)) as [->|Hs].
        -- rewrite registrations_app, registrations_cons.
           change (registrations h []) with 0%nat.
           destruct (decide (d = h)) as [->|Hd].
           ++ rewrite (decide_True (P := s = s /\ Some h = Some h)) by done.
              rewrite (decide_True (P := h = h)) by done. lia.
           ++ rewrite (decide_False (P := s = s /\ Some d = Some h))
                by (intros [? ?]; congruence).
              rewrite (decide_False (P := d = h)) by done. lia.
        -- by rewrite (decide_False (P := s' = s /\ Some d = Some h))
             by (intros [? ?]; congruence).
      * rewrite run_AddHandler_None. cbn [fst snd].
        destruct (IH t Hq) as (t' & R & Q & I). exists t'.
        split; [done|]. split; [done|]. cbn [app]. rewrite I.
        by rewrite (decide_False (P := s' = s /\ None = Some h))
          by (intros [? ?]; congruence).
    + destruct (run_RemoveHandler s' h' t Hq) as [R1 R2]. rewrite R1.
      destruct (IH (obj_set_slot s' (remove_first h' (obj_slot s' t)) t)) as (t' & R & Q & I);
        [by apply quiescent_set_slot|].
      exists t'. split; [done|]. split; [done|]. cbn [fst snd].
      rewrite invocations_app, I, (invocations_no_calls _ _ _ R2). cbn [Nat.add].
      f_equal. rewrite obj_slot_set_slot.
      destruct (decide (s' = s)) as [->|Hs].
      * rewrite registrations_remove_first.
        destruct (decide (h' = Some h)) as [->|Hh].
        -- by rewrite (decide_True (P := s = s /\ Some h = Some h)).
        -- by rewrite (decide_False (P := s = s /\ h' = Some h))
             by (intros [? ?]; congruence).
      * by rewrite (decide_False (P := s' = s /\ h' = Some h))
          by (intros [? ?]; congruence).
    + destruct (dispatch_returns t event Hq Hc) as [event' R0].
      pose proof (dispatch_calls t event Hq Hc) as C0.
      rewrite run_bind. unfold then_run. rewrite R0. cbn [run mret Prog_mret fst snd].
      destruct (IH t Hq) as (t' & R & Q & I). exists t'.
      split; [done|]. split; [done|].
      rewrite app_nil_r, invocations_app, I. f_equal.
      destruct (event_slot (Opcode event)) as [s0|] eqn:Hs0.
      * rewrite (invocations_map _ _ _ _ _ (slot_kind s0) C0)
          by (intros e; by apply call_shape).
        destruct (decide (s0 = s)) as [->|Hne].
        -- by rewrite !decide_True.
        -- rewrite !decide_False; [done|congruence|].
           intros Hk. by apply Hne, slot_kind_inj.
      * rewrite (invocations_no_calls _ _ _ C0). by rewrite decide_False.
Qed.

Lemma expected_invocations_unregistered s h (cs : list (Call Slot)) :
  no_add s h cs -> expected_invocations event_slot s h 0 cs = 0%nat.
Proof.
  induction 1 as [|c cs Hc Hcs IH]; [done|].
  destruct c as [s' h'|s' h'|event]; cbn [expected_invocations].
  - rewrite decide_False; [done|]. intros [-> ->]. by apply Hc.
  - by case_decide.
  - rewrite IH. by case_decide.
Qed.

Lemma expected_invocations_registered_once s h (mid rest : list (Call Slot)) :
  no_add s h mid -> no_remove s h mid -> no_add s h rest ->
  expected_invocations event_slot s h 1 (mid ++ CallRemove s (Some h) :: rest)
  = dispatches event_slot s mid.
Proof.
  intros Ha Hr Hrest. induction mid as [|c mid IH].
  - cbn. rewrite decide_True by done. by apply expected_invocations_unregistered.
  - apply Forall_cons in Ha as [Hc Ha]. apply Forall_cons in Hr as [Hc' Hr].
    destruct c as [s' h'|s' h'|event]; cbn [app expected_invocations dispatches].
    + rewrite decide_False; [by apply IH|]. intros [-> ->]. by apply Hc.
    + rewrite decide_False; [by apply IH|]. intros [-> ->]. by apply Hc'.
    + rewrite IH by done. by case_decide.
Qed.

(** A listener registered exactly once: [N] dispatches of its event between
    its add and its remove call it [N] times, and nothing after the remove
    calls it again. *)
Lemma sequence_registered_once (mid rest : list (Call Slot)) (t : T) s h :
  quiescent t -> payloads_ok payload_ok mid -> payloads_ok payload_ok rest ->
  registrations h (obj_slot s t) = 0%nat ->
  no_add s h mid -> no_remove s h mid -> no_add s h rest ->
  exists t',
    (run (sequence dispatch (CallAdd s (Some h) :: mid ++ CallRemove s (Some h) :: rest)) t).2
      = Returned tt t'
    /\ invocations (slot_kind s) h
         (run (sequence dispatch
                 (CallAdd s (Some h) :: mid ++ CallRemove s (Some h) :: rest)) t).1
       = dispatches event_slot s mid.
Proof.
  intros Hq Hmid Hrest Hreg Ha Hr Ha'.
  destruct (sequence_invocations
              (CallAdd s (Some h) :: mid ++ CallRemove s (Some h) :: rest) t s h Hq)
    as (t' & R & _ & I).
  { apply Forall_cons. split; [done|]. apply Forall_app. split; [done|].
    by apply Forall_cons. }
  exists t'. split; [done|]. rewrite I, Hreg. cbn [expected_invocations].
  rewrite decide_True by done. by apply expected_invocations_registered_once.
Qed.
End CallSequences.

Lemma run_SessionLock_Dispatch (l : SessionLock) (event : Event) :
  quiescent l ->
  (run (SessionLock_Dispatch event) l).2 = Returned event l
  /\ calls (run (SessionLock_Dispatch event) l).1
     = match SessionLock_event_slot (Opcode event) with
       | Some s => map (SessionLock_listener_call event) (obj_slot s l)
       | None => []
       end.
Proof.
  intros Hq. assert (Hw : writer (lock_mu l) = false) by (by rewrite Hq).
  unfold SessionLock_event_slot, SessionLock_listener_call.
  destruct (decide (Opcode event = LockEventLocked)) as [H0|H0].
  - rewrite run_SessionLock_Dispatch_locked by done. split; [done|].
    apply calls_dispatch_trace.
  - destruct (decide (Opcode event = LockEventFinished)) as [H1|H1].
    + rewrite run_SessionLock_Dispatch_finished by done. split; [done|].
      apply calls_dispatch_trace.
    + rewrite run_SessionLock_Dispatch_unknown; [done|].
      unfold SessionLock_event_slot. by rewrite !decide_False.
Qed.

Lemma run_SessionLockSurface_Dispatch (s : SessionLockSurface) (event : Event) :
  quiescent s -> configure_payload event ->
  (exists event', (run (SessionLockSurface_Dispatch event) s).2 = Returned event' s)
  /\ calls (run (SessionLockSurface_Dispatch event) s).1
     = match SessionLockSurface_event_slot (Opcode event) with
       | Some sl => map (SessionLockSurface_listener_call event) (obj_slot sl s)
       | None => []
       end.
Proof.
  intros Hq Hpayload. assert (Hw : writer (surface_mu s) = false) by (by rewrite Hq).
  unfold SessionLockSurface_event_slot, SessionLockSurface_listener_call.
  destruct (decide (Opcode event = SurfaceEventConfigure)) as [H0|H0].
  - specialize (Hpayload H0).
    destruct (Data event) as [|serial [|width [|height rest]]] eqn:Hdata;
      cbn in Hpayload; try lia.
    rewrite (run_SessionLockSurface_Dispatch_configure _ _ serial width height rest)
      by done.
    split; [by eexists|]. apply calls_dispatch_trace.
  - rewrite run_SessionLockSurface_Dispatch_unknown; [by eauto|].
    unfold SessionLockSurface_event_slot. by rewrite decide_False.
Qed.

Lemma SessionLock_listener_call_shape event s h :
  SessionLock_event_slot (Opcode event) = Some s ->
  call_kind (SessionLock_listener_call event h) = LockSlot_kind s
  /\ receiver (SessionLock_listener_call event h) = h.
Proof.
  unfold SessionLock_event_slot, SessionLock_listener_call.
  repeat case_decide; intros; by simplify_eq.
Qed.

Lemma SessionLockSurface_listener_call_shape event s h :
  SessionLockSurface_event_slot (Opcode event) = Some s ->
  call_kind (SessionLockSurface_listener_call event h) = SurfaceSlot_kind s
  /\ receiver (SessionLockSurface_listener_call event h) = h.
Proof.
  intros _. unfold SessionLockSurface_listener_call.
  by destruct (Data event) as [|? [|? [|? ?]]].
Qed.

Lemma LockSlot_kind_inj s s' : LockSlot_kind s = LockSlot_kind s' -> s = s'.
Proof. by destruct s, s'. Qed.

Lemma SurfaceSlot_kind_inj s s' : SurfaceSlot_kind s = SurfaceSlot_kind s' -> s = s'.
Proof. by destruct s, s'. Qed.

Lemma payloads_ok_True {Slot} (cs : list (Call Slot)) : payloads_ok (fun _ => True) cs.
Proof. apply Forall_forall. by intros [| |]. Qed.

(** C4, as stated, fails for a listener added twice: one "locked" event
    calls it twice, and after one [RemoveLockedHandler] the next "locked"
    event still calls it once. *)
Lemma listener_added_twice_is_called_twice :
  invocations KLocked client_a
    (run (SessionLock_calls
            [CallAdd Locked (Some client_a); CallAdd Locked (Some client_a);
             CallDispatch sample_locked_event]) new_SessionLock).1 = 2%nat
  /\ (run (SessionLock_calls
             [CallAdd Locked (Some client_a); CallAdd Locked (Some client_a);
              CallRemove Locked (Some client_a)]) new_SessionLock).2
     = Returned tt {| lock_BaseProxy := new_BaseProxy; lock_mu := mu_zero;
                      privateSessionLockLocked := [client_a];
                      privateSessionLockFinished := [] |}
  /\ invocations KLocked client_a
       (run (SessionLock_Dispatch sample_locked_event)
          {| lock_BaseProxy := new_BaseProxy; lock_mu := mu_zero;
             privateSessionLockLocked := [client_a];
             privateSessionLockFinished := [] |}).1 = 1%nat.
Proof. split; [|split]; reflexivity. Qed.

(** C4, amended (listeners are called once per registration).  For every
    sequence of add, remove and dispatch calls on one lock, or on one lock
    surface, that nobody else holds the mutex of, every call returns, and the
    number of calls of a listener for events of its type is what the
    registrations give: an add registers the listener once more, a remove
    takes one registration away, and each dispatched event of the type calls
    the listener once per registration it has at that moment.  So a listener
    that is not registered, is added, and is not added again is called
    exactly [N] times by the [N] dispatches of its event between the add and
    its remove, and not at all after the remove.  A dispatch calls the
    listeners before it returns, in the order of the slice, and an add puts
    the listener at the end of the slice. *)
Theorem listener_called_once_per_registration
    (l : SessionLock) (sf : SessionLockSurface) (s : LockSlot) (h d : Handler)
    (cs mid rest : list (Call LockSlot)) (cs' mid' rest' : list (Call SurfaceSlot))
    (event : Event) :
  quiescent l -> quiescent sf ->
  configure_payloads cs' -> configure_payloads mid' -> configure_payloads rest' ->
  registrations h (obj_slot s l) = 0%nat ->
  registrations h (privateSessionLockSurfaceConfigure sf) = 0%nat ->
  no_add s h mid -> no_remove s h mid -> no_add s h rest ->
  no_add Configure h mid' -> no_remove Configure h mid' -> no_add Configure h rest' ->
  (exists l',
      (run (SessionLock_calls cs) l).2 = Returned tt l'
      /\ invocations (LockSlot_kind s) h (run (SessionLock_calls cs) l).1
         = expected_invocations SessionLock_event_slot s h
             (registrations h (obj_slot s l)) cs)
  /\ (exists sf',
      (run (SessionLockSurface_calls cs') sf).2 = Returned tt sf'
      /\ invocations KConfigure h (run (SessionLockSurface_calls cs') sf).1
         = expected_invocations SessionLockSurface_event_slot Configure h
             (registrations h (privateSessionLockSurfaceConfigure sf)) cs')
  /\ (exists l',
      (run (SessionLock_calls (CallAdd s (Some h) :: mid ++ CallRemove s (Some h) :: rest))
         l).2 = Returned tt l'
      /\ invocations (LockSlot_kind s) h
           (run (SessionLock_calls
                   (CallAdd s (Some h) :: mid ++ CallRemove s (Some h) :: rest)) l).1
         = dispatches SessionLock_event_slot s mid)
  /\ (exists sf',
      (run (SessionLockSurface_calls
              (CallAdd Configure (Some h) :: mid' ++ CallRemove Configure (Some h) :: rest'))
         sf).2 = Returned tt sf'
      /\ invocations KConfigure h
           (run (SessionLockSurface_calls
                   (CallAdd Configure (Some h)
                      :: mid' ++ CallRemove Configure (Some h) :: rest')) sf).1
         = dispatches SessionLockSurface_event_slot Configure mid')
  /\ ((run (SessionLock_Dispatch event) l).2 = Returned event l
      /\ calls (run (SessionLock_Dispatch event) l).1
         = match SessionLock_event_slot (Opcode event) with
           | Some Locked => map locked_call (privateSessionLockLocked l)
           | Some Finished => map finished_call (privateSessionLockFinished l)
           | None => []
           end)
  /\ (run (AddHandler s (Some d)) l).2
     = Returned tt (obj_set_slot s (obj_slot s l ++ [d]) l).
Proof.
  intros Hl Hsf Hcs' Hmid' Hrest' Hreg Hreg' Ha Hr Ha' Hb Hq Hb'.
  split; [|split; [|split; [|split; [|split]]]].
  - destruct (sequence_invocations SessionLock_Dispatch SessionLock_event_slot
                LockSlot_kind (fun _ => True) SessionLock_listener_call
                LockSlot_kind_inj
                (fun t ev Hq _ => ex_intro _ ev (proj1 (run_SessionLock_Dispatch t ev Hq)))
                (fun t ev Hq _ => proj2 (run_SessionLock_Dispatch t ev Hq))
                SessionLock_listener_call_shape cs l s h Hl (payloads_ok_True cs))
      as (l' & R & _ & I).
    by exists l'.
  - destruct (sequence_invocations SessionLockSurface_Dispatch
                SessionLockSurface_event_slot SurfaceSlot_kind configure_payload
                SessionLockSurface_listener_call SurfaceSlot_kind_inj
                (fun t ev Hq Hp => proj1 (run_SessionLockSurface_Dispatch t ev Hq Hp))
                (fun t ev Hq Hp => proj2 (run_SessionLockSurface_Dispatch t ev Hq Hp))
                SessionLockSurface_listener_call_shape cs' sf Configure h Hsf Hcs')
      as (sf' & R & _ & I).
    by exists sf'.
  - apply (sequence_registered_once SessionLock_Dispatch SessionLock_event_slot
             LockSlot_kind (fun _ => True) SessionLock_listener_call
             LockSlot_kind_inj
             (fun t ev Hq _ => ex_intro _ ev (proj1 (run_SessionLock_Dispatch t ev Hq)))
             (fun t ev Hq _ => proj2 (run_SessionLock_Dispatch t ev Hq))
             SessionLock_listener_call_shape);
      try done; apply payloads_ok_True.
  - by apply (sequence_registered_once SessionLockSurface_Dispatch
                SessionLockSurface_event_slot SurfaceSlot_kind configure_payload
                SessionLockSurface_listener_call SurfaceSlot_kind_inj
                (fun t ev Hq Hp => proj1 (run_SessionLockSurface_Dispatch t ev Hq Hp))
                (fun t ev Hq Hp => proj2 (run_SessionLockSurface_Dispatch t ev Hq Hp))
                SessionLockSurface_listener_call_shape).
  - destruct (run_SessionLock_Dispatch l event Hl) as [R C]. split; [done|].
    rewrite C. unfold SessionLock_event_slot, SessionLock_listener_call.
    repeat case_decide; try done; exfalso; congruence.
  - by rewrite run_AddHandler_Some.
Qed.

(** Listener a, added to a fresh lock, sees the two "locked" events that
    are dispatched before it is removed, and not the one dispatched after. *)
Lemma listener_called_once_per_registration_witness :
  quiescent new_SessionLock /\ quiescent new_SessionLockSurface
  /\ configure_payloads [CallDispatch sample_configure_event]
  /\ registrations client_a (obj_slot Locked new_SessionLock) = 0%nat
  /\ registrations client_a (privateSessionLockSurfaceConfigure new_SessionLockSurface) = 0%nat
  /\ no_add Locked client_a sample_between /\ no_remove Locked client_a sample_between
  /\ no_add Locked client_a sample_afterwards
  /\ invocations KLocked client_a
       (run (SessionLock_calls
               (CallAdd Locked (Some client_a)
                  :: sample_between ++ CallRemove Locked (Some client_a) :: sample_afterwards))
          new_SessionLock).1 = 2%nat.
Proof.
  assert (Hp : configure_payloads [CallDispatch sample_configure_event]).
  { repeat constructor. }
  assert (Ha : no_add Locked client_a sample_between) by (repeat constructor; discriminate).
  assert (Hr : no_remove Locked client_a sample_between) by (repeat constructor; discriminate).
  assert (Ha' : no_add Locked client_a sample_afterwards) by (repeat constructor; discriminate).
  do 2 (split; [reflexivity|]). split; [exact Hp|]. do 2 (split; [reflexivity|]).
  split; [exact Ha|]. split; [exact Hr|]. split; [exact Ha'|].
  destruct (listener_called_once_per_registration new_SessionLock new_SessionLockSurface
              Locked client_a client_b [] sample_between sample_afterwards
              [CallDispatch sample_configure_event] [] [] sample_locked_event
              eq_refl eq_refl Hp (Forall_nil_2 _) (Forall_nil_2 _) eq_refl eq_refl
              Ha Hr Ha' (Forall_nil_2 _) (Forall_nil_2 _) (Forall_nil_2 _))
    as (_ & _ & (l' & _ & Hcount) & _).
  exact Hcount.
Defined.

(** ** Interleaved callers *)

Section Discipline.
Context {Slot : Type} `{EqDecision Slot}.

Lemma disciplined_ext {A} final (σ σ' : Slot -> list Handler) h (p : Prog Slot A) :
  (forall s, σ s = σ' s) -> disciplined final σ h p -> disciplined final σ' h p.
Proof.
  intros Hext Hd. revert σ' Hext.
  induction Hd as [σ a|σ k Hk IH|σ k Hk IH|σ k Hk IH|σ k Hk IH|σ s k Hk IH
                  |σ h s k Hh Hk IH|σ h s i e k Hh He Hk IH|σ h s k Hh Hk IH
                  |σ s v k Hv Hk IH|σ kd k Hk IH|σ c k Hk IH];
    intros σ' Hext.
  - constructor.
  - by constructor.
  - by constructor.
  - by constructor.
  - by constructor.
  - by constructor.
  - apply disc_Len_held; [done|]. rewrite <- Hext. by apply IH.
  - apply (disc_Index _ _ _ _ _ e); [done|by rewrite <- Hext|by apply IH].
  - apply disc_Load; [done|]. rewrite <- Hext. by apply IH.
  - apply disc_Store; [by rewrite <- Hext|]. apply IH.
    intros s'. unfold set_slot. by case_decide.
  - by constructor.
  - constructor. by apply IH.
Qed.

Lemma disciplined_free {A} (σ σ' : Slot -> list Handler) (p : Prog Slot A) :
  disciplined HoldsNone σ HoldsNone p -> disciplined HoldsNone σ' HoldsNone p.
Proof.
  intros Hd. remember HoldsNone as h eqn:Hh in Hd at 2.
  destruct Hd; try discriminate; try done; by constructor.
Qed.

Lemma disciplined_bind {A B} final mid σ h (p : Prog Slot A) (f : A -> Prog Slot B) :
  disciplined mid σ h p ->
  (forall a σ', disciplined final σ' mid (f a)) ->
  disciplined final σ h (p ≫= f).
Proof.
  intros Hd Hf.
  induction Hd as [σ a|σ k Hk IH|σ k Hk IH|σ k Hk IH|σ k Hk IH|σ s k Hk IH
                  |σ h s k Hh Hk IH|σ h s i e k Hh He Hk IH|σ h s k Hh Hk IH
                  |σ s v k Hv Hk IH|σ kd k Hk IH|σ c k Hk IH].
  - apply Hf.
  - apply disc_RLock. intros σ'. apply IH.
  - apply disc_RUnlock. intros σ'. apply IH.
  - apply disc_Lock. intros σ'. apply IH.
  - apply disc_Unlock. intros σ'. apply IH.
  - apply disc_Len_free. intros n σ'. apply IH.
  - apply disc_Len_held; [done|]. apply IH.
  - apply (disc_Index _ _ _ _ _ e); [done|done|]. apply IH.
  - apply disc_Load; [done|]. apply IH.
  - apply disc_Store; [done|]. apply IH.
  - apply disc_New. intros σ'. apply IH.
  - apply disc_Invoke. apply IH.
Qed.
End Discipline.

Section Bodies.
Context {Slot : Type} `{EqDecision Slot}.

Lemma disciplined_AddHandler σ (s : Slot) h :
  disciplined HoldsNone σ HoldsNone (AddHandler s h).
Proof.
  destruct h as [d|]; [|constructor].
  apply disc_Lock. intros σ1. apply disc_Load; [done|].
  apply disc_Store; [left; by eexists|]. apply disc_Unlock. intros σ2. constructor.
Qed.

Lemma take_drop_remove_first h (l : list Handler) i e :
  l !! i = Some e -> iface_eq e h = true ->
  (forall j e', (j < i)%nat -> l !! j = Some e' -> iface_eq e' h = false) ->
  take i l ++ drop (S i) l = remove_first h l.
Proof.
  revert i. induction l as [|x l IH]; intros i Hi He Hbefore; [done|].
  destruct i as [|i]; cbn in *.
  - simplify_eq. by rewrite He, drop_0.
  - rewrite (Hbefore 0%nat x) by (done || lia). f_equal. apply IH; [done|done|].
    intros j e' Hj He'. apply (Hbefore (S j)); [lia|done].
Qed.

Lemma disciplined_remove_loop σ (s : Slot) h n i :
  (i + n = length (σ s))%nat ->
  (forall j e', (j < i)%nat -> σ s !! j = Some e' -> iface_eq e' h = false) ->
  disciplined HoldsWrite σ HoldsWrite (remove_loop s h n i).
Proof.
  revert i. induction n as [|n IH]; intros i Hn Hbefore.
  - constructor.
  - destruct (lookup_lt_is_Some_2 (σ s) i) as [e He]; [lia|].
    apply (disc_Index _ _ _ _ _ e); [done|done|].
    cbn. destruct (iface_eq e h) eqn:Heq.
    + apply disc_Load; [done|]. apply disc_Load; [done|].
      apply disc_Store; [|constructor].
      right. exists h. by apply (take_drop_remove_first h (σ s) i e).
    + apply IH; [lia|]. intros j e' Hj He'.
      destruct (decide (j = i)) as [->|Hne]; [by simplify_eq|].
      apply (Hbefore j); [lia|done].
Qed.

Lemma disciplined_RemoveHandler σ (s : Slot) h :
  disciplined HoldsNone σ HoldsNone (RemoveHandler s h).
Proof.
  apply disc_Lock. intros σ1. apply disc_Len_held; [done|].
  apply (disciplined_bind HoldsNone HoldsWrite).
  - apply disciplined_remove_loop; [done|intros; lia].
  - intros _ σ2. apply disc_Unlock. intros σ3. constructor.
Qed.

Lemma disciplined_range_call σ (s : Slot) call n i :
  (i + n = length (σ s))%nat ->
  disciplined HoldsRead σ HoldsRead (range_call s call n i).
Proof.
  revert i. induction n as [|n IH]; intros i Hn.
  - constructor.
  - destruct (lookup_lt_is_Some_2 (σ s) i) as [e He]; [lia|].
    apply (disc_Index _ _ _ _ _ e); [done|done|].
    apply disc_Invoke. apply IH. lia.
Qed.

Lemma disciplined_fan_out σ (s : Slot) call :
  disciplined HoldsNone σ HoldsNone (fan_out s call).
Proof.
  apply disc_RLock. intros σ1. apply disc_Len_held; [done|].
  apply (disciplined_bind HoldsNone HoldsRead).
  - by apply disciplined_range_call.
  - intros _ σ2. apply disc_RUnlock. intros σ3. constructor.
Qed.

Lemma disciplined_guarded_fan_out {A} σ (s : Slot) kd call (a : A) :
  disciplined HoldsNone σ HoldsNone
    (n ← act (Len s);
     if decide (0 < n)%nat then act (New kd);; fan_out s call;; mret a else mret a).
Proof.
  apply disc_Len_free. intros n σ1.
  change (disciplined HoldsNone σ1 HoldsNone
            (if decide (0 < n)%nat then act (New kd);; fan_out s call;; mret a
             else mret a)).
  destruct (decide (0 < n)%nat); [|constructor].
  apply disc_New. intros σ2.
  change (disciplined HoldsNone σ2 HoldsNone (fan_out s call;; mret a)).
  apply (disciplined_bind HoldsNone HoldsNone); [apply disciplined_fan_out|].
  intros _ σ3. constructor.
Qed.
End Bodies.

Lemma disciplined_SessionLock_Dispatch σ event :
  disciplined HoldsNone σ HoldsNone (SessionLock_Dispatch event).
Proof.
  unfold SessionLock_Dispatch.
  repeat case_decide; try apply disciplined_guarded_fan_out; constructor.
Qed.

Lemma disciplined_SessionLock_calls σ (cs : list (Call LockSlot)) :
  disciplined HoldsNone σ HoldsNone (SessionLock_calls cs).
Proof.
  revert σ. induction cs as [|c cs IH]; intros σ; [constructor|].
  unfold SessionLock_calls in *. cbn [sequence].
  apply (disciplined_bind HoldsNone HoldsNone); [|intros _ σ'; apply IH].
  destruct c as [s h|s h|event]; cbn [call_prog].
  - apply disciplined_AddHandler.
  - apply disciplined_RemoveHandler.
  - apply (disciplined_bind HoldsNone HoldsNone);
      [apply disciplined_SessionLock_Dispatch|intros; constructor].
Qed.

Section Holders.
Context {Slot : Type}.
Implicit Types ths : list (Thread Slot).

Lemma holders_cons h (th : Thread Slot) ths :
  holders h (th :: ths) = ((if decide (holds th = h) then 1 else 0) + holders h ths)%nat.
Proof. unfold holders. rewrite filter_cons. by case_decide. Qed.

Lemma holders_insert h ths i (th th' : Thread Slot) :
  ths !! i = Some th ->
  (holders h (<[i := th']> ths) + (if decide (holds th = h) then 1 else 0)
   = holders h ths + (if decide (holds th' = h) then 1 else 0))%nat.
Proof.
  revert i. induction ths as [|x ths IH]; intros i Hi; [done|].
  destruct i as [|i]; cbn in Hi.
  - simplify_eq. change (<[0%nat := th']> (th :: ths)) with (th' :: ths).
    rewrite !holders_cons. lia.
  - change (<[S i := th']> (x :: ths)) with (x :: <[i := th']> ths).
    rewrite !holders_cons. specialize (IH i Hi). lia.
Qed.

Lemma holders_lookup h ths i (th : Thread Slot) :
  ths !! i = Some th -> holds th = h -> (0 < holders h ths)%nat.
Proof.
  revert i. induction ths as [|x ths IH]; intros i Hi Hh; [done|].
  rewrite holders_cons. destruct i as [|i]; cbn in Hi.
  - simplify_eq. rewrite decide_True by done. lia.
  - specialize (IH i Hi Hh). lia.
Qed.

Lemma holders_unique h ths i j (thi thj : Thread Slot) :
  holders h ths = 1%nat ->
  ths !! i = Some thi -> holds thi = h -> ths !! j = Some thj -> holds thj = h -> i = j.
Proof.
  revert i j. induction ths as [|x ths IH]; intros i j H1 Hi Hhi Hj Hhj; [done|].
  rewrite holders_cons in H1.
  destruct i as [|i], j as [|j]; cbn in Hi, Hj; try done.
  - injection Hi as ->. rewrite decide_True in H1 by done.
    pose proof (holders_lookup h _ _ _ Hj Hhj). lia.
  - injection Hj as ->. rewrite decide_True in H1 by done.
    pose proof (holders_lookup h _ _ _ Hi Hhi). lia.
  - f_equal. apply IH; try done. case_decide; [|done].
    pose proof (holders_lookup h _ _ _ Hi Hhi). lia.
Qed.
End Holders.

Section Preservation.
Context {T Slot : Type} `{ObjectLaws T Slot}.

Lemma slots_of_set_mu m (t : T) s : slots_of (obj_set_mu m t) s = slots_of t s.
Proof. apply obj_slot_set_mu. Qed.

Lemma slots_of_set_slot s v (t : T) s' :
  set_slot s v (slots_of t) s' = slots_of (obj_set_slot s v t) s'.
Proof. unfold set_slot, slots_of. by rewrite obj_slot_set_slot. Qed.

(** What one step of a goroutine at a disciplined point is. *)
Lemma disciplined_step (th th' : Thread Slot) (t t' : T) :
  disciplined HoldsNone (slots_of t) (holds th) (code th) ->
  thread_step th t = Steps th' t' ->
  disciplined HoldsNone (slots_of t') (holds th') (code th')
  /\ ((holds th = HoldsNone /\ holds th' = HoldsRead /\ writer (obj_mu t) = false
       /\ t' = obj_set_mu {| readers := S (readers (obj_mu t)); writer := false |} t)
      \/ (holds th = HoldsRead /\ holds th' = HoldsNone
          /\ exists n, readers (obj_mu t) = S n
                       /\ t' = obj_set_mu {| readers := n; writer := writer (obj_mu t) |} t)
      \/ (holds th = HoldsNone /\ holds th' = HoldsWrite /\ writer (obj_mu t) = false
          /\ readers (obj_mu t) = 0%nat /\ t' = obj_set_mu mu_writer t)
      \/ (holds th = HoldsWrite /\ holds th' = HoldsNone /\ writer (obj_mu t) = true
          /\ t' = obj_set_mu {| readers := readers (obj_mu t); writer := false |} t)
      \/ (holds th' = holds th /\ t' = t)
      \/ (holds th = HoldsWrite /\ holds th' = HoldsWrite
          /\ exists s v, atomic_update (obj_slot s t) v /\ t' = obj_set_slot s v t)).
Proof.
  destruct th as [p h]. cbn [code holds]. intros Hd Hstep.
  unfold thread_step in Hstep. cbn [code holds] in Hstep.
  remember (slots_of t) as σ eqn:Hσ.
  destruct Hd as [σ a|σ k Hk|σ k Hk|σ k Hk|σ k Hk|σ s k Hk
                  |σ h s k Hh Hk|σ h s i e k Hh He Hk|σ h s k Hh Hk
                  |σ s v k Hv Hk|σ kd k Hk|σ c k Hk]; subst σ.
  - done.
  - cbn in Hstep. unfold RWMutex_RLock in Hstep.
    destruct (writer (obj_mu t)) eqn:Hw; [done|]. cbn in Hstep. simplify_eq. cbn.
    split; [apply Hk|]. left. done.
  - cbn in Hstep. unfold RWMutex_RUnlock in Hstep.
    destruct (readers (obj_mu t)) as [|n] eqn:Hr; [done|]. cbn in Hstep. simplify_eq. cbn.
    split; [apply Hk|]. right; left. eauto.
  - cbn in Hstep. unfold RWMutex_Lock in Hstep.
    destruct (writer (obj_mu t)) eqn:Hw; [done|].
    destruct (readers (obj_mu t)) as [|n] eqn:Hr; [|done]. cbn in Hstep. simplify_eq. cbn.
    split; [apply Hk|]. right; right; left. done.
  - cbn in Hstep. unfold RWMutex_Unlock in Hstep.
    destruct (writer (obj_mu t)) eqn:Hw; [|done]. cbn in Hstep. simplify_eq. cbn.
    split; [apply Hk|]. right; right; right; left. done.
  - cbn in Hstep. simplify_eq. cbn. split; [apply Hk|]. do 4 right. left. done.
  - cbn in Hstep. simplify_eq. cbn. split; [apply Hk|]. do 4 right. left. done.
  - cbn in Hstep. unfold slots_of in He. rewrite He in Hstep. simplify_eq. cbn.
    split; [apply Hk|]. do 4 right. left. done.
  - cbn in Hstep. simplify_eq. cbn. split; [apply Hk|]. do 4 right. left. done.
  - cbn in Hstep. simplify_eq. cbn. split.
    + eapply disciplined_ext; [|exact Hk]. apply slots_of_set_slot.
    + do 5 right. split; [done|]. split; [done|]. by exists s, v.
  - cbn in Hstep. simplify_eq. cbn. split; [apply Hk|]. do 4 right. left. done.
  - cbn in Hstep. simplify_eq. cbn. split; [apply Hk|]. do 4 right. left. done.
Qed.
End Preservation.

Section PoolInvariant.
Context {T Slot : Type} `{ObjectLaws T Slot}.

Lemma pool_inv_init (t : T) (ps : list (Prog Slot unit)) :
  quiescent t ->
  Forall (fun p => forall σ, disciplined HoldsNone σ HoldsNone p) ps ->
  pool_inv {| shared := t; threads := map start ps |}.
Proof.
  intros Hq Hps.
  assert (Hnone : forall h, h <> HoldsNone -> holders h (map start ps) = 0%nat).
  { intros h Hh. induction ps as [|p ps IH]; [done|].
    cbn [map]. rewrite holders_cons. cbn. rewrite decide_False by done.
    apply IH. by apply Forall_cons in Hps as [_ ?]. }
  split; cbn [shared threads].
  - rewrite Hq. by rewrite Hnone.
  - left. rewrite Hq. split; [done|]. by apply Hnone.
  - apply Forall_map. eapply Forall_impl; [exact Hps|]. intros p Hp. apply Hp.
Qed.

Lemma pool_inv_step (P P' : Pool T Slot) :
  pool_inv P -> pool_step P P' -> pool_inv P'.
Proof.
  intros [Hr Hw Hths] Hstep. destruct Hstep as [P i th th' t' Hi Hstep].
  pose proof (proj1 (Forall_lookup _ _) Hths i th Hi) as Hd. cbn beta in Hd.
  destruct (disciplined_step th th' (shared P) t' Hd Hstep) as [Hd' Hkind].
  pose proof (holders_insert HoldsRead _ _ _ th' Hi) as HR.
  pose proof (holders_insert HoldsWrite _ _ _ th' Hi) as HW.
  assert (Hothers : forall σ',
             (forall j thj, j <> i -> threads P !! j = Some thj ->
                            disciplined HoldsNone σ' (holds thj) (code thj)) ->
             disciplined HoldsNone σ' (holds th') (code th') ->
             Forall (fun th0 => disciplined HoldsNone σ' (holds th0) (code th0))
               (<[i := th']> (threads P))).
  { intros σ' Hj Hi'. apply Forall_lookup. intros j thj Hlook.
    destruct (decide (j = i)) as [->|Hne].
    - rewrite list_lookup_insert_eq in Hlook by (by eapply lookup_lt_Some).
      by simplify_eq.
    - rewrite list_lookup_insert_ne in Hlook by done. by eapply Hj. }
  destruct Hkind as [(Hh & Hh' & Hwf & ->)|[(Hh & Hh' & n & Hrn & ->)
                    |[(Hh & Hh' & Hwf & Hr0 & ->)|[(Hh & Hh' & Hwt & ->)
                    |[(Hh' & ->)|(Hh & Hh' & s & v & Hv & ->)]]]]];
    rewrite ?Hh, ?Hh' in HR, HW;
    repeat match goal with
           | Hc : context [decide (?a = ?b)] |- _ =>
               match a with
               | HoldsNone => idtac | HoldsRead => idtac | HoldsWrite => idtac
               end;
               destruct (decide (a = b)); try done
           end.
  - (* RLock *)
    destruct Hw as [[_ Hw0]|[Hwt _]]; [|congruence].
    split; cbn [shared threads]; rewrite ?obj_mu_set_mu; cbn [readers writer].
    + lia.
    + left. split; [done|lia].
    + apply Hothers; [|done]. intros j thj _ Hj.
      eapply disciplined_ext; [|exact (proj1 (Forall_lookup _ _) Hths j thj Hj)].
      intros s. by rewrite slots_of_set_mu.
  - (* RUnlock *)
    split; cbn [shared threads]; rewrite ?obj_mu_set_mu; cbn [readers writer].
    + lia.
    + destruct Hw as [[Hwf Hw0]|(Hwt & Hw1 & Hr0)]; [left; split; [done|lia]|lia].
    + apply Hothers; [|done]. intros j thj _ Hj.
      eapply disciplined_ext; [|exact (proj1 (Forall_lookup _ _) Hths j thj Hj)].
      intros s. by rewrite slots_of_set_mu.
  - (* Lock *)
    destruct Hw as [[_ Hw0]|[Hwt _]]; [|congruence].
    split; cbn [shared threads]; rewrite ?obj_mu_set_mu; cbn [readers writer mu_writer].
    + lia.
    + right. split; [done|]. split; lia.
    + apply Hothers; [|done]. intros j thj _ Hj.
      eapply disciplined_ext; [|exact (proj1 (Forall_lookup _ _) Hths j thj Hj)].
      intros s. by rewrite slots_of_set_mu.
  - (* Unlock *)
    destruct Hw as [[Hwf _]|(_ & Hw1 & Hr0)]; [congruence|].
    split; cbn [shared threads]; rewrite ?obj_mu_set_mu; cbn [readers writer].
    + lia.
    + left. split; [done|lia].
    + apply Hothers; [|done]. intros j thj _ Hj.
      eapply disciplined_ext; [|exact (proj1 (Forall_lookup _ _) Hths j thj Hj)].
      intros s. by rewrite slots_of_set_mu.
  - (* no change of the proxy *)
    assert (HR' : holders HoldsRead (<[i := th']> (threads P))
                  = holders HoldsRead (threads P)) by lia.
    assert (HW' : holders HoldsWrite (<[i := th']> (threads P))
                  = holders HoldsWrite (threads P)) by lia.
    split; cbn [shared threads]; rewrite ?HR', ?HW'; try done.
    apply Hothers; [|done]. intros j thj _ Hj.
    exact (proj1 (Forall_lookup _ _) Hths j thj Hj).
  - (* Store *)
    pose proof (holders_lookup HoldsWrite _ _ _ Hi Hh) as Hpos.
    destruct Hw as [[_ Hw0]|(Hwt & Hw1 & Hr0)]; [lia|].
    split; cbn [shared threads]; rewrite ?obj_mu_set_slot.
    + lia.
    + right. split; [done|]. split; lia.
    + apply Hothers; [|done]. intros j thj Hne Hj.
      pose proof (proj1 (Forall_lookup _ _) Hths j thj Hj) as Hdj. cbn beta in Hdj.
      destruct (holds thj) eqn:Hhj.
      * by eapply disciplined_free.
      * pose proof (holders_lookup HoldsRead _ _ _ Hj Hhj). lia.
      * exfalso. apply Hne. by eapply (holders_unique HoldsWrite).
Qed.
End PoolInvariant.

Section Guarded.
Context {T Slot : Type} `{ObjectLaws T Slot}.

Lemma pool_inv_reachable (P0 P : Pool T Slot) :
  pool_inv P0 -> rtc pool_step P0 P -> pool_inv P.
Proof. intros H0' Hrtc. induction Hrtc; eauto using pool_inv_step. Qed.

Lemma disciplined_points final σ h (p : Prog Slot unit) :
  disciplined final σ h p ->
  (calls_listener {| code := p; holds := h |} -> h = HoldsRead)
  /\ (reads_slice {| code := p; holds := h |} -> h <> HoldsNone)
  /\ (assigns_slice {| code := p; holds := h |} -> h = HoldsWrite).
Proof. intros Hd. destruct Hd; cbn; by repeat split. Qed.

Lemma pool_inv_guarded (P : Pool T Slot) : pool_inv P -> guarded P.
Proof.
  intros [Hr Hw Hths]. unfold guarded.
  assert (Hexcl : forall i j thi thj,
             threads P !! i = Some thi -> threads P !! j = Some thj -> i <> j ->
             holds thi = HoldsWrite -> holds thj = HoldsNone).
  { intros i j thi thj Hi Hj Hne Hhi.
    pose proof (holders_lookup HoldsWrite _ _ _ Hi Hhi) as Hpos.
    destruct Hw as [[_ Hw0]|(_ & Hw1 & Hr0)]; [lia|].
    destruct (holds thj) eqn:Hhj; [done| |].
    - pose proof (holders_lookup HoldsRead _ _ _ Hj Hhj). lia.
    - exfalso. apply Hne. by eapply (holders_unique HoldsWrite). }
  split; [|split; [exact Hexcl|split; [exact Hr|split]]].
  - intros i [p h] Hi.
    pose proof (proj1 (Forall_lookup _ _) Hths i _ Hi) as Hd. cbn [code holds] in Hd.
    destruct (disciplined_points _ _ _ _ Hd) as (Hc & Hrd & Hst).
    split; [exact Hc|]. split; [exact Hrd|]. split; [exact Hst|].
    unfold thread_step. cbn [code holds].
    remember (slots_of (shared P)) as σ eqn:Hσ.
    destruct Hd as [σ a|σ k Hk|σ k Hk|σ k Hk|σ k Hk|σ s k Hk
                    |σ h s k Hh Hk|σ h s i' e k Hh He Hk|σ h s k Hh Hk
                    |σ s v k Hv Hk|σ kd k Hk|σ c k Hk]; subst σ; try done.
    + cbn. unfold RWMutex_RLock. by destruct (writer _).
    + cbn. unfold RWMutex_RUnlock.
      pose proof (holders_lookup HoldsRead _ _ _ Hi eq_refl) as Hpos.
      destruct (readers (obj_mu (shared P))); [lia|done].
    + cbn. unfold RWMutex_Lock. destruct (writer _); [done|]. by destruct (readers _).
    + cbn. unfold RWMutex_Unlock.
      pose proof (holders_lookup HoldsWrite _ _ _ Hi eq_refl) as Hpos.
      destruct Hw as [[_ Hw0]|(-> & _)]; [lia|done].
    + cbn. unfold slots_of in He. by rewrite He.
  - by destruct Hw as [[-> ?]|(-> & ? & _)].
  - intros i th th' t' Hi Hstep.
    pose proof (proj1 (Forall_lookup _ _) Hths i th Hi) as Hd. cbn beta in Hd.
    destruct (disciplined_step th th' (shared P) t' Hd Hstep) as [_ Hkind].
    destruct Hkind as [(Hh & Hh' & Hwf & ->)|[(Hh & Hh' & n & Hrn & ->)
                      |[(Hh & Hh' & Hwf & Hr0 & ->)|[(Hh & Hh' & Hwt & ->)
                      |[(Hh' & ->)|(Hh & Hh' & s & v & Hv & ->)]]]]];
      try (split; [intros s; left|intros j thj _ _ _ s]; by rewrite ?obj_slot_set_mu).
    split.
    + intros s'. rewrite obj_slot_set_slot. destruct (decide (s = s')) as [->|]; [|by left].
      right. done.
    + intros j thj Hne Hj Hhj. exfalso. apply Hhj. by eapply (Hexcl i j).
Qed.
End Guarded.

Lemma disciplined_SessionLockSurface_Dispatch σ event :
  configure_payload event ->
  disciplined HoldsNone σ HoldsNone (SessionLockSurface_Dispatch event).
Proof.
  intros Hp. unfold SessionLockSurface_Dispatch.
  destruct (decide (Opcode event = SurfaceEventConfigure)) as [Hop|]; [|constructor].
  specialize (Hp Hop).
  destruct (Data event) as [|serial [|width [|height rest]]] eqn:Hdata;
    cbn in Hp; try lia.
  apply disc_Len_free. intros n σ1.
  change (disciplined HoldsNone σ1 HoldsNone
            (if decide (0 < n)%nat then
               act (New KConfigure);;
               match Uint32 event with
               | None => Panic
               | Some (serial, event1) =>
                   match Uint32 event1 with
                   | None => Panic
                   | Some (width, event2) =>
                       match Uint32 event2 with
                       | None => Panic
                       | Some (height, event3) =>
                           fan_out Configure
                             (fun h => HandleSessionLockSurfaceConfigure h
                                {| Serial := serial; Width := width; Height := height |});;
                           mret event3
                       end
                   end
               end
             else mret event)).
  destruct (decide (0 < n)%nat); [|constructor].
  apply disc_New. intros σ2. unfold Uint32 at 1. rewrite Hdata. unfold Uint32.
  cbn [Data].
  apply (disciplined_bind HoldsNone HoldsNone); [apply disciplined_fan_out|].
  intros _ σ3. constructor.
Qed.

Lemma disciplined_SessionLockSurface_calls σ (cs : list (Call SurfaceSlot)) :
  configure_payloads cs ->
  disciplined HoldsNone σ HoldsNone (SessionLockSurface_calls cs).
Proof.
  intros Hcs. revert σ. induction Hcs as [|c cs Hc Hcs IH]; intros σ; [constructor|].
  unfold SessionLockSurface_calls in *. cbn [sequence].
  apply (disciplined_bind HoldsNone HoldsNone); [|intros _ σ'; apply IH].
  destruct c as [s h|s h|event]; cbn [call_prog].
  - apply disciplined_AddHandler.
  - apply disciplined_RemoveHandler.
  - apply (disciplined_bind HoldsNone HoldsNone);
      [by apply disciplined_SessionLockSurface_Dispatch|intros; constructor].
Qed.

Section RemoveTrace.
Context {T Slot : Type} `{ObjectLaws T Slot}.

Lemma run_remove_loop_trace s h n i (t : T) :
  Forall slice_access (run (remove_loop s h n i) t).1.
Proof.
  revert i t. induction n as [|n IH]; intros i t; [constructor|].
  cbn. destruct (obj_slot s t !! i) as [e|]; [|constructor]. cbn.
  apply Forall_cons. split; [done|].
  destruct (iface_eq e h); [|apply IH].
  cbn. by repeat constructor.
Qed.

Lemma run_act_Unlock (t : T) :
  obj_mu t = mu_writer ->
  run (act MuUnlock) t = ([EUnlock], Returned tt (obj_set_mu mu_zero t)).
Proof. intros Hm. cbn. by rewrite Hm. Qed.

Lemma run_RemoveHandler_trace s h (t : T) :
  quiescent t ->
  exists tr, (run (RemoveHandler s h) t).1 = ELock :: tr ++ [EUnlock]
             /\ Forall slice_access tr.
Proof.
  intros Hq.
  destruct (run_remove_loop s h (obj_slot s t) (length (obj_slot s t)) 0
              (obj_set_mu mu_writer t)) as [R1 _];
    [by rewrite obj_slot_set_mu|lia|].
  exists (ELen s (length (obj_slot s t))
            :: (run (remove_loop s h (length (obj_slot s t)) 0) (obj_set_mu mu_writer t)).1).
  split; [|apply Forall_cons; split; [done|apply run_remove_loop_trace]].
  unfold RemoveHandler.
  change (run (act MuLock;; n ← act (Len s); remove_loop s h n 0;; act MuUnlock) t)
    with (match perform MuLock t with
          | Yields r t' =>
              after ELock (run (n ← act (Len s); remove_loop s h n 0;; act MuUnlock) t')
          | WouldBlock => ([], Deadlocked)
          | Fatal => ([], Panicked)
          end).
  rewrite (perform_Lock t Hq).
  change (run (n ← act (Len s); remove_loop s h n 0;; act MuUnlock) (obj_set_mu mu_writer t))
    with (after (ELen s (length (obj_slot s (obj_set_mu mu_writer t))))
            (run (remove_loop s h (length (obj_slot s (obj_set_mu mu_writer t))) 0;;
                  act MuUnlock) (obj_set_mu mu_writer t))).
  rewrite obj_slot_set_mu, run_bind. unfold then_run, after. rewrite R1. cbn [fst snd].
  rewrite run_act_Unlock by (by rewrite obj_mu_set_slot, obj_mu_set_mu).
  done.
Qed.
End RemoveTrace.

Section Schedules.
Context {T Slot : Type} `{ObjectLaws T Slot}.

Lemma pool_sched_reachable (P : Pool T Slot) i : rtc pool_step P (pool_sched P i).
Proof.
  unfold pool_sched. destruct (threads P !! i) as [th|] eqn:Hi; [|done].
  destruct (thread_step th (shared P)) as [th' t'| | |] eqn:Hstep; try done.
  apply rtc_once. by econstructor.
Qed.

Lemma pool_run_reachable (P : Pool T Slot) schedule :
  rtc pool_step P (pool_run P schedule).
Proof.
  revert P. induction schedule as [|i schedule IH]; intros P; [done|].
  cbn. etrans; [apply pool_sched_reachable|apply IH].
Qed.
End Schedules.

(** C6 (the listener slices are guarded by the read-write mutex).  Take any
    number of goroutines, each making any sequence of add, remove and
    dispatch calls on one lock (or on one lock surface, the "configure"
    events carrying their fields), interleaved operation by operation in any
    way, from a state in which nobody holds the mutex.  In every state they
    reach: a goroutine that is about to call a listener holds the read lock,
    one that is about to read a slice or an element of it holds the mutex,
    one that is about to assign a slice holds the write lock, and a holder
    of the write lock is the only holder, so that a slice is never iterated
    while it is assigned; no operation faults (no index out of range, no
    release of a mutex that is not held); and the slices change only by
    complete adds and removes, never while another goroutine holds the
    mutex.  Called alone, the fan-out is bracketed by [RLock] and [RUnlock],
    an add and a remove by [Lock] and [Unlock]. *)
Theorem listeners_guarded_by_rwmutex
    (l : SessionLock) (callers : list (list (Call LockSlot)))
    (P : Pool SessionLock LockSlot)
    (sf : SessionLockSurface) (callers' : list (list (Call SurfaceSlot)))
    (P' : Pool SessionLockSurface SurfaceSlot)
    (s : LockSlot) (call : Handler -> HandlerCall) (d : Handler) (h : iface) :
  quiescent l -> quiescent sf -> Forall configure_payloads callers' ->
  rtc pool_step
    {| shared := l; threads := map (fun cs => start (SessionLock_calls cs)) callers |} P ->
  rtc pool_step
    {| shared := sf;
       threads := map (fun cs => start (SessionLockSurface_calls cs)) callers' |} P' ->
  guarded P /\ guarded P'
  /\ run (fan_out s call) l
     = ([ERLock; ELen s (length (obj_slot s l))]
          ++ range_trace s call (obj_slot s l) 0 ++ [ERUnlock],
        Returned tt l)
  /\ run (AddHandler s (Some d)) l
     = ([ELock; ELoad s (obj_slot s l); EStore s (obj_slot s l ++ [d]); EUnlock],
        Returned tt (obj_set_slot s (obj_slot s l ++ [d]) l))
  /\ (exists tr, (run (RemoveHandler s h) l).1 = ELock :: tr ++ [EUnlock]
                 /\ Forall slice_access tr).
Proof.
  intros Hl Hsf Hcs Hreach Hreach'.
  split; [|split; [|split; [|split]]].
  - apply pool_inv_guarded. eapply pool_inv_reachable; [|exact Hreach].
    rewrite <- (map_map SessionLock_calls start).
    apply pool_inv_init; [done|]. apply Forall_map, Forall_forall.
    intros cs _ σ. apply disciplined_SessionLock_calls.
  - apply pool_inv_guarded. eapply pool_inv_reachable; [|exact Hreach'].
    rewrite <- (map_map SessionLockSurface_calls start).
    apply pool_inv_init; [done|]. apply Forall_map.
    eapply Forall_impl; [exact Hcs|]. intros cs Hp σ.
    by apply disciplined_SessionLockSurface_calls.
  - apply run_fan_out. by rewrite Hl.
  - by apply run_AddHandler_Some.
  - by apply run_RemoveHandler_trace.
Qed.

(** The dispatching goroutine of the sample pool, stopped in its fan-out,
    holds the read lock, and the removing goroutine waits for the write
    lock. *)
Lemma listeners_guarded_by_rwmutex_witness :
  quiescent sample_lock /\ quiescent sample_surface
  /\ Forall configure_payloads
       [[CallDispatch sample_configure_event];
        [CallAdd Configure (Some surface_handler_a)]]
  /\ rtc pool_step sample_pool sample_pool_in_fan_out
  /\ rtc pool_step sample_surface_pool sample_surface_pool
  /\ guarded sample_pool_in_fan_out
  /\ (holds <$> threads sample_pool_in_fan_out) = [HoldsRead; HoldsNone]
  /\ (flip thread_step (shared sample_pool_in_fan_out) <$> threads sample_pool_in_fan_out) !! 1%nat
     = Some Waits.
Proof.
  assert (Hp : Forall configure_payloads
                 [[CallDispatch sample_configure_event];
                  [CallAdd Configure (Some surface_handler_a)]]).
  { repeat constructor. }
  assert (Hr : rtc pool_step sample_pool sample_pool_in_fan_out)
    by apply pool_run_reachable.
  assert (Hr' : rtc pool_step sample_surface_pool sample_surface_pool) by reflexivity.
  split; [reflexivity|]. split; [reflexivity|]. split; [exact Hp|].
  split; [exact Hr|]. split; [exact Hr'|].
  split; [|split; reflexivity].
  exact (proj1 (listeners_guarded_by_rwmutex sample_lock _ sample_pool_in_fan_out
                  sample_surface _ sample_surface_pool Locked locked_call client_a None
                  eq_refl eq_refl Hp Hr Hr')).
Defined.

(** * Further properties of the binding *)

(** ** Adding and removing in a row *)

Lemma remove_first_app_new (h : Handler) (l : list Handler) :
  remove_first (Some h) (l ++ [h])
  = if bool_decide (h ∈ l) then remove_first (Some h) l ++ [h] else l.
Proof.
  induction l as [|e l IH]; cbn.
  - unfold iface_eq. by rewrite bool_decide_eq_true_2.
  - unfold iface_eq. destruct (decide (e = h)) as [->|Hne].
    + rewrite bool_decide_eq_true_2 by done.
      rewrite bool_decide_eq_true_2 by apply list_elem_of_here. done.
    + rewrite bool_decide_eq_false_2 by congruence.
      rewrite IH. destruct (decide (h ∈ l)) as [Hin|Hnin].
      * rewrite !bool_decide_eq_true_2; [done|by apply list_elem_of_further|done].
      * rewrite !bool_decide_eq_false_2; [done| |done].
        intros [?|?]%elem_of_cons; congruence.
Qed.

Section AddThenRemove.
Context {T Slot : Type} `{ObjectLaws T Slot}.

Lemma run_add_then_remove (s : Slot) (h : Handler) (t : T) :
  (forall v v', obj_set_slot s v' (obj_set_slot s v t) = obj_set_slot s v' t) ->
  quiescent t ->
  (run (AddHandler s (Some h);; RemoveHandler s (Some h)) t).2
  = Returned tt
      (if bool_decide (h ∈ obj_slot s t)
       then obj_set_slot s (remove_first (Some h) (obj_slot s t) ++ [h]) t
       else t).
Proof.
  intros Hss Hq.
  assert (Hq' : quiescent (obj_set_slot s (obj_slot s t ++ [h]) t))
    by (by apply quiescent_set_slot).
  destruct (run_RemoveHandler s (Some h) _ Hq') as [R1 _].
  rewrite run_bind, run_AddHandler_Some by done.
  unfold then_run. cbn [fst snd]. etrans; [exact R1|].
  rewrite obj_slot_set_slot, decide_True, Hss, remove_first_app_new by done.
  case_bool_decide; [done|]. by rewrite obj_set_slot_id.
Qed.
End AddThenRemove.

(** X1 (an add followed by a remove of the same listener).  On a lock or a
    lock surface nobody holds the mutex of, [Add*Handler] of a listener
    followed by [Remove*Handler] of the same listener returns.  It leaves
    the proxy exactly as it was when the listener was not registered
    before; when it was, the earliest registration is the one taken out and
    the new one stays at the end of the slice. *)
Theorem AddHandler_then_RemoveHandler
    (l : SessionLock) (s : LockSlot) (sf : SessionLockSurface) (h : Handler) :
  quiescent l -> quiescent sf ->
  (run (AddHandler s (Some h);; RemoveHandler s (Some h)) l).2
  = Returned tt
      (if bool_decide (h ∈ obj_slot s l)
       then obj_set_slot s (remove_first (Some h) (obj_slot s l) ++ [h]) l
       else l)
  /\ (run (SessionLockSurface_AddConfigureHandler (Some h);;
           SessionLockSurface_RemoveConfigureHandler (Some h)) sf).2
     = Returned tt
         (if bool_decide (h ∈ privateSessionLockSurfaceConfigure sf)
          then obj_set_slot Configure
                 (remove_first (Some h) (privateSessionLockSurfaceConfigure sf) ++ [h]) sf
          else sf).
Proof.
  intros Hl Hsf. split.
  - apply run_add_then_remove; [|done]. intros v v'. by destruct s, l.
  - assert (Hss : forall v v', obj_set_slot Configure v' (obj_set_slot Configure v sf)
                               = obj_set_slot Configure v' sf) by (by destruct sf).
    exact (run_add_then_remove Configure h sf Hss Hsf).
Qed.

(** On the sample lock, whose "locked" listeners are a, b, a: adding and
    removing c changes nothing, adding and removing a leaves b, a, a. *)
Lemma AddHandler_then_RemoveHandler_witness :
  quiescent sample_lock /\ quiescent sample_surface
  /\ (run (AddHandler Locked (Some client_c);; RemoveHandler Locked (Some client_c))
        sample_lock).2 = Returned tt sample_lock
  /\ (run (AddHandler Locked (Some client_a);; RemoveHandler Locked (Some client_a))
        sample_lock).2
     = Returned tt (obj_set_slot Locked [client_b; client_a; client_a] sample_lock).
Proof.
  split; [reflexivity|]. split; [reflexivity|]. split.
  - exact (proj1 (AddHandler_then_RemoveHandler sample_lock Locked sample_surface client_c
                    eq_refl eq_refl)).
  - exact (proj1 (AddHandler_then_RemoveHandler sample_lock Locked sample_surface client_a
                    eq_refl eq_refl)).
Defined.

(** ** Who waits, and that somebody can always go on *)

Section Progress.
Context {T Slot : Type} `{ObjectLaws T Slot}.

Lemma holders_none (h : Hold) (ths : list (Thread Slot)) :
  h <> HoldsNone -> Forall (fun th => holds th = HoldsNone) ths -> holders h ths = 0%nat.
Proof.
  intros Hh Hths. induction Hths as [|th ths Hth _ IH]; [done|].
  rewrite holders_cons, IH, decide_False; [done|congruence].
Qed.

Lemma pool_inv_lookup (P : Pool T Slot) i th :
  pool_inv P -> threads P !! i = Some th ->
  disciplined HoldsNone (slots_of (shared P)) (holds th) (code th).
Proof. intros [_ _ Hths] Hi. by eapply Forall_lookup_1 in Hths. Qed.

(** The mutex as a holder sees it. *)
Lemma pool_inv_held (P : Pool T Slot) i th :
  pool_inv P -> threads P !! i = Some th ->
  (holds th = HoldsRead ->
     writer (obj_mu (shared P)) = false /\ (0 < readers (obj_mu (shared P)))%nat)
  /\ (holds th = HoldsWrite -> writer (obj_mu (shared P)) = true).
Proof.
  intros [Hr Hw Hths] Hi. split; intros Hh.
  - pose proof (holders_lookup _ _ _ _ Hi Hh) as Hpos. rewrite Hr. split; [|done].
    destruct Hw as [[? _]|(_ & _ & Hz)]; [done|lia].
  - pose proof (holders_lookup _ _ _ _ Hi Hh) as Hpos.
    destruct Hw as [[_ Hz]|[? _]]; [lia|done].
Qed.

(** A goroutine that holds the mutex can perform its next operation. *)
Lemma holder_steps (P : Pool T Slot) i th :
  pool_inv P -> threads P !! i = Some th -> holds th <> HoldsNone ->
  exists th' t', thread_step th (shared P) = Steps th' t'.
Proof.
  intros Hinv Hi Hh.
  pose proof (pool_inv_lookup P i th Hinv Hi) as Hd.
  destruct (pool_inv_held P i th Hinv Hi) as [Hread Hwrite].
  destruct th as [p h]. cbn [code holds] in *. unfold thread_step. cbn [code holds].
  remember (slots_of (shared P)) as σ eqn:Hσ.
  destruct Hd as [σ a|σ k Hk|σ k Hk|σ k Hk|σ k Hk|σ s k Hk
                  |σ h s k Hh' Hk|σ h s i' e k Hh' He Hk|σ h s k Hh' Hk
                  |σ s v k Hv Hk|σ kd k Hk|σ c k Hk]; subst σ; try done.
  - destruct (Hread eq_refl) as [Hw Hr]. cbn. unfold RWMutex_RUnlock.
    destruct (readers (obj_mu (shared P))); [lia|]. cbn. eauto.
  - cbn. unfold RWMutex_Unlock. rewrite (Hwrite eq_refl). cbn. eauto.
  - cbn. eauto.
  - cbn. unfold slots_of in He. rewrite He. eauto.
  - cbn. eauto.
  - cbn. eauto.
  - cbn. eauto.
Qed.

(** While nobody holds the mutex, a goroutine that has not returned can
    perform its next operation. *)
Lemma free_steps (P : Pool T Slot) i th :
  pool_inv P -> Forall (fun th => holds th = HoldsNone) (threads P) ->
  threads P !! i = Some th ->
  thread_step th (shared P) = Exited
  \/ exists th' t', thread_step th (shared P) = Steps th' t'.
Proof.
  intros Hinv Hnone Hi.
  pose proof (pool_inv_lookup P i th Hinv Hi) as Hd.
  assert (Hh : holds th = HoldsNone) by (by eapply Forall_lookup_1 in Hnone).
  destruct Hinv as [Hr Hw _].
  rewrite (holders_none HoldsRead) in Hr by done.
  assert (Hw' : writer (obj_mu (shared P)) = false).
  { destruct Hw as [[? _]|(_ & Hone & _)]; [done|].
    rewrite (holders_none HoldsWrite) in Hone by done. lia. }
  destruct th as [p h]. cbn [code holds] in *. unfold thread_step. cbn [code holds].
  remember (slots_of (shared P)) as σ eqn:Hσ.
  destruct Hd as [σ a|σ k Hk|σ k Hk|σ k Hk|σ k Hk|σ s k Hk
                  |σ h s k Hh' Hk|σ h s i' e k Hh' He Hk|σ h s k Hh' Hk
                  |σ s v k Hv Hk|σ kd k Hk|σ c k Hk]; subst σ; try done.
  - by left.
  - right. cbn. unfold RWMutex_RLock. rewrite Hw'. cbn. eauto.
  - right. cbn. unfold RWMutex_Lock. rewrite Hw', Hr. cbn. eauto.
  - right. cbn. eauto.
  - right. cbn. eauto.
Qed.

Lemma pool_inv_progress (P : Pool T Slot) :
  pool_inv P -> all_returned P \/ exists Q, pool_step P Q.
Proof.
  intros Hinv.
  destruct (decide (Forall (fun th => holds th = HoldsNone) (threads P))) as [Hnone|Hsome].
  - assert (Hall : forall ths,
               (forall i th, ths !! i = Some th -> exists j, threads P !! j = Some th) ->
               Forall (fun th => thread_step th (shared P) = Exited) ths
               \/ exists Q, pool_step P Q).
    { induction ths as [|th ths IH]; intros Hsub; [by left|].
      destruct (Hsub 0%nat th eq_refl) as [j Hj].
      destruct (free_steps P j th Hinv Hnone Hj) as [Hex|(th' & t' & Hst)].
      - destruct IH as [IH|IH]; [|by left; constructor|by right].
        intros i th0 Hi. apply (Hsub (S i) th0 Hi).
      - right. eexists. by econstructor. }
    apply Hall. eauto.
  - apply not_Forall_Exists in Hsome; [|apply _].
    apply Exists_exists in Hsome as (th & Hin & Hh).
    apply list_elem_of_lookup in Hin as [i Hi].
    destruct (holder_steps P i th Hinv Hi Hh) as (th' & t' & Hst).
    right. eexists. by econstructor.
Qed.

(** A goroutine inside a critical section holds the mutex. *)
Lemma critical_holds (P : Pool T Slot) i th :
  pool_inv P -> threads P !! i = Some th -> in_critical_section th ->
  holds th <> HoldsNone.
Proof.
  intros Hinv Hi Hc.
  pose proof (pool_inv_lookup P i th Hinv Hi) as Hd.
  destruct th as [p h]. unfold in_critical_section in Hc. cbn [code holds] in *.
  destruct Hd; try done.
Qed.

Lemma lock_waits (P : Pool T Slot) i j thi thj :
  pool_inv P -> threads P !! i = Some thi -> threads P !! j = Some thj ->
  holds thi <> HoldsNone -> wants_write_lock thj ->
  thread_step thj (shared P) = Waits.
Proof.
  intros Hinv Hi Hj Hh Hwant.
  destruct (pool_inv_held P i thi Hinv Hi) as [Hread Hwrite].
  destruct thj as [p h]. unfold wants_write_lock in Hwant. unfold thread_step.
  cbn [code holds] in *.
  destruct p as [| |R a k]; try done. destruct a; try done.
  cbn. unfold RWMutex_Lock.
  destruct (holds thi); [done| |].
  - destruct (Hread eq_refl) as [-> Hr].
    by destruct (readers (obj_mu (shared P))); [lia|].
  - by rewrite (Hwrite eq_refl).
Qed.

Lemma rlock_waits (P : Pool T Slot) i j thi thj :
  pool_inv P -> threads P !! i = Some thi -> threads P !! j = Some thj ->
  holds thi = HoldsWrite -> wants_read_lock thj ->
  thread_step thj (shared P) = Waits.
Proof.
  intros Hinv Hi Hj Hh Hwant.
  destruct (pool_inv_held P i thi Hinv Hi) as [_ Hwrite].
  destruct thj as [p h]. unfold wants_read_lock in Hwant. unfold thread_step.
  cbn [code holds] in *.
  destruct p as [| |R a k]; try done. destruct a; try done.
  cbn. unfold RWMutex_RLock. by rewrite (Hwrite Hh).
Qed.
End Progress.

Lemma SessionLock_pool_inv l callers P :
  quiescent l -> rtc pool_step (SessionLock_pool l callers) P -> pool_inv P.
Proof.
  intros Hl Hreach. eapply pool_inv_reachable; [|exact Hreach].
  unfold SessionLock_pool. rewrite <- (map_map SessionLock_calls start).
  apply pool_inv_init; [done|]. apply Forall_map, Forall_forall.
  intros cs _ σ. apply disciplined_SessionLock_calls.
Qed.

Lemma SessionLockSurface_pool_inv sf callers P :
  quiescent sf -> Forall configure_payloads callers ->
  rtc pool_step (SessionLockSurface_pool sf callers) P -> pool_inv P.
Proof.
  intros Hsf Hcs Hreach. eapply pool_inv_reachable; [|exact Hreach].
  unfold SessionLockSurface_pool. rewrite <- (map_map SessionLockSurface_calls start).
  apply pool_inv_init; [done|]. apply Forall_map.
  eapply Forall_impl; [exact Hcs|]. intros cs Hp σ.
  by apply disciplined_SessionLockSurface_calls.
Qed.

(** X2 (who waits for whom).  Take any number of goroutines, each making
    any sequence of add, remove and dispatch calls on one lock (or on one
    lock surface), interleaved in any way from a state in which nobody holds
    the mutex.  In every state they reach, while one goroutine is inside a
    critical section (it is about to read or assign a slice, to call a
    listener, or to release the mutex), a goroutine whose next operation is
    [mu.Lock], the first operation of an add or a remove, cannot perform it;
    and while one goroutine is about to assign a slice, a goroutine whose
    next operation is [mu.RLock], the first operation of a fan-out, cannot
    perform it.  So an add or a remove started while listeners are being
    called takes effect only after the fan-out has released the mutex. *)
Theorem add_and_remove_wait_for_fan_out
    (l : SessionLock) (callers : list (list (Call LockSlot)))
    (P : Pool SessionLock LockSlot) (i j : nat) (thi thj : Thread LockSlot)
    (sf : SessionLockSurface) (callers' : list (list (Call SurfaceSlot)))
    (P' : Pool SessionLockSurface SurfaceSlot) (i' j' : nat)
    (thi' thj' : Thread SurfaceSlot) :
  quiescent l -> rtc pool_step (SessionLock_pool l callers) P ->
  threads P !! i = Some thi -> threads P !! j = Some thj ->
  quiescent sf -> Forall configure_payloads callers' ->
  rtc pool_step (SessionLockSurface_pool sf callers') P' ->
  threads P' !! i' = Some thi' -> threads P' !! j' = Some thj' ->
  (in_critical_section thi -> wants_write_lock thj -> thread_step thj (shared P) = Waits)
  /\ (assigns_slice thi -> wants_read_lock thj -> thread_step thj (shared P) = Waits)
  /\ (in_critical_section thi' -> wants_write_lock thj' ->
      thread_step thj' (shared P') = Waits)
  /\ (assigns_slice thi' -> wants_read_lock thj' -> thread_step thj' (shared P') = Waits).
Proof.
  intros Hl Hreach Hi Hj Hsf Hcs Hreach' Hi' Hj'.
  pose proof (SessionLock_pool_inv l callers P Hl Hreach) as Hinv.
  pose proof (SessionLockSurface_pool_inv sf callers' P' Hsf Hcs Hreach') as Hinv'.
  split; [|split; [|split]].
  - intros Hc Hw. eapply (lock_waits P i j); eauto using critical_holds.
  - intros Ha Hw. eapply (rlock_waits P i j); eauto.
    by apply (disciplined_points _ _ _ _ (pool_inv_lookup P i thi Hinv Hi)).
  - intros Hc Hw. eapply (lock_waits P' i' j'); eauto using critical_holds.
  - intros Ha Hw. eapply (rlock_waits P' i' j'); eauto.
    by apply (disciplined_points _ _ _ _ (pool_inv_lookup P' i' thi' Hinv' Hi')).
Qed.

(** In the sample pool the dispatching goroutine is about to call the first
    listener and the removing goroutine is about to take the write lock: it
    waits. *)
Lemma add_and_remove_wait_for_fan_out_witness :
  let thi := default (start (Ret tt)) (threads sample_pool_in_fan_out !! 0%nat) in
  let thj := start (SessionLock_calls [CallRemove Locked (Some client_b)]) in
  let thi' := start (SessionLockSurface_calls [CallDispatch sample_configure_event]) in
  let thj' := start (SessionLockSurface_calls
                       [CallAdd Configure (Some surface_handler_a)]) in
  quiescent sample_lock
  /\ rtc pool_step
       (SessionLock_pool sample_lock
          [[CallDispatch sample_locked_event]; [CallRemove Locked (Some client_b)]])
       sample_pool_in_fan_out
  /\ threads sample_pool_in_fan_out !! 0%nat = Some thi
  /\ threads sample_pool_in_fan_out !! 1%nat = Some thj
  /\ quiescent sample_surface
  /\ Forall configure_payloads
       [[CallDispatch sample_configure_event];
        [CallAdd Configure (Some surface_handler_a)]]
  /\ rtc pool_step
       (SessionLockSurface_pool sample_surface
          [[CallDispatch sample_configure_event];
           [CallAdd Configure (Some surface_handler_a)]])
       sample_surface_pool
  /\ threads sample_surface_pool !! 0%nat = Some thi'
  /\ threads sample_surface_pool !! 1%nat = Some thj'
  /\ in_critical_section thi /\ wants_write_lock thj
  /\ thread_step thj (shared sample_pool_in_fan_out) = Waits.
Proof.
  intros thi thj thi' thj'.
  assert (Hp : Forall configure_payloads
                 [[CallDispatch sample_configure_event];
                  [CallAdd Configure (Some surface_handler_a)]]).
  { repeat constructor. }
  assert (Hr : rtc pool_step
                 (SessionLock_pool sample_lock
                    [[CallDispatch sample_locked_event];
                     [CallRemove Locked (Some client_b)]])
                 sample_pool_in_fan_out)
    by apply (pool_run_reachable sample_pool).
  assert (Hr' : rtc pool_step
                  (SessionLockSurface_pool sample_surface
                     [[CallDispatch sample_configure_event];
                      [CallAdd Configure (Some surface_handler_a)]])
                  sample_surface_pool) by reflexivity.
  assert (Hc : in_critical_section thi) by exact I.
  assert (Hw : wants_write_lock thj) by exact I.
  do 2 (split; [first [reflexivity|exact Hr]|]).
  do 2 (split; [reflexivity|]).
  split; [reflexivity|]. split; [exact Hp|]. split; [exact Hr'|].
  do 2 (split; [reflexivity|]).
  split; [exact Hc|]. split; [exact Hw|].
  exact (proj1 (add_and_remove_wait_for_fan_out
                  sample_lock _ sample_pool_in_fan_out 0 1 thi thj
                  sample_surface _ sample_surface_pool 0 1 thi' thj'
                  eq_refl Hr eq_refl eq_refl eq_refl Hp Hr' eq_refl eq_refl) Hc Hw).
Defined.

(** X3 (the methods never block each other for good).  Take any number of
    goroutines, each making any sequence of add, remove and dispatch calls
    on one lock (or on one lock surface), interleaved in any way from a
    state in which nobody holds the mutex, with listeners that return.  In
    every state they reach, either every goroutine has returned from its
    last call, or some goroutine can perform its next operation: the calls
    never end up all waiting for the mutex. *)
Theorem callers_never_deadlock
    (l : SessionLock) (callers : list (list (Call LockSlot)))
    (P : Pool SessionLock LockSlot)
    (sf : SessionLockSurface) (callers' : list (list (Call SurfaceSlot)))
    (P' : Pool SessionLockSurface SurfaceSlot) :
  quiescent l -> rtc pool_step (SessionLock_pool l callers) P ->
  quiescent sf -> Forall configure_payloads callers' ->
  rtc pool_step (SessionLockSurface_pool sf callers') P' ->
  (all_returned P \/ exists Q, pool_step P Q)
  /\ (all_returned P' \/ exists Q', pool_step P' Q').
Proof.
  intros Hl Hreach Hsf Hcs Hreach'. split.
  - apply pool_inv_progress. by eapply SessionLock_pool_inv.
  - apply pool_inv_progress. by eapply SessionLockSurface_pool_inv.
Qed.

(** The sample pool, stopped while the remover waits, can go on: the
    dispatching goroutine performs its call. *)
Lemma callers_never_deadlock_witness :
  quiescent sample_lock
  /\ rtc pool_step
       (SessionLock_pool sample_lock
          [[CallDispatch sample_locked_event]; [CallRemove Locked (Some client_b)]])
       sample_pool_in_fan_out
  /\ quiescent sample_surface
  /\ Forall configure_payloads
       [[CallDispatch sample_configure_event];
        [CallAdd Configure (Some surface_handler_a)]]
  /\ rtc pool_step
       (SessionLockSurface_pool sample_surface
          [[CallDispatch sample_configure_event];
           [CallAdd Configure (Some surface_handler_a)]])
       sample_surface_pool
  /\ (all_returned sample_pool_in_fan_out \/ exists Q, pool_step sample_pool_in_fan_out Q).
Proof.
  assert (Hp : Forall configure_payloads
                 [[CallDispatch sample_configure_event];
                  [CallAdd Configure (Some surface_handler_a)]]).
  { repeat constructor. }
  assert (Hr : rtc pool_step
                 (SessionLock_pool sample_lock
                    [[CallDispatch sample_locked_event];
                     [CallRemove Locked (Some client_b)]])
                 sample_pool_in_fan_out)
    by apply (pool_run_reachable sample_pool).
  assert (Hr' : rtc pool_step
                  (SessionLockSurface_pool sample_surface
                     [[CallDispatch sample_configure_event];
                      [CallAdd Configure (Some surface_handler_a)]])
                  sample_surface_pool) by reflexivity.
  split; [reflexivity|]. split; [exact Hr|]. split; [reflexivity|].
  split; [exact Hp|]. split; [exact Hr'|].
  exact (proj1 (callers_never_deadlock sample_lock _ sample_pool_in_fan_out
                  sample_surface _ sample_surface_pool eq_refl Hr eq_refl Hp Hr')).
Defined.

(** ** The registry of the context under requests *)

Lemma SendRequest_objects (ctx : Context) p op a :
  objects (SendRequest ctx p op a).1 = objects ctx.
Proof. done. Qed.

Lemma deliver_objects (ctx ctx' : Context) (ev : Event) :
  objects ctx' !! Pid ev = objects ctx !! Pid ev -> deliver ctx' ev = deliver ctx ev.
Proof. unfold deliver. by intros ->. Qed.

Lemma Register_lookup_old (ctx : Context) (p : Proxy) (id : ProxyId) :
  is_Some (objects ctx !! id) ->
  objects (Register ctx p).1 !! id = objects ctx !! id.
Proof.
  intros Hsome. rewrite Register_objects. apply lookup_insert_ne.
  intros <-. apply (Register_fresh ctx p). by apply elem_of_dom.
Qed.

(** X4 (requests leave the registry alone).  No request method takes a
    proxy out of the registry of the context or changes one: after [Destroy]
    of a manager, a lock or a lock surface, after [UnlockAndDestroy] and
    after [AckConfigure], whether the send succeeded or not, every inbound
    event is delivered exactly as it was before the call, so a proxy that
    was destroyed still dispatches to its listeners; [Lock] and
    [GetLockSurface] add the new proxy and leave the delivery to the proxies
    registered before as it was. *)
Theorem requests_leave_delivery_unchanged
    (ctx : Context) (p surface output : ProxyId) (serial : uint32) (ev : Event) :
  deliver (SessionLockManager_Destroy ctx p).1 ev = deliver ctx ev
  /\ deliver (SessionLock_Destroy ctx p).1 ev = deliver ctx ev
  /\ deliver (SessionLock_UnlockAndDestroy ctx p).1 ev = deliver ctx ev
  /\ deliver (SessionLockSurface_Destroy ctx p).1 ev = deliver ctx ev
  /\ deliver (SessionLockSurface_AckConfigure ctx p serial).1 ev = deliver ctx ev
  /\ (is_Some (objects ctx !! Pid ev) ->
      deliver (SessionLockManager_Lock ctx p).1 ev = deliver ctx ev
      /\ deliver (SessionLock_GetLockSurface ctx p surface output).1 ev = deliver ctx ev).
Proof.
  do 5 (split; [by apply deliver_objects|]).
  intros Hsome. split; apply deliver_objects.
  - exact (Register_lookup_old ctx (ProxyLock new_SessionLock) _ Hsome).
  - exact (Register_lookup_old ctx (ProxySurface new_SessionLockSurface) _ Hsome).
Qed.

(** X5 (two lock surfaces of one lock are separate proxies).  Two calls of
    [GetLockSurface] return two different proxies.  With a listener added to
    the first one only, an event addressed to the second one is dispatched
    by the second one and calls nobody, and a "configure" event addressed to
    the first one calls that listener, once, with the fields of the
    event. *)
Theorem lock_surfaces_are_separate
    (ctx : Context) (l surface1 output1 surface2 output2 : ProxyId) (h : Handler)
    (ev : Event) (serial width height : uint32) (rest : list uint32) :
  let r1 := SessionLock_GetLockSurface ctx l surface1 output1 in
  let r2 := SessionLock_GetLockSurface r1.1 l surface2 output2 in
  let ctx' :=
    (SessionLockSurface_call r2.1 r1.2.1
       (SessionLockSurface_AddConfigureHandler (Some h))).1 in
  r1.2.1 <> r2.2.1
  /\ (Pid ev = r2.2.1 ->
      exists tr,
        deliver ctx' ev
        = ToSurface (registered_surface r2.2.1)
            (tr, Returned ev (registered_surface r2.2.1))
        /\ calls tr = [])
  /\ (Pid ev = r1.2.1 -> Opcode ev = SurfaceEventConfigure ->
      Data ev = serial :: width :: height :: rest ->
      exists s o,
        deliver ctx' ev = ToSurface s o
        /\ calls o.1 = [configure_call serial width height h]).
Proof.
  intros r1 r2 ctx'.
  set (id1 := fresh (dom (objects ctx))).
  set (objs1 := <[id1 := ProxySurface (registered_surface id1)]> (objects ctx)).
  set (id2 := fresh (dom objs1)).
  assert (E1 : r1.2.1 = id1) by done.
  assert (E2 : r2.2.1 = id2) by done.
  assert (Hne : id1 <> id2).
  { intros Heq. apply (is_fresh (dom objs1)). fold id2. rewrite <- Heq.
    unfold objs1. rewrite dom_insert. set_solver. }
  assert (Hobjs2 : objects r2.1
                   = <[id2 := ProxySurface (registered_surface id2)]> objs1) by done.
  assert (Hobjs : objects ctx'
                  = <[id1 := ProxySurface
                               (obj_set_slot Configure [h] (registered_surface id1))]>
                      (objects r2.1)).
  { unfold ctx', SessionLockSurface_call. rewrite E1, Hobjs2.
    rewrite lookup_insert_ne by done. unfold objs1 at 1. rewrite lookup_insert_eq.
    unfold SessionLockSurface_AddConfigureHandler.
    rewrite (run_AddHandler_Some Configure h (registered_surface id1)) by done.
    done. }
  rewrite E1, E2. split; [done|]. split.
  - intros Hpid. unfold deliver. rewrite Hobjs, Hpid, lookup_insert_ne by done.
    rewrite Hobjs2, lookup_insert_eq.
    unfold SessionLockSurface_Dispatch.
    destruct (decide (Opcode ev = SurfaceEventConfigure)); by eexists.
  - intros Hpid Hop Hdata. unfold deliver. rewrite Hobjs, Hpid, lookup_insert_eq.
    do 2 eexists. split; [done|].
    rewrite (run_SessionLockSurface_Dispatch_configure _ ev serial width height rest)
      by done.
    cbn [fst]. by rewrite calls_dispatch_trace.
Qed.

(** A "configure" event with serial 7 addressed to the second of two lock
    surfaces created on the sample context calls nobody; addressed to the
    first, it calls the listener added there. *)
Lemma lock_surfaces_are_separate_witness :
  (exists tr,
     deliver
       (SessionLockSurface_call
          (SessionLock_GetLockSurface
             (SessionLock_GetLockSurface sample_context 0%nat 10%nat 11%nat).1
             0%nat 12%nat 13%nat).1
          1%nat (SessionLockSurface_AddConfigureHandler (Some surface_handler_a))).1
       {| Pid := 2%nat; Opcode := SurfaceEventConfigure; Data := [7; 1920; 1080] |}
     = ToSurface (registered_surface 2%nat)
         (tr, Returned {| Pid := 2%nat; Opcode := SurfaceEventConfigure;
                          Data := [7; 1920; 1080] |} (registered_surface 2%nat))
     /\ calls tr = []).
Proof.
  exact (proj1 (proj2 (lock_surfaces_are_separate sample_context 0%nat 10%nat 11%nat
                         12%nat 13%nat surface_handler_a
                         {| Pid := 2%nat; Opcode := SurfaceEventConfigure;
                            Data := [7; 1920; 1080] |} 7 1920 1080 [])) eq_refl).
Defined.

(** X6 ([BindSessionLockManager] hands back a registered manager whatever
    [Bind] answers).  With a [Registry.Bind] that leaves the registry of the
    context alone, the manager returned is registered, under an identifier
    unused before, in the context the call leaves; the call returns it also
    when [Bind] reports an error, and which manager it returns does not
    depend on [Bind]; an event addressed to the manager is dispatched by it
    and does nothing. *)
Theorem BindSessionLockManager_returns_registered_manager
    (Registry_Bind Registry_Bind' :
       Context -> option ProxyId -> uint32 -> string -> uint32 -> ProxyId ->
       Context * option TransportError)
    (ctx : Context) (r : option ProxyId) (name version : uint32) (ev : Event) :
  (forall c r' n i v p, objects (Registry_Bind c r' n i v p).1 = objects c) ->
  Pid ev = (BindSessionLockManager Registry_Bind ctx r name version).2 ->
  let res := BindSessionLockManager Registry_Bind ctx r name version in
  let m := {| manager_BaseProxy := {| Id := res.2 |} |} in
  (res.2 ∉ dom (objects ctx))
  /\ objects res.1 = <[res.2 := ProxyManager m]> (objects ctx)
  /\ (BindSessionLockManager Registry_Bind' ctx r name version).2 = res.2
  /\ deliver res.1 ev = ToManager m ([], Returned ev m).
Proof.
  intros Hframe Hpid res m. unfold res, BindSessionLockManager in *.
  destruct (NewSessionLockManager ctx) as [ctx1 manager] eqn:Hnew.
  pose proof (Hframe ctx1 r name "ext_session_lock_manager_v1"%string version manager)
    as Hobj.
  destruct (Registry_Bind ctx1 r name _ version manager) as [ctx2 err].
  destruct (Registry_Bind' ctx1 r name _ version manager) as [ctx2' err'].
  cbn [fst snd] in *. unfold NewSessionLockManager in Hnew.
  injection Hnew as <- <-.
  split; [apply is_fresh|]. split; [by rewrite Hobj|]. split; [done|].
  unfold deliver. rewrite Hobj, Hpid. cbn [objects Register fst snd].
  by rewrite lookup_insert_eq.
Qed.

(** On a context whose transport refuses the next request, the bind request
    fails and the manager is returned and registered all the same. *)
Lemma BindSessionLockManager_returns_registered_manager_witness :
  (sample_Registry_Bind (NewSessionLockManager failing_context).1 (Some 9%nat) 27
     "ext_session_lock_manager_v1" 1 0%nat).2 = Some 5%nat
  /\ (BindSessionLockManager sample_Registry_Bind failing_context (Some 9%nat) 27 1).2 = 0%nat
  /\ deliver (BindSessionLockManager sample_Registry_Bind failing_context (Some 9%nat) 27 1).1
       {| Pid := 0%nat; Opcode := 3; Data := [] |}
     = ToManager {| manager_BaseProxy := {| Id := 0%nat |} |}
         ([], Returned {| Pid := 0%nat; Opcode := 3; Data := [] |}
                {| manager_BaseProxy := {| Id := 0%nat |} |}).
Proof.
  split; [reflexivity|]. split; [reflexivity|].
  exact (proj2 (proj2 (proj2
    (BindSessionLockManager_returns_registered_manager
       sample_Registry_Bind sample_Registry_Bind failing_context (Some 9%nat) 27 1
       {| Pid := 0%nat; Opcode := 3; Data := [] |}
       (fun _ _ _ _ _ _ => eq_refl) eq_refl)))).
Defined.

(** * The example client *)

Lemma requests_SendRequest (ctx : Context) p op a :
  requests (SendRequest ctx p op a).1
  = requests ctx ++ [{| sender := p; opcode := op; args := a |}].
Proof. unfold requests. cbn. by rewrite fmap_app. Qed.

(** What the event loop does with an event addressed to a lock the client
    listens to. *)
Lemma dispatch_event_lock (p : simple_locker.Process) (l : ProxyId) (ev : Event) :
  client_listens p l -> Pid ev = l ->
  simple_locker.dispatch_event p ev
  = if decide (Opcode ev = LockEventLocked)
    then simple_locker.invoke_all [locked_call simple_locker.client_handler] p
    else if decide (Opcode ev = LockEventFinished)
         then simple_locker.invoke_all [finished_call simple_locker.client_handler] p
         else simple_locker.Return tt p.
Proof.
  intros (lk & Hobj & Hq & Hlocked & Hfinished) Hpid.
  unfold simple_locker.dispatch_event, deliver. rewrite Hpid, Hobj.
  destruct (run_SessionLock_Dispatch lk ev Hq) as [Hres Hcalls].
  destruct (run (SessionLock_Dispatch ev) lk) as [tr res]. cbn [fst snd] in *.
  subst res. rewrite Hcalls.
  unfold SessionLock_event_slot, SessionLock_listener_call.
  destruct (decide (Opcode ev = LockEventLocked)) as [H0|H0].
  - cbn [obj_slot SessionLock_Object]. change (obj_slot Locked lk) with
      (privateSessionLockLocked lk). by rewrite Hlocked.
  - destruct (decide (Opcode ev = LockEventFinished)) as [H1|H1]; [|done].
    change (obj_slot Finished lk) with (privateSessionLockFinished lk).
    by rewrite Hfinished.
Qed.

Lemma dispatch_event_finished (p : simple_locker.Process) (l : ProxyId) (ev : Event) :
  client_listens p l -> Pid ev = l -> Opcode ev = LockEventFinished ->
  simple_locker.dispatch_event p ev
  = simple_locker.LockClient_HandleSessionLockFinished p Build_SessionLockFinishedEvent.
Proof.
  intros Hl Hpid Hop. rewrite (dispatch_event_lock p l ev Hl Hpid), Hop.
  rewrite decide_False, decide_True by done.
  cbn [simple_locker.invoke_all simple_locker.invoke finished_call].
  rewrite decide_True by done.
  by destruct (simple_locker.LockClient_HandleSessionLockFinished p _) as [[] ?|?].
Qed.

Lemma dispatch_event_locked (p : simple_locker.Process) (l : ProxyId) (ev : Event) :
  client_listens p l -> Pid ev = l -> Opcode ev = LockEventLocked ->
  simple_locker.dispatch_event p ev
  = simple_locker.LockClient_HandleSessionLockLocked p Build_SessionLockLockedEvent.
Proof.
  intros Hl Hpid Hop. rewrite (dispatch_event_lock p l ev Hl Hpid), Hop.
  rewrite decide_True by done.
  cbn [simple_locker.invoke_all simple_locker.invoke locked_call].
  rewrite decide_True by done. done.
Qed.

Lemma client_listens_objects (p p' : simple_locker.Process) (l : ProxyId) :
  objects (simple_locker.wire p') = objects (simple_locker.wire p) ->
  client_listens p l -> client_listens p' l.
Proof. intros Hobj (lk & H1 & H2). exists lk. by rewrite Hobj. Qed.

(** What [HandleSessionLockFinished] does on a client that has a lock. *)
Lemma LockClient_HandleSessionLockFinished_spec
    (p : simple_locker.Process) (l : ProxyId) (ev : SessionLockFinishedEvent) :
  simple_locker.lock (simple_locker.the_client p) = Some l ->
  exists p',
    simple_locker.LockClient_HandleSessionLockFinished p ev
    = (if simple_locker.done (simple_locker.the_client p)
       then simple_locker.GoPanic p' else simple_locker.Return tt p')
    /\ requests (simple_locker.wire p')
       = requests (simple_locker.wire p)
           ++ [{| sender := l;
                  opcode := if simple_locker.lockedReceived (simple_locker.the_client p)
                            then LockRequestUnlockAndDestroy else LockRequestDestroy;
                  args := [] |}]
    /\ objects (simple_locker.wire p') = objects (simple_locker.wire p)
    /\ simple_locker.lock (simple_locker.the_client p') = Some l
    /\ simple_locker.lockedReceived (simple_locker.the_client p')
       = simple_locker.lockedReceived (simple_locker.the_client p)
    /\ simple_locker.done (simple_locker.the_client p') = true
    /\ simple_locker.stdout p'
       = simple_locker.stdout p ++ [simple_locker.Printed_LockFinished].
Proof.
  intros Hlock. unfold simple_locker.LockClient_HandleSessionLockFinished.
  cbn [simple_locker.the_client simple_locker.print]. rewrite Hlock.
  destruct (simple_locker.done (simple_locker.the_client p)) eqn:Hdone;
    destruct (simple_locker.lockedReceived (simple_locker.the_client p)) eqn:Hrecv;
    eexists; (split; [reflexivity|]); cbn; unfold requests; rewrite ?fmap_app; done.
Qed.

(** X7 (how the client gives the lock up).  In a process whose client
    listens to its lock and has not received "locked", a "finished" event
    addressed to the lock makes the client send [Destroy] on the lock,
    opcode 0, and close its [done] channel; when a "locked" event came
    first, which sends nothing and is remembered, the same "finished" event
    makes it send [UnlockAndDestroy], opcode 2, instead.  Either way it is
    the only request sent. *)
Theorem lock_is_released_by_what_was_received
    (p : simple_locker.Process) (l : ProxyId) (locked finished : Event) :
  client_listens p l ->
  simple_locker.lock (simple_locker.the_client p) = Some l ->
  simple_locker.lockedReceived (simple_locker.the_client p) = false ->
  simple_locker.done (simple_locker.the_client p) = false ->
  Pid locked = l -> Opcode locked = LockEventLocked ->
  Pid finished = l -> Opcode finished = LockEventFinished ->
  (exists p1,
     simple_locker.dispatch_event p finished = simple_locker.Return tt p1
     /\ requests (simple_locker.wire p1)
        = requests (simple_locker.wire p)
            ++ [{| sender := l; opcode := LockRequestDestroy; args := [] |}]
     /\ simple_locker.done (simple_locker.the_client p1) = true)
  /\ (exists p1 p2,
        simple_locker.dispatch_event p locked = simple_locker.Return tt p1
        /\ requests (simple_locker.wire p1) = requests (simple_locker.wire p)
        /\ simple_locker.lockedReceived (simple_locker.the_client p1) = true
        /\ simple_locker.done (simple_locker.the_client p1) = false
        /\ simple_locker.dispatch_event p1 finished = simple_locker.Return tt p2
        /\ requests (simple_locker.wire p2)
           = requests (simple_locker.wire p)
               ++ [{| sender := l; opcode := LockRequestUnlockAndDestroy; args := [] |}]
        /\ simple_locker.done (simple_locker.the_client p2) = true).
Proof.
  intros Hlisten Hlock Hrecv Hdone Hpl Hol Hpf Hof.
  assert (Hfin : forall q,
             client_listens q l ->
             simple_locker.dispatch_event q finished
             = simple_locker.LockClient_HandleSessionLockFinished q
                 Build_SessionLockFinishedEvent).
  { intros q Hq. by apply (dispatch_event_finished q l). }
  split.
  - destruct (LockClient_HandleSessionLockFinished_spec p l
                Build_SessionLockFinishedEvent Hlock)
      as (p1 & Hrun & Hreq & _ & _ & _ & Hd & _).
    rewrite Hdone in Hrun. rewrite Hrecv in Hreq.
    exists p1. by rewrite Hfin, Hrun.
  - set (p1 := simple_locker.with_client
                 {| simple_locker.display := simple_locker.display (simple_locker.the_client p);
                    simple_locker.registry := simple_locker.registry (simple_locker.the_client p);
                    simple_locker.compositor :=
                      simple_locker.compositor (simple_locker.the_client p);
                    simple_locker.lockManager :=
                      simple_locker.lockManager (simple_locker.the_client p);
                    simple_locker.lock := simple_locker.lock (simple_locker.the_client p);
                    simple_locker.surfaces := simple_locker.surfaces (simple_locker.the_client p);
                    simple_locker.outputs := simple_locker.outputs (simple_locker.the_client p);
                    simple_locker.lockedReceived := true;
                    simple_locker.done := simple_locker.done (simple_locker.the_client p) |}
                 (simple_locker.print simple_locker.Printed_SessionLocked p)).
    assert (Hlisten1 : client_listens p1 l) by (by apply (client_listens_objects p)).
    destruct (LockClient_HandleSessionLockFinished_spec p1 l
                Build_SessionLockFinishedEvent Hlock)
      as (p2 & Hrun & Hreq & _ & _ & _ & Hd & _).
    cbn [p1 simple_locker.with_client simple_locker.the_client simple_locker.done
         simple_locker.lockedReceived] in Hrun, Hreq.
    rewrite Hdone in Hrun.
    exists p1, p2. split.
    { by rewrite (dispatch_event_locked p l locked Hlisten Hpl Hol). }
    split; [done|]. split; [done|]. split; [done|].
    split; [by rewrite Hfin, Hrun|]. split; [exact Hreq|exact Hd].
Qed.

(** The sample process: "finished" alone is answered by [Destroy]. *)
Lemma lock_is_released_by_what_was_received_witness :
  client_listens sample_process 1%nat
  /\ exists p1,
       simple_locker.dispatch_event sample_process sample_finished_event_1
       = simple_locker.Return tt p1
       /\ requests (simple_locker.wire p1)
          = requests (simple_locker.wire sample_process)
              ++ [{| sender := 1%nat; opcode := LockRequestDestroy; args := [] |}]
       /\ simple_locker.done (simple_locker.the_client p1) = true.
Proof.
  assert (Hl : client_listens sample_process 1%nat).
  { eexists. split; [reflexivity|]. by repeat split. }
  split; [exact Hl|].
  exact (proj1 (lock_is_released_by_what_was_received sample_process 1%nat
                  sample_lock_event_1 sample_finished_event_1
                  Hl eq_refl eq_refl eq_refl eq_refl eq_refl eq_refl eq_refl)).
Defined.

(** X8 (a second "finished" event).  The first "finished" event addressed
    to the lock of a listening client sends the release request and closes
    [done]; a second one sends the same request once more and then panics,
    closing the closed channel. *)
Theorem second_finished_event_panics
    (p : simple_locker.Process) (l : ProxyId) (finished : Event) :
  client_listens p l ->
  simple_locker.lock (simple_locker.the_client p) = Some l ->
  simple_locker.done (simple_locker.the_client p) = false ->
  Pid finished = l -> Opcode finished = LockEventFinished ->
  let release :=
    {| sender := l;
       opcode := if simple_locker.lockedReceived (simple_locker.the_client p)
                 then LockRequestUnlockAndDestroy else LockRequestDestroy;
       args := [] |} in
  exists p1 p2,
    simple_locker.dispatch_event p finished = simple_locker.Return tt p1
    /\ requests (simple_locker.wire p1) = requests (simple_locker.wire p) ++ [release]
    /\ simple_locker.dispatch_event p1 finished = simple_locker.GoPanic p2
    /\ requests (simple_locker.wire p2)
       = requests (simple_locker.wire p) ++ [release; release].
Proof.
  intros Hlisten Hlock Hdone Hpf Hof release.
  assert (Hfin : forall q,
             client_listens q l ->
             simple_locker.dispatch_event q finished
             = simple_locker.LockClient_HandleSessionLockFinished q
                 Build_SessionLockFinishedEvent).
  { intros q Hq. by apply (dispatch_event_finished q l). }
  destruct (LockClient_HandleSessionLockFinished_spec p l
              Build_SessionLockFinishedEvent Hlock)
    as (p1 & Hrun1 & Hreq1 & Hobj1 & Hlock1 & Hrecv1 & Hd1 & _).
  rewrite Hdone in Hrun1.
  destruct (LockClient_HandleSessionLockFinished_spec p1 l
              Build_SessionLockFinishedEvent Hlock1)
    as (p2 & Hrun2 & Hreq2 & _).
  rewrite Hd1 in Hrun2. rewrite Hrecv1, Hreq1, <- app_assoc in Hreq2.
  exists p1, p2. split; [by rewrite Hfin, Hrun1|]. split; [exact Hreq1|].
  split; [|exact Hreq2].
  rewrite Hfin, Hrun2; [done|]. by apply (client_listens_objects p).
Qed.

Lemma second_finished_event_panics_witness :
  client_listens sample_process 1%nat
  /\ exists p1 p2,
       simple_locker.dispatch_event sample_process sample_finished_event_1
       = simple_locker.Return tt p1
       /\ requests (simple_locker.wire p1)
          = requests (simple_locker.wire sample_process)
              ++ [{| sender := 1%nat; opcode := LockRequestDestroy; args := [] |}]
       /\ simple_locker.dispatch_event p1 sample_finished_event_1 = simple_locker.GoPanic p2
       /\ requests (simple_locker.wire p2)
          = requests (simple_locker.wire sample_process)
              ++ [{| sender := 1%nat; opcode := LockRequestDestroy; args := [] |};
                  {| sender := 1%nat; opcode := LockRequestDestroy; args := [] |}].
Proof.
  assert (Hl : client_listens sample_process 1%nat).
  { eexists. split; [reflexivity|]. by repeat split. }
  split; [exact Hl|].
  exact (second_finished_event_panics sample_process 1%nat sample_finished_event_1
           Hl eq_refl eq_refl eq_refl eq_refl).
Defined.
Lemma dispatch_event_configure (p : simple_locker.Process) (ls : ProxyId) (addr : nat)
    (ev : Event) serial width height rest :
  handler_listens p ls addr -> Pid ev = ls -> Opcode ev = SurfaceEventConfigure ->
  Data ev = serial :: width :: height :: rest ->
  simple_locker.dispatch_event p ev
  = simple_locker.LockSurfaceHandler_HandleSessionLockSurfaceConfigure p addr
      {| Serial := serial; Width := width; Height := height |}.
Proof.
  intros (s & hd & Hobj & Hq & Hslice & Hhd & Hsurf) Hpid Hop Hdata.
  unfold simple_locker.dispatch_event, deliver. rewrite Hpid, Hobj.
  rewrite (run_SessionLockSurface_Dispatch_configure s ev serial width height rest)
    by (try done; by rewrite Hq).
  rewrite calls_dispatch_trace, Hslice.
  cbn [map simple_locker.invoke_all simple_locker.invoke configure_call].
  rewrite decide_True by done. cbn [dyn_value simple_locker.surface_handler].
  by destruct (simple_locker.LockSurfaceHandler_HandleSessionLockSurfaceConfigure p addr _)
    as [[] ?|?].
Qed.

Lemma LockSurfaceHandler_HandleSessionLockSurfaceConfigure_spec
    (p : simple_locker.Process) (addr : nat) (hd : simple_locker.LockSurfaceHandler)
    (ls : ProxyId) (ev : SessionLockSurfaceConfigureEvent) :
  simple_locker.surfaceHandlers p !! addr = Some hd ->
  simple_locker.surface hd = Some ls ->
  exists p',
    simple_locker.LockSurfaceHandler_HandleSessionLockSurfaceConfigure p addr ev
    = simple_locker.Return tt p'
    /\ requests (simple_locker.wire p')
       = requests (simple_locker.wire p)
           ++ [{| sender := ls; opcode := SurfaceRequestAckConfigure;
                  args := [ArgUint32 (Serial ev)] |}]
    /\ objects (simple_locker.wire p') = objects (simple_locker.wire p)
    /\ simple_locker.the_client p' = simple_locker.the_client p
    /\ simple_locker.surfaceHandlers p'
       = <[addr := {| simple_locker.client := simple_locker.client hd;
                      simple_locker.surface := Some ls;
                      simple_locker.wlSurface := simple_locker.wlSurface hd;
                      simple_locker.serial := Serial ev;
                      simple_locker.width := Width ev;
                      simple_locker.height := Height ev |}]>
           (simple_locker.surfaceHandlers p)
    /\ simple_locker.stdout p'
       = simple_locker.stdout p
           ++ [simple_locker.Printed_Configure (Serial ev) (Width ev) (Height ev);
               simple_locker.Printed_WouldCreate (Width ev) (Height ev) 64 0 0].
Proof.
  intros Hhd Hsurf.
  unfold simple_locker.LockSurfaceHandler_HandleSessionLockSurfaceConfigure.
  rewrite Hhd. cbn [simple_locker.surface]. rewrite Hsurf.
  eexists. split; [reflexivity|]. cbn. unfold requests. cbn.
  rewrite fmap_app, <- app_assoc. done.
Qed.

Lemma SessionLock_GetLockSurface_eq (ctx : Context) (l surface output : ProxyId) :
  SessionLock_GetLockSurface ctx l surface output
  = ({| objects :=
          <[fresh (dom (objects ctx)) :=
              ProxySurface (registered_surface (fresh (dom (objects ctx))))]> (objects ctx);
        submitted :=
          submitted ctx
            ++ [({| sender := l; opcode := LockRequestGetLockSurface;
                    args := [ArgProxy (fresh (dom (objects ctx))); ArgProxy surface;
                             ArgProxy output] |},
                 default None (head (faults ctx)))];
        faults := tail (faults ctx) |},
     (fresh (dom (objects ctx)), default None (head (faults ctx)))).
Proof. done. Qed.

(** [createLockSurface] when both requests go out. *)
Lemma LockClient_createLockSurface_success
    (CreateSurface : Context -> ProxyId -> Context * (ProxyId * option TransportError))
    (p : simple_locker.Process) (comp l output : ProxyId) (ctx1 : Context)
    (surface : ProxyId) :
  simple_locker.compositor (simple_locker.the_client p) = Some comp ->
  simple_locker.lock (simple_locker.the_client p) = Some l ->
  CreateSurface (simple_locker.wire p) comp = (ctx1, (surface, None)) ->
  (SessionLock_GetLockSurface ctx1 l surface output).2.2 = None ->
  let ls := (SessionLock_GetLockSurface ctx1 l surface output).2.1 in
  let addr := fresh (dom (simple_locker.surfaceHandlers p)) in
  exists p',
    simple_locker.LockClient_createLockSurface CreateSurface p output
    = simple_locker.Return None p'
    /\ simple_locker.surfaces (simple_locker.the_client p')
       = <[output := ls]> (simple_locker.surfaces (simple_locker.the_client p))
    /\ simple_locker.outputs (simple_locker.the_client p')
       = simple_locker.outputs (simple_locker.the_client p)
    /\ simple_locker.lock (simple_locker.the_client p') = Some l
    /\ simple_locker.compositor (simple_locker.the_client p') = Some comp
    /\ requests (simple_locker.wire p')
       = requests ctx1
           ++ [{| sender := l; opcode := LockRequestGetLockSurface;
                  args := [ArgProxy ls; ArgProxy surface; ArgProxy output] |}]
    /\ objects (simple_locker.wire p')
       = <[ls := ProxySurface
                   (obj_set_slot Configure [simple_locker.surface_handler addr]
                      (registered_surface ls))]> (objects ctx1)
    /\ simple_locker.surfaceHandlers p'
       = <[addr := {| simple_locker.client := simple_locker.client_address;
                      simple_locker.surface := Some ls;
                      simple_locker.wlSurface := Some surface;
                      simple_locker.serial := 0; simple_locker.width := 0;
                      simple_locker.height := 0 |}]> (simple_locker.surfaceHandlers p)
    /\ simple_locker.stdout p' = simple_locker.stdout p
    /\ faults (simple_locker.wire p') = tail (faults ctx1)
    /\ simple_locker.lockedReceived (simple_locker.the_client p')
       = simple_locker.lockedReceived (simple_locker.the_client p)
    /\ simple_locker.done (simple_locker.the_client p')
       = simple_locker.done (simple_locker.the_client p)
    /\ simple_locker.lockManager (simple_locker.the_client p')
       = simple_locker.lockManager (simple_locker.the_client p).
Proof.
  intros Hcomp Hlock HCS Hok ls addr.
  unfold simple_locker.LockClient_createLockSurface. rewrite Hcomp, HCS.
  cbn [simple_locker.the_client simple_locker.with_wire]. rewrite Hlock.
  unfold ls, addr in *. rewrite SessionLock_GetLockSurface_eq in *. cbn [fst snd] in *.
  rewrite Hok.
  cbn [simple_locker.with_wire simple_locker.with_surfaceHandlers simple_locker.wire
       simple_locker.surfaceHandlers].
  unfold SessionLockSurface_call. cbn [objects]. rewrite lookup_insert_eq.
  unfold SessionLockSurfaceAddListener, type_assert.
  cbn [simple_locker.surface_handler dyn_type simple_locker.LockSurfaceHandler_type
       LockSurfaceHandler hasHandleSessionLockSurfaceConfigure].
  unfold SessionLockSurface_AddConfigureHandler.
  rewrite (run_AddHandler_Some Configure _ (registered_surface _)) by done.
  cbn [fst snd]. eexists. split; [reflexivity|].
  cbn. unfold requests. cbn. rewrite fmap_app, insert_insert_eq. done.
Qed.

(** X9 (a lock surface answers its "configure").  When both requests of
    [createLockSurface] go out, the call records the new lock surface for
    the output and has sent [get_lock_surface] with the new lock surface,
    the surface and the output; and a "configure" event addressed to the new
    lock surface is then answered by exactly one request, [AckConfigure]
    from that lock surface with the serial of the event, after which the
    size of the event is what the handler reports to draw. *)
Theorem lock_surface_acks_its_configure
    (CreateSurface : Context -> ProxyId -> Context * (ProxyId * option TransportError))
    (p : simple_locker.Process) (comp l output : ProxyId) (ctx1 : Context)
    (surface : ProxyId) (ev : Event) (serial width height : uint32) (rest : list uint32) :
  simple_locker.compositor (simple_locker.the_client p) = Some comp ->
  simple_locker.lock (simple_locker.the_client p) = Some l ->
  CreateSurface (simple_locker.wire p) comp = (ctx1, (surface, None)) ->
  (SessionLock_GetLockSurface ctx1 l surface output).2.2 = None ->
  Pid ev = (SessionLock_GetLockSurface ctx1 l surface output).2.1 ->
  Opcode ev = SurfaceEventConfigure ->
  Data ev = serial :: width :: height :: rest ->
  let ls := (SessionLock_GetLockSurface ctx1 l surface output).2.1 in
  exists p' p'',
    simple_locker.LockClient_createLockSurface CreateSurface p output
    = simple_locker.Return None p'
    /\ simple_locker.surfaces (simple_locker.the_client p')
       = <[output := ls]> (simple_locker.surfaces (simple_locker.the_client p))
    /\ requests (simple_locker.wire p')
       = requests ctx1
           ++ [{| sender := l; opcode := LockRequestGetLockSurface;
                  args := [ArgProxy ls; ArgProxy surface; ArgProxy output] |}]
    /\ simple_locker.dispatch_event p' ev = simple_locker.Return tt p''
    /\ requests (simple_locker.wire p'')
       = requests (simple_locker.wire p')
           ++ [{| sender := ls; opcode := SurfaceRequestAckConfigure;
                  args := [ArgUint32 serial] |}]
    /\ simple_locker.stdout p''
       = simple_locker.stdout p
           ++ [simple_locker.Printed_Configure serial width height;
               simple_locker.Printed_WouldCreate width height 64 0 0].
Proof.
  intros Hcomp Hlock HCS Hok Hpid Hop Hdata ls.
  destruct (LockClient_createLockSurface_success CreateSurface p comp l output ctx1
              surface Hcomp Hlock HCS Hok)
    as (p' & Hrun & Hsurf & _ & _ & _ & Hreq & Hobj & Hhs & Hout & _).
  fold ls in Hsurf, Hreq, Hobj, Hhs, Hpid.
  set (addr := fresh (dom (simple_locker.surfaceHandlers p))) in *.
  assert (Hlisten : handler_listens p' ls addr).
  { eexists _, _. split; [by rewrite Hobj, lookup_insert_eq|].
    split; [done|]. split; [done|]. split; [by rewrite Hhs, lookup_insert_eq|done]. }
  destruct (LockSurfaceHandler_HandleSessionLockSurfaceConfigure_spec p' addr _ ls
              {| Serial := serial; Width := width; Height := height |}
              ltac:(by rewrite Hhs, lookup_insert_eq) eq_refl)
    as (p'' & Hrun' & Hreq' & _ & _ & _ & Hout').
  exists p', p''. split; [exact Hrun|]. split; [exact Hsurf|]. split; [exact Hreq|].
  split; [by rewrite (dispatch_event_configure p' ls addr ev serial width height rest)|].
  split; [exact Hreq'|]. by rewrite Hout', Hout.
Qed.

(** The sample process creates the lock surface 3 for the output 31, and a
    "configure" with serial 7 addressed to it is acknowledged with 7. *)
Lemma lock_surface_acks_its_configure_witness :
  exists p' p'',
    simple_locker.LockClient_createLockSurface sample_CreateSurface sample_process 31%nat
    = simple_locker.Return None p'
    /\ simple_locker.surfaces (simple_locker.the_client p')
       = <[31%nat := 3%nat]> (simple_locker.surfaces sample_client)
    /\ requests (simple_locker.wire p')
       = requests (sample_CreateSurface (simple_locker.wire sample_process) 20%nat).1
           ++ [{| sender := 1%nat; opcode := LockRequestGetLockSurface;
                  args := [ArgProxy 3%nat; ArgProxy 2%nat; ArgProxy 31%nat] |}]
    /\ simple_locker.dispatch_event p'
         {| Pid := 3%nat; Opcode := SurfaceEventConfigure; Data := [7; 1920; 1080] |}
       = simple_locker.Return tt p''
    /\ requests (simple_locker.wire p'')
       = requests (simple_locker.wire p')
           ++ [{| sender := 3%nat; opcode := SurfaceRequestAckConfigure;
                  args := [ArgUint32 7] |}]
    /\ simple_locker.stdout p''
       = [simple_locker.Printed_Configure 7 1920 1080;
          simple_locker.Printed_WouldCreate 1920 1080 64 0 0].
Proof.
  exact (lock_surface_acks_its_configure sample_CreateSurface sample_process
           20%nat 1%nat 31%nat _ 2%nat
           {| Pid := 3%nat; Opcode := SurfaceEventConfigure; Data := [7; 1920; 1080] |}
           7 1920 1080 [] eq_refl eq_refl eq_refl eq_refl eq_refl eq_refl eq_refl).
Defined.

(** X10 (a lock surface that could not be created leaves no trace in the
    client).  When [CreateSurface] reports an error, or [GetLockSurface]
    does, [createLockSurface] returns an error that wraps it and the client
    is as before: no lock surface is recorded for the output, no handler
    object is registered, nothing is printed.  In the second case the lock
    surface proxy has been registered with the context all the same, and
    has no listener. *)
Theorem createLockSurface_failure_records_nothing
    (CreateSurface : Context -> ProxyId -> Context * (ProxyId * option TransportError))
    (p : simple_locker.Process) (comp l output : ProxyId) (ctx1 : Context)
    (surface : ProxyId) (err1 : option TransportError) :
  simple_locker.compositor (simple_locker.the_client p) = Some comp ->
  simple_locker.lock (simple_locker.the_client p) = Some l ->
  CreateSurface (simple_locker.wire p) comp = (ctx1, (surface, err1)) ->
  is_Some err1 \/ is_Some (SessionLock_GetLockSurface ctx1 l surface output).2.2 ->
  let r := SessionLock_GetLockSurface ctx1 l surface output in
  exists p',
    simple_locker.LockClient_createLockSurface CreateSurface p output
    = simple_locker.Return
        (match err1, r.2.2 with
         | Some e, _ => Some (simple_locker.FailedToCreateSurface e)
         | None, Some e => Some (simple_locker.FailedToGetLockSurface e)
         | None, None => None
         end) p'
    /\ simple_locker.the_client p' = simple_locker.the_client p
    /\ simple_locker.surfaceHandlers p' = simple_locker.surfaceHandlers p
    /\ simple_locker.stdout p' = simple_locker.stdout p
    /\ simple_locker.wire p' = match err1 with Some _ => ctx1 | None => r.1 end
    /\ objects r.1 !! r.2.1 = Some (ProxySurface (registered_surface r.2.1)).
Proof.
  intros Hcomp Hlock HCS Hfail r.
  unfold simple_locker.LockClient_createLockSurface. rewrite Hcomp, HCS.
  cbn [simple_locker.the_client simple_locker.with_wire]. rewrite Hlock.
  unfold r in *. rewrite SessionLock_GetLockSurface_eq in *. cbn [fst snd] in *.
  destruct err1 as [e|].
  - eexists. split; [reflexivity|]. cbn. by rewrite lookup_insert_eq.
  - destruct Hfail as [[? ?]|[e He]]; [done|]. rewrite He.
    eexists. split; [reflexivity|]. cbn. by rewrite lookup_insert_eq.
Qed.

(** On a process whose transport refuses the second request, the lock
    surface is registered and the client records nothing. *)
Lemma createLockSurface_failure_records_nothing_witness :
  let p := simple_locker.with_wire
             {| objects := objects (simple_locker.wire sample_process);
                submitted := []; faults := [None; Some 5%nat] |} sample_process in
  exists p',
    simple_locker.LockClient_createLockSurface sample_CreateSurface p 31%nat
    = simple_locker.Return (Some (simple_locker.FailedToGetLockSurface 5%nat)) p'
    /\ simple_locker.the_client p' = sample_client
    /\ simple_locker.surfaceHandlers p' = ∅
    /\ simple_locker.stdout p' = []
    /\ simple_locker.wire p'
       = (SessionLock_GetLockSurface
            (sample_CreateSurface (simple_locker.wire p) 20%nat).1 1%nat 2%nat 31%nat).1
    /\ objects
         (SessionLock_GetLockSurface
            (sample_CreateSurface (simple_locker.wire p) 20%nat).1 1%nat 2%nat 31%nat).1
         !! 3%nat
       = Some (ProxySurface (registered_surface 3%nat)).
Proof.
  intros p.
  exact (createLockSurface_failure_records_nothing sample_CreateSurface p
           20%nat 1%nat 31%nat _ 2%nat None eq_refl eq_refl eq_refl
           (or_intror (ex_intro _ 5%nat eq_refl))).
Defined.

Lemma handler_listens_frame (p p' : simple_locker.Process) (ls : ProxyId) (addr : nat) :
  objects (simple_locker.wire p') = objects (simple_locker.wire p) ->
  simple_locker.surfaceHandlers p' = simple_locker.surfaceHandlers p ->
  handler_listens p ls addr -> handler_listens p' ls addr.
Proof.
  intros Hobj Hhs (s & hd & H1 & H2 & H3 & H4 & H5).
  exists s, hd. by rewrite Hobj, Hhs.
Qed.

(** X11 (an output that goes away).  [HandleRegistryGlobalRemove] for a
    name the client has no output for does nothing at all.  For a name it
    has an output for, it forgets that name and the lock surface recorded
    for the output, and keeps every other name and every other lock
    surface; it sends one request, [Destroy] from the lock surface, when
    there was one, and none otherwise; the lock, what it has received and
    the handler objects stay as they are. *)
Theorem output_removal_forgets_its_lock_surface
    (p : simple_locker.Process) (ev : simple_locker.RegistryGlobalRemoveEvent) :
  let c := simple_locker.the_client p in
  match simple_locker.outputs c !! simple_locker.Name ev with
  | None => simple_locker.LockClient_HandleRegistryGlobalRemove p ev = simple_locker.Return tt p
  | Some output =>
      exists p',
        simple_locker.LockClient_HandleRegistryGlobalRemove p ev = simple_locker.Return tt p'
        /\ (forall n, simple_locker.outputs (simple_locker.the_client p') !! n
                      = if decide (n = simple_locker.Name ev) then None
                        else simple_locker.outputs c !! n)
        /\ (forall o, simple_locker.surfaces (simple_locker.the_client p') !! o
                      = if decide (o = output) then None
                        else simple_locker.surfaces c !! o)
        /\ requests (simple_locker.wire p')
           = requests (simple_locker.wire p)
               ++ match simple_locker.surfaces c !! output with
                  | Some lockSurface =>
                      [{| sender := lockSurface; opcode := SurfaceRequestDestroy;
                          args := [] |}]
                  | None => []
                  end
        /\ objects (simple_locker.wire p') = objects (simple_locker.wire p)
        /\ simple_locker.surfaceHandlers p' = simple_locker.surfaceHandlers p
        /\ simple_locker.lock (simple_locker.the_client p') = simple_locker.lock c
        /\ simple_locker.lockedReceived (simple_locker.the_client p')
           = simple_locker.lockedReceived c
        /\ simple_locker.done (simple_locker.the_client p') = simple_locker.done c
        /\ simple_locker.stdout p'
           = simple_locker.stdout p
               ++ [simple_locker.Printed_OutputRemoved (simple_locker.Name ev)]
  end.
Proof.
  intros c. unfold simple_locker.LockClient_HandleRegistryGlobalRemove. fold c.
  destruct (simple_locker.outputs c !! simple_locker.Name ev) as [output|] eqn:Hout;
    [|done].
  cbn [simple_locker.wire simple_locker.print].
  destruct (simple_locker.surfaces c !! output) as [lockSurface|] eqn:Hsurf.
  - eexists. split; [reflexivity|]. cbn. unfold requests. cbn.
    rewrite fmap_app. repeat split; try done.
    + intros n. case_decide as Hn; [subst; apply lookup_delete_eq|].
      by apply lookup_delete_ne.
    + intros o. case_decide as Ho; [subst; apply lookup_delete_eq|].
      by apply lookup_delete_ne.
  - eexists. split; [reflexivity|]. cbn. rewrite app_nil_r. repeat split; try done.
    + intros n. case_decide as Hn; [subst; apply lookup_delete_eq|].
      by apply lookup_delete_ne.
    + intros o. case_decide as Ho; [by subst|done].
Qed.

(** X12 (a lock surface destroyed with its output still answers).  When
    the output of a lock surface goes away, the client sends [Destroy] from
    the lock surface and forgets it, but the lock surface stays registered
    and keeps its handler: a "configure" event that is addressed to it
    afterwards is still answered, by an [AckConfigure] from the destroyed
    lock surface. *)
Theorem removed_lock_surface_still_acks
    (p : simple_locker.Process) (name : uint32) (output ls : ProxyId) (addr : nat)
    (ev : Event) (serial width height : uint32) (rest : list uint32) :
  simple_locker.outputs (simple_locker.the_client p) !! name = Some output ->
  simple_locker.surfaces (simple_locker.the_client p) !! output = Some ls ->
  handler_listens p ls addr ->
  Pid ev = ls -> Opcode ev = SurfaceEventConfigure ->
  Data ev = serial :: width :: height :: rest ->
  exists p1 p2,
    simple_locker.LockClient_HandleRegistryGlobalRemove p {| simple_locker.Name := name |}
    = simple_locker.Return tt p1
    /\ simple_locker.outputs (simple_locker.the_client p1) !! name = None
    /\ simple_locker.surfaces (simple_locker.the_client p1) !! output = None
    /\ simple_locker.dispatch_event p1 ev = simple_locker.Return tt p2
    /\ requests (simple_locker.wire p2)
       = requests (simple_locker.wire p)
           ++ [{| sender := ls; opcode := SurfaceRequestDestroy; args := [] |};
               {| sender := ls; opcode := SurfaceRequestAckConfigure;
                  args := [ArgUint32 serial] |}].
Proof.
  intros Hout Hsurf Hlisten Hpid Hop Hdata.
  pose proof (output_removal_forgets_its_lock_surface p {| simple_locker.Name := name |})
    as Hrm.
  cbn [simple_locker.Name] in Hrm. rewrite Hout in Hrm.
  destruct Hrm as (p1 & Hrun & Houts & Hsurfs & Hreq & Hobj & Hhs & _).
  rewrite Hsurf in Hreq.
  assert (Hlisten1 : handler_listens p1 ls addr)
    by (by apply (handler_listens_frame p)).
  destruct Hlisten1 as (s & hd & H1 & H2 & H3 & H4 & H5).
  destruct (LockSurfaceHandler_HandleSessionLockSurfaceConfigure_spec p1 addr hd ls
              {| Serial := serial; Width := width; Height := height |} H4 H5)
    as (p2 & Hrun2 & Hreq2 & _).
  exists p1, p2. split; [exact Hrun|].
  split; [by rewrite Houts, decide_True|]. split; [by rewrite Hsurfs, decide_True|].
  split.
  - rewrite (dispatch_event_configure p1 ls addr ev serial width height rest); try done.
    by exists s, hd.
  - cbn [Serial] in Hreq2. by rewrite Hreq2, Hreq, <- app_assoc.
Qed.

(** The sample process forgets the output 31 and its lock surface 3; a
    later "configure" addressed to 3 is still acknowledged. *)
Lemma removed_lock_surface_still_acks_witness :
  handler_listens sample_process_with_surface 3%nat 0%nat
  /\ exists p1 p2,
       simple_locker.LockClient_HandleRegistryGlobalRemove sample_process_with_surface
         {| simple_locker.Name := 30 |}
       = simple_locker.Return tt p1
       /\ simple_locker.outputs (simple_locker.the_client p1) !! 30 = None
       /\ simple_locker.surfaces (simple_locker.the_client p1) !! 31%nat = None
       /\ simple_locker.dispatch_event p1
            {| Pid := 3%nat; Opcode := SurfaceEventConfigure; Data := [7; 1920; 1080] |}
          = simple_locker.Return tt p2
       /\ requests (simple_locker.wire p2)
          = requests (simple_locker.wire sample_process_with_surface)
              ++ [{| sender := 3%nat; opcode := SurfaceRequestDestroy; args := [] |};
                  {| sender := 3%nat; opcode := SurfaceRequestAckConfigure;
                     args := [ArgUint32 7] |}].
Proof.
  assert (Hl : handler_listens sample_process_with_surface 3%nat 0%nat).
  { eexists _, _. split; [reflexivity|]. by repeat split. }
  split; [exact Hl|].
  exact (removed_lock_surface_still_acks sample_process_with_surface 30 31%nat 3%nat 0%nat
           {| Pid := 3%nat; Opcode := SurfaceEventConfigure; Data := [7; 1920; 1080] |}
           7 1920 1080 [] eq_refl eq_refl Hl eq_refl eq_refl eq_refl).
Defined.

(** ** LockSession *)

Section LockSessionLemmas.
Variable CreateSurface : Context -> ProxyId -> Context * (ProxyId * option TransportError).
Variables comp l : ProxyId.
Hypothesis CreateSurface_ok : CreateSurface_succeeds CreateSurface comp.

Lemma createLockSurface_step (q : simple_locker.Process) (o : ProxyId) :
  session_inv comp l q ->
  exists q',
    simple_locker.LockClient_createLockSurface CreateSurface q o
    = simple_locker.Return None q'
    /\ session_inv comp l q'
    /\ surface_ready q' o
    /\ (forall o', surface_ready q o' -> surface_ready q' o')
    /\ simple_locker.outputs (simple_locker.the_client q')
       = simple_locker.outputs (simple_locker.the_client q)
    /\ simple_locker.lockedReceived (simple_locker.the_client q')
       = simple_locker.lockedReceived (simple_locker.the_client q)
    /\ simple_locker.done (simple_locker.the_client q')
       = simple_locker.done (simple_locker.the_client q)
    /\ simple_locker.lockManager (simple_locker.the_client q')
       = simple_locker.lockManager (simple_locker.the_client q).
Proof.
  intros (Hcomp & Hlock & Hfaults & Hlisten).
  destruct (CreateSurface_ok (simple_locker.wire q) Hfaults) as (Herr & Hfaults1 & Hsub).
  destruct (CreateSurface (simple_locker.wire q) comp) as [ctx1 [surface err]] eqn:HCS.
  cbn [fst snd] in *. subst err.
  assert (Hok : (SessionLock_GetLockSurface ctx1 l surface o).2.2 = None).
  { rewrite SessionLock_GetLockSurface_eq. cbn. by rewrite Hfaults1. }
  destruct (LockClient_createLockSurface_success CreateSurface q comp l o ctx1 surface
              Hcomp Hlock HCS Hok)
    as (q' & Hrun & Hsurf & Houts & Hlock' & Hcomp' & _ & Hobj & Hhs & _ & Hf & Hrecv
        & Hdone & Hmgr).
  set (ls := (SessionLock_GetLockSurface ctx1 l surface o).2.1) in *.
  set (addr := fresh (dom (simple_locker.surfaceHandlers q))) in *.
  assert (Hls : ls ∉ dom (objects ctx1)) by apply is_fresh.
  assert (Haddr : addr ∉ dom (simple_locker.surfaceHandlers q)) by apply is_fresh.
  assert (Hold : forall id x, objects (simple_locker.wire q) !! id = Some x ->
                              objects (simple_locker.wire q') !! id = Some x).
  { intros id x Hid.
    assert (Hid1 : objects ctx1 !! id = Some x)
      by (by eapply lookup_weaken; [exact Hid|exact Hsub]).
    rewrite Hobj, lookup_insert_ne; [done|].
    intros <-. apply Hls. by apply elem_of_dom. }
  assert (Hnew : handler_listens q' ls addr).
  { eexists _, _. split; [by rewrite Hobj, lookup_insert_eq|].
    split; [done|]. split; [done|]. split; [by rewrite Hhs, lookup_insert_eq|done]. }
  exists q'. split; [exact Hrun|]. split; [|split; [|split]].
  - split; [done|]. split; [done|]. split; [by rewrite Hf, Hfaults1|].
    destruct Hlisten as (lk & Hlk & Hrest). exists lk. split; [by apply Hold|done].
  - exists ls, addr. split; [by rewrite Hsurf, lookup_insert_eq|exact Hnew].
  - intros o' (ls' & addr' & Hs' & Hl').
    destruct (decide (o' = o)) as [->|Hne].
    + exists ls, addr. split; [by rewrite Hsurf, lookup_insert_eq|exact Hnew].
    + exists ls', addr'. split; [by rewrite Hsurf, lookup_insert_ne|].
      destruct Hl' as (s & hd & H1 & H2 & H3 & H4 & H5).
      exists s, hd. split; [by apply Hold|]. split; [done|]. split; [done|].
      split; [|done]. rewrite Hhs, lookup_insert_ne; [done|].
      intros <-. apply Haddr. by apply elem_of_dom.
  - done.
Qed.

Lemma createLockSurfaces_all (os : list ProxyId) (q : simple_locker.Process) :
  session_inv comp l q ->
  exists q',
    simple_locker.createLockSurfaces CreateSurface os q = simple_locker.Return tt q'
    /\ session_inv comp l q'
    /\ (forall o, o ∈ os -> surface_ready q' o)
    /\ (forall o, surface_ready q o -> surface_ready q' o)
    /\ simple_locker.outputs (simple_locker.the_client q')
       = simple_locker.outputs (simple_locker.the_client q)
    /\ simple_locker.lockedReceived (simple_locker.the_client q')
       = simple_locker.lockedReceived (simple_locker.the_client q)
    /\ simple_locker.done (simple_locker.the_client q')
       = simple_locker.done (simple_locker.the_client q)
    /\ simple_locker.lockManager (simple_locker.the_client q')
       = simple_locker.lockManager (simple_locker.the_client q).
Proof.
  revert q. induction os as [|o os IH]; intros q Hinv.
  - exists q. split; [done|]. split; [done|]. split; [|done].
    intros o Ho. by apply elem_of_nil in Ho.
  - destruct (createLockSurface_step q o Hinv)
      as (q1 & Hrun & Hinv1 & Hready & Hkeep & Ho1 & Hr1 & Hd1 & Hm1).
    destruct (IH q1 Hinv1) as (q' & Hrun' & Hinv' & Hall & Hkeep' & Ho' & Hr' & Hd' & Hm').
    exists q'. cbn [simple_locker.createLockSurfaces]. rewrite Hrun.
    split; [exact Hrun'|]. split; [exact Hinv'|]. split; [|split].
    + intros o' [->|Hin]%elem_of_cons; [by apply Hkeep'|by apply Hall].
    + intros o' Hrd. by apply Hkeep', Hkeep.
    + by rewrite Ho', Hr', Hd', Hm'.
Qed.
End LockSessionLemmas.

Lemma run_SessionLockAddListener_client (l : ProxyId) :
  (run (SessionLockAddListener (Some simple_locker.client_handler)) (registered_lock l)).2
  = Returned tt
      {| lock_BaseProxy := {| Id := l |}; lock_mu := mu_zero;
         privateSessionLockLocked := [simple_locker.client_handler];
         privateSessionLockFinished := [simple_locker.client_handler] |}.
Proof. reflexivity. Qed.

Lemma SessionLockManager_Lock_eq (ctx : Context) (m : ProxyId) :
  SessionLockManager_Lock ctx m
  = ({| objects :=
          <[fresh (dom (objects ctx)) :=
              ProxyLock (registered_lock (fresh (dom (objects ctx))))]> (objects ctx);
        submitted :=
          submitted ctx
            ++ [({| sender := m; opcode := ManagerRequestLock;
                    args := [ArgProxy (fresh (dom (objects ctx)))] |},
                 default None (head (faults ctx)))];
        faults := tail (faults ctx) |},
     (fresh (dom (objects ctx)), default None (head (faults ctx)))).
Proof. done. Qed.

(** X13 ([LockSession] covers every output).  Let the round trip before the
    lock succeed, the client have a lock manager and a compositor after it,
    the transport accept every request, and [CreateSurface] succeed.  Then
    [LockSession] returns no error; the client holds a new lock, registered
    under an identifier unused before, and listens to both of its events;
    and for every output the client knows, in whatever order [range] visits
    them, it has recorded a lock surface whose handler listens to its
    "configure" events.  Whether "locked" was received and whether [done] is
    closed are as the round trip left them. *)
Theorem LockSession_covers_every_output
    (CreateSurface : Context -> ProxyId -> Context * (ProxyId * option TransportError))
    (DisplayRoundtrip : simple_locker.Process ->
                        simple_locker.GoResult (option TransportError))
    (range_outputs : gmap Z ProxyId -> list ProxyId)
    (p p1 : simple_locker.Process) (m m1 comp : ProxyId) :
  simple_locker.lockManager (simple_locker.the_client p) = Some m ->
  DisplayRoundtrip
    (simple_locker.print (simple_locker.Printed_LockManagerId m)
       (simple_locker.print simple_locker.Printed_AttemptingToLock p))
  = simple_locker.Return None p1 ->
  simple_locker.lockManager (simple_locker.the_client p1) = Some m1 ->
  simple_locker.compositor (simple_locker.the_client p1) = Some comp ->
  faults (simple_locker.wire p1) = [] ->
  CreateSurface_succeeds CreateSurface comp ->
  (forall n o, simple_locker.outputs (simple_locker.the_client p1) !! n = Some o ->
               o ∈ range_outputs (simple_locker.outputs (simple_locker.the_client p1))) ->
  exists p' l,
    simple_locker.LockClient_LockSession CreateSurface DisplayRoundtrip range_outputs p
    = simple_locker.Return None p'
    /\ (l ∉ dom (objects (simple_locker.wire p1)))
    /\ simple_locker.lock (simple_locker.the_client p') = Some l
    /\ client_listens p' l
    /\ simple_locker.outputs (simple_locker.the_client p')
       = simple_locker.outputs (simple_locker.the_client p1)
    /\ (forall n o, simple_locker.outputs (simple_locker.the_client p') !! n = Some o ->
                    surface_ready p' o)
    /\ simple_locker.lockedReceived (simple_locker.the_client p')
       = simple_locker.lockedReceived (simple_locker.the_client p1)
    /\ simple_locker.done (simple_locker.the_client p')
       = simple_locker.done (simple_locker.the_client p1).
Proof.
  intros Hm Hrt Hm1 Hcomp Hfaults HCS Hrange.
  unfold simple_locker.LockClient_LockSession.
  cbn [simple_locker.the_client simple_locker.print]. rewrite Hm, Hrt, Hm1.
  rewrite SessionLockManager_Lock_eq, Hfaults. cbn [head tail default].
  set (l := fresh (dom (objects (simple_locker.wire p1)))).
  cbn [simple_locker.print simple_locker.with_client simple_locker.with_wire
       simple_locker.wire simple_locker.the_client].
  unfold SessionLock_call. cbn [objects]. rewrite lookup_insert_eq.
  rewrite run_SessionLockAddListener_client.
  cbn [objects submitted faults simple_locker.outputs].
  rewrite insert_insert_eq.
  match goal with
  | |- context [simple_locker.createLockSurfaces _ _ ?q] => set (p4 := q)
  end.
  assert (Hinv : session_inv comp l p4).
  { split; [done|]. split; [done|]. split; [done|].
    eexists. split; [apply lookup_insert_eq|]. by repeat split. }
  destruct (createLockSurfaces_all CreateSurface comp l HCS
              (range_outputs (simple_locker.outputs (simple_locker.the_client p1))) p4 Hinv)
    as (p5 & Hrun & (Hc5 & Hl5 & Hf5 & Hlisten5) & Hall & _ & Ho5 & Hr5 & Hd5 & _).
  rewrite Hrun.
  exists (simple_locker.print simple_locker.Printed_LockSurfacesCreated p5), l.
  split; [done|]. split; [apply is_fresh|]. split; [done|].
  split; [by apply (client_listens_objects p5)|]. split; [done|].
  split; [|done].
  intros n o Hno. cbn [simple_locker.print simple_locker.the_client] in Hno.
  rewrite Ho5 in Hno. destruct (Hall o (Hrange n o Hno)) as (ls & addr & Hs & Hh).
  exists ls, addr. split; [done|]. by apply (handler_listens_frame p5).
Qed.

Lemma sample_CreateSurface_succeeds (comp : ProxyId) :
  CreateSurface_succeeds sample_CreateSurface comp.
Proof.
  intros ctx Hf. unfold sample_CreateSurface. cbn. rewrite Hf. cbn.
  split; [done|]. split; [done|].
  apply insert_subseteq, not_elem_of_dom, is_fresh.
Qed.

(** The process after [Connect], with a round trip in which nothing
    arrives: [LockSession] takes the lock 1 and covers the output 31. *)
Lemma LockSession_covers_every_output_witness :
  exists p' l,
    simple_locker.LockClient_LockSession sample_CreateSurface sample_DisplayRoundtrip
      sample_range_outputs sample_connected
    = simple_locker.Return None p'
    /\ (l ∉ dom (objects sample_context))
    /\ simple_locker.lock (simple_locker.the_client p') = Some l
    /\ client_listens p' l
    /\ simple_locker.outputs (simple_locker.the_client p') = {[ 30 := 31%nat ]}
    /\ (forall n o, simple_locker.outputs (simple_locker.the_client p') !! n = Some o ->
                    surface_ready p' o)
    /\ simple_locker.lockedReceived (simple_locker.the_client p') = false
    /\ simple_locker.done (simple_locker.the_client p') = false.
Proof.
  apply (LockSession_covers_every_output sample_CreateSurface sample_DisplayRoundtrip
           sample_range_outputs sample_connected _ 0%nat 0%nat 20%nat
           eq_refl eq_refl eq_refl eq_refl eq_refl (sample_CreateSurface_succeeds 20%nat)).
  intros n o Hno. change (({[ 30 := 31%nat ]} : gmap Z ProxyId) !! n = Some o) in Hno.
  apply lookup_singleton_Some in Hno as [<- <-].
  vm_compute. left.
Defined.

(** X14 (a lock that could not be requested).  [LockSession] on a client
    without a lock manager returns an error before anything else happens: no
    round trip is made and nothing is sent.  When the round trip succeeds
    and the [lock] request cannot be sent, [LockSession] returns the error,
    yet the client holds the new lock all the same: [c.lock] is the new
    proxy, which is registered and has no listener; no lock surface is
    created and the client is not registered as listener. *)
Theorem LockSession_failure_keeps_the_lock
    (CreateSurface : Context -> ProxyId -> Context * (ProxyId * option TransportError))
    (DisplayRoundtrip : simple_locker.Process ->
                        simple_locker.GoResult (option TransportError))
    (range_outputs : gmap Z ProxyId -> list ProxyId)
    (p p1 : simple_locker.Process) (m m1 : ProxyId) (e : TransportError) :
  (simple_locker.lockManager (simple_locker.the_client p) = None ->
   simple_locker.LockClient_LockSession CreateSurface DisplayRoundtrip range_outputs p
   = simple_locker.Return (Some simple_locker.LockManagerNotInitialized)
       (simple_locker.print simple_locker.Printed_AttemptingToLock p))
  /\ (simple_locker.lockManager (simple_locker.the_client p) = Some m ->
      DisplayRoundtrip
        (simple_locker.print (simple_locker.Printed_LockManagerId m)
           (simple_locker.print simple_locker.Printed_AttemptingToLock p))
      = simple_locker.Return None p1 ->
      simple_locker.lockManager (simple_locker.the_client p1) = Some m1 ->
      (SessionLockManager_Lock (simple_locker.wire p1) m1).2.2 = Some e ->
      let l := (SessionLockManager_Lock (simple_locker.wire p1) m1).2.1 in
      exists p',
        simple_locker.LockClient_LockSession CreateSurface DisplayRoundtrip range_outputs p
        = simple_locker.Return (Some (simple_locker.FailedToCreateSessionLock e)) p'
        /\ simple_locker.lock (simple_locker.the_client p') = Some l
        /\ (l ∉ dom (objects (simple_locker.wire p1)))
        /\ objects (simple_locker.wire p') !! l = Some (ProxyLock (registered_lock l))
        /\ requests (simple_locker.wire p')
           = requests (simple_locker.wire p1)
               ++ [{| sender := m1; opcode := ManagerRequestLock; args := [ArgProxy l] |}]
        /\ simple_locker.surfaces (simple_locker.the_client p')
           = simple_locker.surfaces (simple_locker.the_client p1)
        /\ simple_locker.surfaceHandlers p' = simple_locker.surfaceHandlers p1
        /\ simple_locker.stdout p' = simple_locker.stdout p1).
Proof.
  split.
  - intros Hm. unfold simple_locker.LockClient_LockSession.
    cbn [simple_locker.the_client simple_locker.print]. by rewrite Hm.
  - intros Hm Hrt Hm1 Herr l.
    unfold simple_locker.LockClient_LockSession.
    cbn [simple_locker.the_client simple_locker.print]. rewrite Hm, Hrt, Hm1.
    unfold l. rewrite SessionLockManager_Lock_eq in *. cbn [fst snd] in *.
    rewrite Herr. eexists. split; [reflexivity|].
    cbn. unfold requests. cbn. rewrite fmap_app, lookup_insert_eq.
    repeat split; try done. apply is_fresh.
Qed.

(** With a transport that refuses the next request, the client ends up
    holding the lock 1. *)
Lemma LockSession_failure_keeps_the_lock_witness :
  let p := simple_locker.with_wire
             {| objects := objects sample_context; submitted := [];
                faults := [Some 5%nat] |} sample_connected in
  (forall q,
     simple_locker.the_client q = simple_locker.NewLockClient ->
     simple_locker.LockClient_LockSession sample_CreateSurface sample_DisplayRoundtrip
       sample_range_outputs q
     = simple_locker.Return (Some simple_locker.LockManagerNotInitialized)
         (simple_locker.print simple_locker.Printed_AttemptingToLock q))
  /\ exists p',
    simple_locker.LockClient_LockSession sample_CreateSurface sample_DisplayRoundtrip
      sample_range_outputs p
    = simple_locker.Return (Some (simple_locker.FailedToCreateSessionLock 5%nat)) p'
    /\ simple_locker.lock (simple_locker.the_client p') = Some 1%nat
    /\ (1%nat ∉ dom (objects sample_context))
    /\ objects (simple_locker.wire p') !! 1%nat = Some (ProxyLock (registered_lock 1%nat))
    /\ requests (simple_locker.wire p')
       = [{| sender := 0%nat; opcode := ManagerRequestLock; args := [ArgProxy 1%nat] |}]
    /\ simple_locker.surfaces (simple_locker.the_client p') = ∅
    /\ simple_locker.surfaceHandlers p' = ∅
    /\ simple_locker.stdout p'
       = [simple_locker.Printed_AttemptingToLock; simple_locker.Printed_LockManagerId 0%nat].
Proof.
  intros p. split.
  - intros q Hq.
    apply (proj1 (LockSession_failure_keeps_the_lock sample_CreateSurface
                    sample_DisplayRoundtrip sample_range_outputs q q 0%nat 0%nat 5%nat)).
    by rewrite Hq.
  - exact (proj2 (LockSession_failure_keeps_the_lock sample_CreateSurface
                    sample_DisplayRoundtrip sample_range_outputs p _ 0%nat 0%nat 5%nat)
             eq_refl eq_refl eq_refl eq_refl).
Defined.

(** ** HandleRegistryGlobal *)

(** X15 (globals are bound by interface name).  [HandleRegistryGlobal]
    does nothing at all, not even print, for a global that is neither
    [wl_compositor] nor [wl_output] nor [ext_session_lock_manager_v1], and
    for a lock manager advertised with version 0.  For a lock manager of
    version 1 or more it binds version 1, whatever version was advertised,
    and the client's lock manager becomes the proxy
    [BindSessionLockManager] returns, which is new to the context; for an
    output it records the bound proxy under the name of the global, in
    place of what was recorded under that name; for a compositor it records
    the bound proxy.  The other fields of the client stay as they are. *)
Theorem globals_are_bound_by_interface_name
    (RegistryBindCompositorInterface RegistryBindOutputInterface :
       Context -> option ProxyId -> uint32 -> uint32 -> Context * option ProxyId)
    (Registry_Bind :
       Context -> option ProxyId -> uint32 -> string -> uint32 -> ProxyId ->
       Context * option TransportError)
    (p : simple_locker.Process) (ev : simple_locker.RegistryGlobalEvent) :
  let c := simple_locker.the_client p in
  let handle :=
    simple_locker.LockClient_HandleRegistryGlobal RegistryBindCompositorInterface
      RegistryBindOutputInterface Registry_Bind p ev in
  let bound :=
    BindSessionLockManager Registry_Bind (simple_locker.wire p) (simple_locker.registry c)
      (simple_locker.Global_Name ev) 1 in
  (simple_locker.Global_Interface ev <> "wl_compositor"%string ->
   simple_locker.Global_Interface ev <> "wl_output"%string ->
   (simple_locker.Global_Interface ev <> "ext_session_lock_manager_v1"%string
    \/ simple_locker.Global_Version ev < 1) ->
   handle = simple_locker.Return tt p)
  /\ (simple_locker.Global_Interface ev = "ext_session_lock_manager_v1"%string ->
      1 <= simple_locker.Global_Version ev ->
      exists p',
        handle = simple_locker.Return tt p'
        /\ simple_locker.lockManager (simple_locker.the_client p') = Some bound.2
        /\ (bound.2 ∉ dom (objects (simple_locker.wire p)))
        /\ simple_locker.wire p' = bound.1
        /\ simple_locker.compositor (simple_locker.the_client p') = simple_locker.compositor c
        /\ simple_locker.outputs (simple_locker.the_client p') = simple_locker.outputs c
        /\ simple_locker.lock (simple_locker.the_client p') = simple_locker.lock c)
  /\ (simple_locker.Global_Interface ev = "wl_output"%string ->
      forall ctx o,
        RegistryBindOutputInterface (simple_locker.wire p) (simple_locker.registry c)
          (simple_locker.Global_Name ev) 3 = (ctx, Some o) ->
        exists p',
          handle = simple_locker.Return tt p'
          /\ simple_locker.outputs (simple_locker.the_client p')
             = <[simple_locker.Global_Name ev := o]> (simple_locker.outputs c)
          /\ simple_locker.wire p' = ctx
          /\ simple_locker.compositor (simple_locker.the_client p') = simple_locker.compositor c
          /\ simple_locker.lockManager (simple_locker.the_client p')
             = simple_locker.lockManager c
          /\ simple_locker.surfaces (simple_locker.the_client p') = simple_locker.surfaces c)
  /\ (simple_locker.Global_Interface ev = "wl_compositor"%string ->
      forall ctx comp,
        RegistryBindCompositorInterface (simple_locker.wire p) (simple_locker.registry c)
          (simple_locker.Global_Name ev) 4 = (ctx, Some comp) ->
        exists p',
          handle = simple_locker.Return tt p'
          /\ simple_locker.compositor (simple_locker.the_client p') = Some comp
          /\ simple_locker.wire p' = ctx
          /\ simple_locker.outputs (simple_locker.the_client p') = simple_locker.outputs c
          /\ simple_locker.lockManager (simple_locker.the_client p')
             = simple_locker.lockManager c).
Proof.
  intros c handle bound. unfold handle, bound.
  unfold simple_locker.LockClient_HandleRegistryGlobal. fold c.
  split; [|split; [|split]].
  - intros H1 H2 H3. rewrite decide_False by done.
    rewrite decide_False by (intros [? ?]; destruct H3; [done|lia]).
    by rewrite decide_False.
  - intros H1 H2. rewrite decide_False by (by rewrite H1).
    rewrite decide_True by done.
    cbn [simple_locker.wire simple_locker.print].
    destruct (BindSessionLockManager Registry_Bind _ _ _ _) as [ctx manager] eqn:Hb.
    eexists. split; [reflexivity|]. cbn. repeat split; try done.
    unfold BindSessionLockManager in Hb.
    destruct (NewSessionLockManager (simple_locker.wire p)) as [ctx1 m'] eqn:Hnew.
    destruct (Registry_Bind ctx1 _ _ _ _ _). injection Hb as _ <-.
    unfold NewSessionLockManager in Hnew. injection Hnew as _ <-. apply is_fresh.
  - intros H1 ctx o Hbind. rewrite decide_False by (by rewrite H1).
    rewrite decide_False by (intros [? ?]; by rewrite H1 in *).
    rewrite decide_True by done.
    cbn [simple_locker.wire simple_locker.print]. rewrite Hbind.
    eexists. split; [reflexivity|]. done.
  - intros H1 ctx comp Hbind. rewrite decide_True by done.
    cbn [simple_locker.wire simple_locker.print]. rewrite Hbind.
    eexists. split; [reflexivity|]. done.
Qed.

(** ** The order in which concurrent calls take effect *)

Lemma interleaving_prepend {A} (ls : list (list A)) i (pre todo rest : list A) :
  ls !! i = Some (pre ++ todo) ->
  interleaving (<[i := todo]> ls) rest -> interleaving ls (pre ++ rest).
Proof.
  revert ls. induction pre as [|x pre IH]; intros ls Hi Hrest.
  - by rewrite list_insert_id in Hrest.
  - cbn. apply (interleaving_cons ls i x (pre ++ todo)); [done|].
    apply IH.
    + apply list_lookup_insert_eq. by eapply lookup_lt_Some.
    + by rewrite list_insert_insert_eq.
Qed.

Lemma interleaving_concat {A} (ls : list (list A)) : interleaving ls (concat ls).
Proof.
  remember (length (concat ls)) as n eqn:Hn. revert ls Hn.
  induction n as [|n IH]; intros ls Hn.
  - assert (Hnil : concat ls = []) by (by apply nil_length_inv).
    rewrite Hnil. apply interleaving_nil.
    clear Hn. induction ls as [|l ls IHls]; [done|].
    cbn in Hnil. apply app_eq_nil in Hnil as [-> Hrest]. constructor; [done|by apply IHls].
  - assert (Hsplit : exists pre x rest post,
               ls = pre ++ (x :: rest) :: post /\ Forall (fun l => l = []) pre).
    { clear IH. induction ls as [|l ls IHls]; [done|].
      destruct l as [|x rest].
      - cbn in Hn. destruct (IHls Hn) as (pre & x & rest & post & -> & Hpre).
        exists ([] :: pre), x, rest, post. split; [done|]. by constructor.
      - by exists [], x, rest, ls. }
    destruct Hsplit as (pre & x & rest & post & -> & Hpre).
    assert (Hcat : concat pre = []).
    { clear -Hpre. induction Hpre as [|l pre -> _ IHp]; [done|]. done. }
    rewrite concat_app, Hcat. cbn.
    apply (interleaving_cons _ (length pre) x rest).
    + by rewrite lookup_app_r, Nat.sub_diag by lia.
    + replace (<[length pre := rest]> (pre ++ (x :: rest) :: post))
        with (pre ++ rest :: post).
      2:{ rewrite insert_app_r_alt by lia. by rewrite Nat.sub_diag. }
      replace (rest ++ concat post) with (concat (pre ++ rest :: post))
        by (by rewrite concat_app, Hcat).
      apply IH. rewrite concat_app, Hcat in Hn |- *. cbn in Hn |- *.
      rewrite length_app in Hn |- *. cbn in Hn. lia.
Qed.

Section LinearizationLemmas.
Context {T Slot : Type} `{ObjectLaws T Slot}.
Variable dispatch : Event -> Prog Slot Event.

Lemma run_Do_snd {A R} (a : Action Slot R) (k : R -> Prog Slot A) (t t' : T) r :
  perform a t = Yields r t' -> (run (Do a k) t).2 = (run (k r) t').2.
Proof. intros Hp. cbn [run]. by rewrite Hp. Qed.

Lemma run_bind_snd {A B} (p : Prog Slot A) (f : A -> Prog Slot B) (t t' : T) a :
  (run p t).2 = Returned a t' -> (run (p ≫= f) t).2 = (run (f a) t').2.
Proof. intros Hp. rewrite run_bind. unfold then_run. by rewrite Hp. Qed.

Lemma run_sequence_app (log more : list (Call Slot)) (t0 t1 t2 : T) :
  (run (sequence dispatch log) t0).2 = Returned tt t1 ->
  (run (sequence dispatch more) t1).2 = Returned tt t2 ->
  (run (sequence dispatch (log ++ more)) t0).2 = Returned tt t2.
Proof.
  revert t0. induction log as [|c log IH]; intros t0 Hlog Hmore.
  - cbn in Hlog. by simplify_eq.
  - cbn [sequence app] in *. rewrite run_bind in Hlog |- *. unfold then_run in *.
    destruct (run (call_prog dispatch c) t0).2 as [[] t| |] eqn:Hc; [|done|done].
    cbn [snd] in *. by apply IH.
Qed.

Lemma tracked_frame (t t' t_log t_log' : T) th todo :
  tracked dispatch t t_log th todo ->
  holds th <> HoldsWrite \/ (t' = t /\ t_log' = t_log) ->
  tracked dispatch t' t_log' th todo.
Proof.
  intros (cur & Hcode & Hcase) Hor. exists cur. split; [done|].
  destruct (holds th); [done|done|].
  destruct Hor as [?|[-> ->]]; done.
Qed.

(** The first operation of the calls not started. *)
Lemma begin_call (t t_log : T) (todo : list (Call Slot)) th' t' :
  Forall (good_call (T:=T) dispatch) todo -> quiescent t_log ->
  (obj_mu t = mu_zero -> t = t_log) ->
  thread_step {| code := sequence dispatch todo; holds := HoldsNone |} t = Steps th' t' ->
  exists done todo' t_log',
    todo = done ++ todo'
    /\ Forall (good_call (T:=T) dispatch) todo'
    /\ (run (sequence dispatch done) t_log).2 = Returned tt t_log'
    /\ quiescent t_log'
    /\ tracked dispatch t' t_log' th' todo'
    /\ step_kind t t' t_log t_log' HoldsNone (holds th').
Proof.
  intros Hgood Hq Hfree. induction Hgood as [|c todo Hc Hgood IH]; intros Hstep; [done|].
  cbn [sequence] in Hstep.
  destruct Hc as [[Hro Hnoop]|[(k & Hk & Hws) Hrun]].
  - remember (call_prog dispatch c) as p eqn:Hp.
    remember HoldsNone as h0 eqn:Hh0 in Hro at 2.
    assert (Hone : (run (sequence dispatch [c]) t_log).2 = Returned tt t_log).
    { cbn [sequence]. rewrite <- Hp. by rewrite (run_bind_snd _ _ _ _ _ (Hnoop t_log Hq)). }
    destruct Hro as [a|s k Hk|kd k Hk|k Hk|s k Hk|s i k Hk|c' k Hk|k Hk]; try done.
    + destruct (IH Hstep) as (done & todo' & t_log' & -> & Hg' & Hrun' & Hq' & Htr & Hkind).
      exists (c :: done), todo', t_log'. split; [done|]. split; [done|].
      split; [|done]. cbn [sequence]. rewrite <- Hp. exact Hrun'.
    + unfold thread_step in Hstep. cbn in Hstep. injection Hstep as <- <-.
      exists [c], todo, t_log. split; [done|]. split; [done|]. split; [done|].
      split; [done|]. split; [|by left].
      exists (k (length (obj_slot s t))). split; [done|]. cbn. apply Hk.
    + unfold thread_step in Hstep. cbn in Hstep. injection Hstep as <- <-.
      exists [c], todo, t_log. split; [done|]. split; [done|]. split; [done|].
      split; [done|]. split; [|by left].
      exists (k tt). split; [done|]. cbn. apply Hk.
    + unfold thread_step in Hstep. cbn in Hstep. unfold RWMutex_RLock in Hstep.
      destruct (writer (obj_mu t)) eqn:Hw; [done|]. cbn in Hstep. injection Hstep as <- <-.
      exists [c], todo, t_log. split; [done|]. split; [done|]. split; [done|].
      split; [done|]. split.
      * exists (k tt). split; [done|]. cbn. apply Hk.
      * right; left. cbn. repeat split; try done. by rewrite obj_set_mu_set_mu.
  - rewrite Hk in Hstep. unfold thread_step in Hstep. cbn in Hstep.
    unfold RWMutex_Lock in Hstep.
    destruct (writer (obj_mu t)) eqn:Hw; [done|].
    destruct (readers (obj_mu t)) as [|n] eqn:Hr; [|done]. cbn in Hstep. injection Hstep as <- <-.
    assert (Hzero : obj_mu t = mu_zero) by (destruct (obj_mu t); cbn in *; by subst).
    specialize (Hfree Hzero). subst t_log.
    destruct (Hrun t Hq) as (t_fin & Hfin & Hqfin).
    exists [c], todo, t_fin. split; [done|]. split; [done|]. split.
    { cbn [sequence]. by rewrite (run_bind_snd _ _ _ _ _ Hfin). }
    split; [done|]. split.
    + exists (k tt). split; [done|]. cbn. split; [done|].
      rewrite Hk in Hfin. rewrite <- Hfin. symmetry. apply run_Do_snd.
      cbn. unfold RWMutex_Lock. by rewrite Hw, Hr.
    + right; right; left. done.
Qed.

(** One operation of a goroutine at a tracked point. *)
Lemma tracked_step (t t_log : T) (th : Thread Slot) (todo : list (Call Slot)) th' t' :
  tracked dispatch t t_log th todo ->
  Forall (good_call (T:=T) dispatch) todo -> quiescent t_log ->
  (obj_mu t = mu_zero -> t = t_log) ->
  (holds th = HoldsRead -> writer (obj_mu t) = false) ->
  thread_step th t = Steps th' t' ->
  exists done todo' t_log',
    todo = done ++ todo'
    /\ Forall (good_call (T:=T) dispatch) todo'
    /\ (run (sequence dispatch done) t_log).2 = Returned tt t_log'
    /\ quiescent t_log'
    /\ tracked dispatch t' t_log' th' todo'
    /\ step_kind t t' t_log t_log' (holds th) (holds th').
Proof.
  intros (cur & Hcode & Hcase) Hgood Hq Hfree Hrd Hstep.
  destruct th as [p h]. cbn [code holds] in *. subst p.
  assert (Hsame : forall cur' h',
             match h' with
             | HoldsWrite => write_section cur' /\ (run cur' t').2 = Returned tt t_log
             | h => reader_only HoldsNone h cur'
             end ->
             th' = {| code := cur' ≫= (fun _ => sequence dispatch todo); holds := h' |} ->
             step_kind t t' t_log t_log h h' ->
             exists done todo' t_log',
               todo = done ++ todo'
               /\ Forall (good_call (T:=T) dispatch) todo'
               /\ (run (sequence dispatch done) t_log).2 = Returned tt t_log'
               /\ quiescent t_log'
               /\ tracked dispatch t' t_log' th' todo'
               /\ step_kind t t' t_log t_log' h (holds th')).
  { intros cur' h' Hc' -> Hkind. exists [], todo, t_log.
    split; [done|]. split; [done|]. split; [done|]. split; [done|].
    split; [|done]. exists cur'. split; [done|]. cbn [holds]. by destruct h'. }
  destruct h.
  - (* no lock held *)
    remember HoldsNone as h0 eqn:Hh0 in Hcase at 2.
    destruct Hcase as [a|s k Hk|kd k Hk|k Hk|s k Hk|s i k Hk|c' k Hk|k Hk]; try done.
    + by apply begin_call.
    + unfold thread_step in Hstep. cbn in Hstep. injection Hstep as <- <-.
      eapply (Hsame _ HoldsNone); [apply Hk|done|by left].
    + unfold thread_step in Hstep. cbn in Hstep. injection Hstep as <- <-.
      eapply (Hsame _ HoldsNone); [apply Hk|done|by left].
    + unfold thread_step in Hstep. cbn in Hstep. unfold RWMutex_RLock in Hstep.
      destruct (writer (obj_mu t)) eqn:Hw; [done|]. cbn in Hstep. injection Hstep as <- <-.
      eapply (Hsame _ HoldsRead); [apply Hk|done|].
      right; left. repeat split; try done. by rewrite obj_set_mu_set_mu.
  - (* the read lock held *)
    remember HoldsRead as h0 eqn:Hh0 in Hcase.
    destruct Hcase as [a|s k Hk|kd k Hk|k Hk|s k Hk|s i k Hk|c' k Hk|k Hk]; try done.
    + unfold thread_step in Hstep. cbn in Hstep. injection Hstep as <- <-.
      eapply (Hsame _ HoldsRead); [apply Hk|done|by left].
    + unfold thread_step in Hstep. cbn in Hstep.
      destruct (obj_slot s t !! i) as [e|]; [|done]. injection Hstep as <- <-.
      eapply (Hsame _ HoldsRead); [apply Hk|done|by left].
    + unfold thread_step in Hstep. cbn in Hstep. injection Hstep as <- <-.
      eapply (Hsame _ HoldsRead); [apply Hk|done|by left].
    + unfold thread_step in Hstep. cbn in Hstep. unfold RWMutex_RUnlock in Hstep.
      destruct (readers (obj_mu t)) as [|n] eqn:Hr; [done|]. cbn in Hstep. injection Hstep as <- <-.
      eapply (Hsame _ HoldsNone); [apply Hk|done|].
      right; left. repeat split; try done; [by apply Hrd|].
      by rewrite obj_set_mu_set_mu.
  - (* the write lock held *)
    destruct Hcase as [Hws Hrun].
    destruct Hws as [k Hk|s k Hk|s i k Hk|s k Hk|s v k Hk].
    + unfold thread_step in Hstep. cbn in Hstep. unfold RWMutex_Unlock in Hstep.
      destruct (writer (obj_mu t)) eqn:Hw; [|done]. cbn in Hstep.
      assert (Hp : perform MuUnlock t
                   = Yields tt (obj_set_mu {| readers := readers (obj_mu t);
                                              writer := false |} t)).
      { cbn. unfold RWMutex_Unlock. by rewrite Hw. }
      rewrite (run_Do_snd _ k _ _ _ Hp), Hk in Hrun. cbn in Hrun.
      injection Hrun as Hend. injection Hstep as <- <-.
      eapply (Hsame (k tt) HoldsNone); [rewrite Hk; apply ro_Ret|done|].
      do 4 right. done.
    + unfold thread_step in Hstep. cbn in Hstep. injection Hstep as <- <-.
      eapply (Hsame _ HoldsWrite); [|done|by do 3 right; left].
      split; [apply Hk|]. by rewrite <- Hrun.
    + unfold thread_step in Hstep. cbn in Hstep.
      destruct (obj_slot s t !! i) as [e|] eqn:He; [|done]. injection Hstep as <- <-.
      eapply (Hsame _ HoldsWrite); [|done|by do 3 right; left].
      split; [apply Hk|]. rewrite <- Hrun. symmetry. apply run_Do_snd. cbn. by rewrite He.
    + unfold thread_step in Hstep. cbn in Hstep. injection Hstep as <- <-.
      eapply (Hsame _ HoldsWrite); [|done|by do 3 right; left].
      split; [apply Hk|]. by rewrite <- Hrun.
    + unfold thread_step in Hstep. cbn in Hstep. injection Hstep as <- <-.
      eapply (Hsame _ HoldsWrite); [|done|by do 3 right; left].
      split; [apply Hk|]. by rewrite <- Hrun.
Qed.
End LinearizationLemmas.

Section LinearizationPool.
Context {T Slot : Type} `{ObjectLaws T Slot}.
Variable dispatch : Event -> Prog Slot Event.
Variable t0 : T.
Variable callers : list (list (Call Slot)).

Lemma pool_inv_no_writer (P : Pool T Slot) :
  pool_inv P -> writer (obj_mu (shared P)) = false ->
  holders HoldsWrite (threads P) = 0%nat.
Proof. intros [_ [[_ ?]|[? _]] _] Hw; [done|congruence]. Qed.

Lemma linearized_init :
  quiescent t0 -> Forall (Forall (good_call (T:=T) dispatch)) callers ->
  linearized dispatch t0 callers
    {| shared := t0; threads := map (fun cs => start (sequence dispatch cs)) callers |}.
Proof.
  intros Hq Hgood. exists [], callers, t0.
  split; [done|]. split; [done|]. split; [done|]. split; [|split; [done|]].
  - cbn [threads]. clear Hgood. induction callers as [|cs css IH]; [constructor|].
    constructor; [|exact IH]. exists (Ret tt). split; [done|]. apply ro_Ret.
  - intros _. cbn [shared]. rewrite <- Hq. apply obj_set_mu_id.
Qed.

Lemma linearized_step (P P' : Pool T Slot) :
  pool_inv P -> linearized dispatch t0 callers P -> pool_step P P' ->
  linearized dispatch t0 callers P'.
Proof.
  intros Hinv (log & todos & t_log & Hext & Hrun & Hq & Htr & Hgood & Hfree) Hstep.
  destruct Hstep as [P i th th' t' Hi Hstep].
  destruct (Forall2_lookup_l _ _ _ _ _ Htr Hi) as (todo & Htodo & Htri).
  pose proof (Forall_lookup_1 _ _ _ _ Hgood Htodo) as Hgoodi.
  assert (Hfree' : obj_mu (shared P) = mu_zero -> shared P = t_log).
  { intros Hz. rewrite <- Hfree.
    - by rewrite <- Hz, obj_set_mu_id.
    - apply pool_inv_no_writer; [done|]. by rewrite Hz. }
  assert (Hrd : holds th = HoldsRead -> writer (obj_mu (shared P)) = false).
  { intros Hh. by apply (pool_inv_held P i th Hinv Hi). }
  destruct (tracked_step dispatch _ _ _ _ _ _ Htri Hgoodi Hq Hfree' Hrd Hstep)
    as (done & todo' & t_log' & -> & Hgood' & Hrun' & Hq' & Htr' & Hkind).
  assert (Hothers : forall j thj, threads P !! j = Some thj -> j <> i ->
                      holds thj <> HoldsWrite \/ (t' = shared P /\ t_log' = t_log)).
  { intros j thj Hj Hne.
    destruct Hkind as [(-> & -> & _)|[(Hw & _)|[(Hw & _)|[(Hh & _)|(Hh & _)]]]].
    - by right.
    - left. intros Hhj. pose proof (holders_lookup _ _ _ _ Hj Hhj).
      pose proof (pool_inv_no_writer P Hinv Hw). lia.
    - left. intros Hhj. pose proof (holders_lookup _ _ _ _ Hj Hhj).
      pose proof (pool_inv_no_writer P Hinv Hw). lia.
    - left. intros Hhj. apply Hne.
      destruct Hinv as [_ [[_ Hz]|(_ & Hone & _)] _].
      + pose proof (holders_lookup _ _ _ _ Hi Hh). lia.
      + by apply (holders_unique HoldsWrite (threads P) j i thj th).
    - left. intros Hhj. apply Hne.
      destruct Hinv as [_ [[_ Hz]|(_ & Hone & _)] _].
      + pose proof (holders_lookup _ _ _ _ Hi Hh). lia.
      + by apply (holders_unique HoldsWrite (threads P) j i thj th). }
  exists (log ++ done), (<[i := todo']> todos), t_log'.
  split; [|split; [|split; [|split; [|split]]]].
  - intros rest Hrest. rewrite <- app_assoc. apply Hext.
    by apply (interleaving_prepend todos i done todo').
  - by apply (run_sequence_app dispatch log done t0 t_log).
  - done.
  - cbn [shared threads]. apply Forall2_lookup. intros j.
    destruct (decide (j = i)) as [->|Hne].
    + rewrite !list_lookup_insert_eq;
        [by constructor|by eapply lookup_lt_Some|by eapply lookup_lt_Some].
    + rewrite !list_lookup_insert_ne by done.
      pose proof (proj1 (Forall2_lookup _ _ _) Htr j) as Hj.
      destruct (threads P !! j) as [thj|] eqn:Hlk;
        inversion Hj as [thj' todoj Hjj|]; subst; constructor.
      eapply tracked_frame; [exact Hjj|]. by apply (Hothers j thj).
  - by apply Forall_insert.
  - cbn [shared threads]. intros Hzero.
    pose proof (holders_insert HoldsWrite (threads P) i th th' Hi) as Hins.
    destruct Hkind as [(-> & -> & Hh & Hnw)|[(Hw & -> & Hnw & Hnw' & Hmu)
                       |[(Hw & _ & Hh')|[(_ & Hh' & _)|(_ & _ & -> & ->)]]]].
    + apply Hfree. rewrite Hh, !decide_False in Hins by done. lia.
    + rewrite Hmu. apply Hfree.
      rewrite !decide_False in Hins by done. lia.
    + assert (Hpos : (0 < holders HoldsWrite (<[i := th']> (threads P)))%nat).
      { eapply (holders_lookup _ _ i th'); [|done].
        apply list_lookup_insert_eq. by eapply lookup_lt_Some. }
      lia.
    + assert (Hpos : (0 < holders HoldsWrite (<[i := th']> (threads P)))%nat).
      { eapply (holders_lookup _ _ i th'); [|done].
        apply list_lookup_insert_eq. by eapply lookup_lt_Some. }
      lia.
    + rewrite <- Hq. apply obj_set_mu_id.
Qed.

Lemma linearized_reachable (P0 P : Pool T Slot) :
  pool_inv P0 -> linearized dispatch t0 callers P0 -> rtc pool_step P0 P ->
  linearized dispatch t0 callers P.
Proof.
  intros Hinv Hlin Hreach. induction Hreach as [P|P P1 P2 Hstep _ IH]; [done|].
  apply IH; [by eapply pool_inv_step|by eapply linearized_step].
Qed.

Lemma bind_Ret_inv {A B} (p : Prog Slot A) (f : A -> Prog Slot B) b :
  p ≫= f = Ret b -> exists a, p = Ret a /\ f a = Ret b.
Proof. destruct p as [a| |R a k]; [by exists a|done|done]. Qed.

Lemma sequence_app_Ret (cs cs' : list (Call Slot)) :
  sequence dispatch cs = Ret tt -> sequence dispatch cs' = Ret tt ->
  sequence dispatch (cs ++ cs') = Ret tt.
Proof.
  induction cs as [|c cs IH]; intros Hcs Hcs'; [done|].
  cbn [sequence app] in *. apply bind_Ret_inv in Hcs as (a & Hc & Hrest).
  rewrite Hc. cbn. by apply IH.
Qed.

(** When every goroutine has returned, the receiver is what the calls give
    when they are made one after the other in some interleaving. *)
Lemma linearized_final (P : Pool T Slot) :
  pool_inv P -> linearized dispatch t0 callers P -> all_returned P ->
  exists cs, interleaving callers cs
             /\ (run (sequence dispatch cs) t0).2 = Returned tt (shared P).
Proof.
  intros Hinv (log & todos & t_log & Hext & Hrun & Hq & Htr & _ & Hfree) Hall.
  assert (Hret : forall i th, threads P !! i = Some th ->
                   holds th = HoldsNone /\ exists a, code th = Ret a).
  { intros i th Hi. pose proof (Forall_lookup_1 _ _ _ _ Hall Hi) as Hex.
    pose proof (pool_inv_lookup P i th Hinv Hi) as Hd.
    destruct th as [p h]. unfold thread_step in Hex. cbn [code holds] in *.
    destruct p as [a| |R a k]; [|done|by destruct (perform a (shared P))].
    split; [|by eexists]. by inversion Hd. }
  assert (Hnone : Forall (fun th => holds th = HoldsNone) (threads P)).
  { apply Forall_lookup. intros i th Hi. by apply (Hret i th). }
  assert (Hshared : shared P = t_log).
  { rewrite <- Hfree by (by apply holders_none).
    destruct Hinv as [Hr Hw _]. rewrite (holders_none HoldsRead) in Hr by done.
    assert (Hz : obj_mu (shared P) = mu_zero).
    { destruct Hw as [[Hw _]|(_ & Hone & _)].
      - destruct (obj_mu (shared P)); cbn in *. by subst.
      - rewrite (holders_none HoldsWrite) in Hone by done. lia. }
    by rewrite <- Hz, obj_set_mu_id. }
  assert (Hgen : forall ths tds,
             Forall2 (tracked dispatch (shared P) t_log) ths tds ->
             Forall (fun th => exists a, code th = Ret a) ths ->
             sequence dispatch (concat tds) = Ret tt).
  { intros ths tds H2. induction H2 as [|th todo ths tds Hth _ IH]; intros Hf; [done|].
    apply Forall_cons in Hf as [[a Ha] Hf].
    cbn [concat]. apply sequence_app_Ret; [|by apply IH].
    destruct Hth as (cur & Hcode & _). rewrite Ha in Hcode.
    symmetry in Hcode. apply bind_Ret_inv in Hcode as ([] & _ & Hseq).
    by destruct a. }
  assert (Hrest : sequence dispatch (concat todos) = Ret tt).
  { apply (Hgen (threads P)); [done|]. apply Forall_lookup. intros i th Hi.
    by apply (Hret i th). }
  exists (log ++ concat todos). split; [apply Hext, interleaving_concat|].
  rewrite Hshared. apply (run_sequence_app dispatch log _ t0 t_log); [done|].
  by rewrite Hrest.
Qed.
End LinearizationPool.

Section GoodCalls.
Context {T Slot : Type} `{ObjectLaws T Slot}.

Lemma reader_only_bind {A B} final mid h (p : Prog Slot A) (f : A -> Prog Slot B) :
  reader_only mid h p -> (forall a, reader_only final mid (f a)) ->
  reader_only final h (p ≫= f).
Proof.
  intros Hp Hf. induction Hp as [a|s k _ IH|kd k _ IH|k _ IH|s k _ IH|s i k _ IH
                                |c k _ IH|k _ IH];
    [apply Hf|by constructor..].
Qed.

Lemma reader_only_range_call (s : Slot) call n i :
  reader_only (A:=unit) HoldsRead HoldsRead (range_call s call n i).
Proof.
  revert i. induction n as [|n IH]; intros i; [apply ro_Ret|].
  cbn [range_call]. apply ro_Index. intros e. apply ro_Invoke. apply IH.
Qed.

Lemma reader_only_fan_out (s : Slot) call :
  reader_only (A:=unit) HoldsNone HoldsNone (fan_out s call).
Proof.
  unfold fan_out. apply ro_RLock. apply ro_Len_held. intros n.
  apply (reader_only_bind HoldsNone HoldsRead); [apply reader_only_range_call|].
  intros _. apply ro_RUnlock, ro_Ret.
Qed.

Lemma write_section_remove_loop (s : Slot) h n i :
  write_section (remove_loop s h n i ≫= (fun _ => act MuUnlock)).
Proof.
  revert i. induction n as [|n IH]; intros i; [by apply ws_Unlock|].
  cbn [remove_loop]. apply ws_Index. intros e.
  change (write_section
            ((if iface_eq e h
              then front ← act (Load s); back ← act (Load s);
                   act (Store s (take i front ++ drop (S i) back))
              else remove_loop s h n (S i)) ≫= (fun _ => act MuUnlock))).
  destruct (iface_eq e h); [|apply IH].
  apply ws_Load. intros front. apply ws_Load. intros back. apply ws_Store.
  by apply ws_Unlock.
Qed.

Lemma writing_call_AddHandler (s : Slot) (h : Handler) :
  writing_call (T:=T) (AddHandler s (Some h)).
Proof.
  split.
  - eexists. split; [reflexivity|]. cbn. apply ws_Load. intros old. apply ws_Store.
    by apply ws_Unlock.
  - intros t Hq. rewrite run_AddHandler_Some by done. eexists. split; [done|].
    by apply quiescent_set_slot.
Qed.

Lemma writing_call_RemoveHandler (s : Slot) (h : iface) :
  writing_call (T:=T) (RemoveHandler s h).
Proof.
  split.
  - eexists. split; [reflexivity|]. cbn. apply ws_Len. intros n.
    apply write_section_remove_loop.
  - intros t Hq. destruct (run_RemoveHandler s h t Hq) as [Hr _].
    eexists. split; [exact Hr|]. by apply quiescent_set_slot.
Qed.

Lemma reading_call_AddHandler_nil (s : Slot) : reading_call (T:=T) (AddHandler s None).
Proof. split; [apply ro_Ret|done]. Qed.

Lemma reading_call_dispatch (p : Prog Slot Event) :
  reader_only HoldsNone HoldsNone p ->
  (forall t : T, quiescent t -> exists e, (run p t).2 = Returned e t) ->
  reading_call (T:=T) (p;; mret tt).
Proof.
  intros Hro Hrun. split.
  - apply (reader_only_bind HoldsNone HoldsNone); [done|]. intros _. apply ro_Ret.
  - intros t Hq. destruct (Hrun t Hq) as [e He]. by rewrite (run_bind_snd _ _ _ _ _ He).
Qed.
End GoodCalls.

Lemma reader_only_SessionLock_Dispatch event :
  reader_only HoldsNone HoldsNone (SessionLock_Dispatch event).
Proof.
  unfold SessionLock_Dispatch.
  destruct (decide (Opcode event = LockEventLocked)) as [Hop|Hop].
  - apply ro_Len_free. intros n. destruct (decide (0 < n)%nat); [|apply ro_Ret].
    apply ro_New.
    apply (reader_only_bind HoldsNone HoldsNone); [apply reader_only_fan_out|].
    intros _. apply ro_Ret.
  - destruct (decide (Opcode event = LockEventFinished)) as [Hop'|Hop']; [|apply ro_Ret].
    apply ro_Len_free. intros n. destruct (decide (0 < n)%nat); [|apply ro_Ret].
    apply ro_New.
    apply (reader_only_bind HoldsNone HoldsNone); [apply reader_only_fan_out|].
    intros _. apply ro_Ret.
Qed.

Lemma reader_only_SessionLockSurface_Dispatch event :
  configure_payload event ->
  reader_only HoldsNone HoldsNone (SessionLockSurface_Dispatch event).
Proof.
  intros Hp. unfold SessionLockSurface_Dispatch.
  destruct (decide (Opcode event = SurfaceEventConfigure)) as [Hop|Hop]; [|apply ro_Ret].
  specialize (Hp Hop).
  destruct (Data event) as [|serial [|width [|height rest]]] eqn:Hdata;
    cbn in Hp; try lia.
  apply ro_Len_free. intros n. destruct (decide (0 < n)%nat); [|apply ro_Ret].
  apply ro_New. unfold Uint32 at 1. rewrite Hdata. unfold Uint32. cbn [Data].
  apply (reader_only_bind HoldsNone HoldsNone); [apply reader_only_fan_out|].
  intros _. apply ro_Ret.
Qed.

Lemma SessionLock_good_call (c : Call LockSlot) :
  good_call (T:=SessionLock) SessionLock_Dispatch c.
Proof.
  destruct c as [s [h|]|s h|event]; cbn [call_prog].
  - right. apply writing_call_AddHandler.
  - left. apply reading_call_AddHandler_nil.
  - right. apply writing_call_RemoveHandler.
  - left. apply reading_call_dispatch; [apply reader_only_SessionLock_Dispatch|].
    intros t Hq. exists event. by apply run_SessionLock_Dispatch.
Qed.

Lemma SessionLockSurface_good_call (c : Call SurfaceSlot) :
  match c with CallDispatch event => configure_payload event | _ => True end ->
  good_call (T:=SessionLockSurface) SessionLockSurface_Dispatch c.
Proof.
  destruct c as [s [h|]|s h|event]; cbn [call_prog]; intros Hp.
  - right. apply writing_call_AddHandler.
  - left. apply reading_call_AddHandler_nil.
  - right. apply writing_call_RemoveHandler.
  - left. apply reading_call_dispatch; [by apply reader_only_SessionLockSurface_Dispatch|].
    intros t Hq. by apply run_SessionLockSurface_Dispatch.
Qed.

(** X16 (concurrent calls take effect one at a time).  Take any number of
    goroutines, each making any sequence of add, remove and dispatch calls
    on one lock (or on one lock surface), interleaved operation by operation
    in any way from a state in which nobody holds the mutex.  Once all of
    them have returned, the proxy is exactly what the same calls give when
    they are made one after the other, in some order that keeps the order
    of the calls of each goroutine: no add and no remove is lost or applied
    half. *)
Theorem concurrent_calls_take_effect_one_at_a_time
    (l : SessionLock) (callers : list (list (Call LockSlot)))
    (P : Pool SessionLock LockSlot)
    (sf : SessionLockSurface) (callers' : list (list (Call SurfaceSlot)))
    (P' : Pool SessionLockSurface SurfaceSlot) :
  quiescent l -> rtc pool_step (SessionLock_pool l callers) P -> all_returned P ->
  quiescent sf -> Forall configure_payloads callers' ->
  rtc pool_step (SessionLockSurface_pool sf callers') P' -> all_returned P' ->
  (exists cs, interleaving callers cs
              /\ (run (SessionLock_calls cs) l).2 = Returned tt (shared P))
  /\ (exists cs', interleaving callers' cs'
                  /\ (run (SessionLockSurface_calls cs') sf).2 = Returned tt (shared P')).
Proof.
  intros Hl Hreach Hall Hsf Hcs Hreach' Hall'. split.
  - apply (linearized_final SessionLock_Dispatch l callers P); [|..|done].
    + by eapply SessionLock_pool_inv.
    + eapply (linearized_reachable SessionLock_Dispatch l callers); [| |exact Hreach].
      * by eapply SessionLock_pool_inv.
      * apply linearized_init; [done|].
        apply Forall_forall. intros cs _. apply Forall_forall. intros c _.
        apply SessionLock_good_call.
  - apply (linearized_final SessionLockSurface_Dispatch sf callers' P'); [|..|done].
    + by eapply SessionLockSurface_pool_inv.
    + eapply (linearized_reachable SessionLockSurface_Dispatch sf callers');
        [| |exact Hreach'].
      * by eapply SessionLockSurface_pool_inv.
      * apply linearized_init; [done|].
        eapply Forall_impl; [exact Hcs|]. intros cs Hp.
        eapply Forall_impl; [exact Hp|]. intros c Hc.
        by apply SessionLockSurface_good_call.
Qed.

Lemma pool_run_app {T Slot} `{Object T Slot} (P : Pool T Slot) s1 s2 :
  pool_run P (s1 ++ s2) = pool_run (pool_run P s1) s2.
Proof. apply foldl_app. Qed.

(** In the sample pool the remove of b waits for the fan-out over a, b, a
    and takes effect after it: the lock ends up with the listeners a, a. *)
Lemma concurrent_calls_take_effect_one_at_a_time_witness :
  quiescent sample_lock
  /\ rtc pool_step
       (SessionLock_pool sample_lock
          [[CallDispatch sample_locked_event]; [CallRemove Locked (Some client_b)]])
       sample_pool_finished
  /\ all_returned sample_pool_finished
  /\ quiescent sample_surface
  /\ Forall configure_payloads
       [[CallDispatch sample_configure_event];
        [CallAdd Configure (Some surface_handler_a)]]
  /\ rtc pool_step
       (SessionLockSurface_pool sample_surface
          [[CallDispatch sample_configure_event];
           [CallAdd Configure (Some surface_handler_a)]])
       sample_surface_pool_finished
  /\ all_returned sample_surface_pool_finished
  /\ privateSessionLockLocked (shared sample_pool_finished) = [client_a; client_a]
  /\ exists cs,
       interleaving
         [[CallDispatch sample_locked_event]; [CallRemove Locked (Some client_b)]] cs
       /\ (run (SessionLock_calls cs) sample_lock).2
          = Returned tt (shared sample_pool_finished).
Proof.
  assert (Hp : Forall configure_payloads
                 [[CallDispatch sample_configure_event];
                  [CallAdd Configure (Some surface_handler_a)]]).
  { repeat constructor. }
  assert (Hr : rtc pool_step
                 (SessionLock_pool sample_lock
                    [[CallDispatch sample_locked_event];
                     [CallRemove Locked (Some client_b)]])
                 sample_pool_finished).
  { unfold sample_pool_finished, sample_pool_in_fan_out. rewrite <- pool_run_app.
    apply (pool_run_reachable sample_pool). }
  assert (Hr' : rtc pool_step
                  (SessionLockSurface_pool sample_surface
                     [[CallDispatch sample_configure_event];
                      [CallAdd Configure (Some surface_handler_a)]])
                  sample_surface_pool_finished)
    by apply (pool_run_reachable sample_surface_pool).
  assert (Ha : all_returned sample_pool_finished).
  { unfold all_returned. vm_compute. repeat constructor. }
  assert (Ha' : all_returned sample_surface_pool_finished).
  { unfold all_returned. vm_compute. repeat constructor. }
  split; [reflexivity|]. split; [exact Hr|]. split; [exact Ha|].
  split; [reflexivity|]. split; [exact Hp|]. split; [exact Hr'|]. split; [exact Ha'|].
  split; [reflexivity|].
  exact (proj1 (concurrent_calls_take_effect_one_at_a_time
                  sample_lock _ sample_pool_finished sample_surface _
                  sample_surface_pool_finished eq_refl Hr Ha eq_refl Hp Hr' Ha')).
Defined.

(** ** Nil listeners and a mutex that is held *)

Section NilHandler.
Context {T Slot : Type} `{ObjectLaws T Slot}.

Lemma run_remove_loop_nil (s : Slot) (l : list Handler) n i (t : T) :
  obj_slot s t = l -> (i + n = length l)%nat ->
  run (remove_loop s None n i) t
  = (imap (fun j e => EIndex s (i + j) e) (drop i l), Returned tt t).
Proof.
  intros Hl. revert i. induction n as [|n IH]; intros i Hn.
  - rewrite drop_ge by lia. done.
  - destruct (lookup_lt_is_Some_2 l i) as [e He]; [lia|].
    rewrite (drop_S _ _ _ He). cbn [remove_loop imap].
    change (run (e0 ← act (Index s i);
                 if iface_eq e0 None
                 then front ← act (Load s); back ← act (Load s);
                      act (Store s (take i front ++ drop (S i) back))
                 else remove_loop s None n (S i)) t)
      with (match perform (Index s i) t with
            | Yields r t' =>
                after (EIndex s i r)
                  (run (if iface_eq r None
                        then front ← act (Load s); back ← act (Load s);
                             act (Store s (take i front ++ drop (S i) back))
                        else remove_loop s None n (S i)) t')
            | WouldBlock => ([], Deadlocked)
            | Fatal => ([], Panicked)
            end).
    rewrite (perform_Index s i e) by (by rewrite Hl).
    unfold iface_eq. rewrite bool_decide_eq_false_2 by done.
    rewrite IH by lia. unfold after. cbn [fst snd]. rewrite Nat.add_0_r.
    f_equal. f_equal. apply imap_ext. intros j x _. cbn. f_equal. lia.
Qed.

Lemma run_RemoveHandler_nil (s : Slot) (t : T) :
  quiescent t ->
  run (RemoveHandler s None) t
  = (ELock :: ELen s (length (obj_slot s t))
       :: imap (fun j e => EIndex s j e) (obj_slot s t) ++ [EUnlock],
     Returned tt t).
Proof.
  intros Hq. unfold RemoveHandler.
  rewrite run_bind. cbn [run act]. rewrite (perform_Lock t Hq).
  unfold then_run, after. cbn [fst snd effect_of app].
  rewrite run_bind. cbn [run act]. rewrite perform_Len, obj_slot_set_mu.
  unfold then_run, after. cbn [fst snd effect_of app].
  rewrite run_bind.
  rewrite (run_remove_loop_nil s (obj_slot s t)) by (by rewrite ?obj_slot_set_mu).
  unfold then_run. cbn [fst snd]. rewrite drop_0.
  rewrite run_act_Unlock by (by rewrite obj_mu_set_mu).
  cbn [fst snd]. rewrite obj_set_mu_set_mu, <- Hq, obj_set_mu_id. done.
Qed.
End NilHandler.

(** X17 (nil listeners, and calls on a proxy whose mutex is held).
    [Add*Handler] tests its argument and [Remove*Handler] does not: adding
    nil performs no operation at all and returns whatever the state of the
    mutex, whereas removing nil takes the write lock, reads every listener
    of the slice, assigns nothing, releases the lock and leaves the proxy
    as it was.  On a proxy whose mutex somebody holds, as the [Dispatch]
    does that is calling a listener, neither the add of a listener nor any
    remove can proceed. *)
Theorem nil_is_tested_by_add_only
    {T Slot : Type} `{ObjectLaws T Slot} (s : Slot) (h : Handler) (h' : iface) (t : T) :
  run (AddHandler s None) t = ([], Returned tt t)
  /\ (quiescent t ->
      run (RemoveHandler s None) t
      = (ELock :: ELen s (length (obj_slot s t))
           :: imap (fun j e => EIndex s j e) (obj_slot s t) ++ [EUnlock],
         Returned tt t))
  /\ (obj_mu t <> mu_zero ->
      run (AddHandler s (Some h)) t = ([], Deadlocked)
      /\ run (RemoveHandler s h') t = ([], Deadlocked)).
Proof.
  split; [done|]. split; [apply run_RemoveHandler_nil|].
  intros Hheld.
  assert (Hblock : RWMutex_Lock (obj_mu t) = MuBlocks).
  { unfold RWMutex_Lock, mu_zero in *. destruct (obj_mu t) as [[|n] [|]]; done. }
  split; cbn; by rewrite Hblock.
Qed.

(** On the sample lock: removing nil reads a, b, a under the write lock and
    changes nothing; while a reader holds the mutex, adding c cannot
    proceed. *)
Lemma nil_is_tested_by_add_only_witness :
  run (RemoveHandler Locked None) sample_lock
  = ([ELock; ELen Locked 3; EIndex Locked 0 client_a; EIndex Locked 1 client_b;
      EIndex Locked 2 client_a; EUnlock], Returned tt sample_lock)
  /\ run (AddHandler Locked (Some client_c))
       (obj_set_mu {| readers := 1; writer := false |} sample_lock)
     = ([], Deadlocked).
Proof.
  split.
  - exact (proj1 (proj2 (nil_is_tested_by_add_only Locked client_c None sample_lock))
             eq_refl).
  - apply (proj2 (proj2 (nil_is_tested_by_add_only Locked client_c None
                           (obj_set_mu {| readers := 1; writer := false |} sample_lock)))).
    done.
Defined.
